(** * webapp_reaper: a shallow embedding of [reaper/reaper.py]

    The program reads a list of Azure web apps, collects the container
    images their slots run, and deletes from a container registry the tags
    of the same repositories that no slot runs.

    Model, in the order of the source file:
    - [PyStr]    the [str] methods the program calls;
    - [Regex]    a backtracking matcher for the fragment of Python's [re]
                 in which the image pattern is written;
    - [Dict]     Python's insertion-ordered [dict] as an association list;
    - the Azure SDK clients as a type class [Provider] over an abstract
      cloud state, a state monad [M] over the [World] (cloud state, trace
      of SDK calls, log), and the log as structured f-strings;
    - the methods of [class Reaper] and [main];
    - the vocabulary of the properties, and [Fake], a provider held in
      memory on which the program can be run.

    Properties: strings and the pattern, parsing of image locators, the
    descriptor marker, effects of computations, dictionaries,
    identification, deletion, the summary, the stages of [main], cleanup of
    manifests, exit status.

    Strings are sequences of bytes.  The characters the program tests for
    (colon, newline, slash, the registry suffix and the descriptor marker)
    are ASCII, and no byte of a multi-byte UTF-8 character is, so splitting
    and matching give the same result on bytes as on code points. *)

From Stdlib Require Import Ascii.
From stdpp Require Import base option list sorting gmap strings.


(** ** Python [str] operations *)

Module PyStr.

Definition newline : ascii := "010"%char.

(** [c in s] for a single character [c]. *)
Fixpoint has_char (c : ascii) (s : string) : bool :=
  match s with
  | "" => false
  | String x s' => if Ascii.eqb x c then true else has_char c s'
  end.

(** [s.startswith(p)], returning what follows the prefix. *)
Fixpoint strip_prefix (p s : string) : option string :=
  match p, s with
  | "", _ => Some s
  | String _ _, "" => None
  | String a p', String b s' =>
      if Ascii.eqb a b then strip_prefix p' s' else None
  end.

Definition startswith (s p : string) : bool :=
  if strip_prefix p s is Some _ then true else false.

(** [sub in s]. *)
Fixpoint str_in (sub s : string) : bool :=
  startswith s sub ||
  match s with
  | "" => false
  | String _ s' => str_in sub s'
  end.

(** [s.replace(old, new)]: every non-overlapping occurrence of [old],
    scanning from the left.  [skip] counts the characters of an occurrence
    that has just been replaced and are still to be dropped.  With an empty
    [old], Python puts [new] before every character and at the end. *)
Fixpoint replace_from (skip : nat) (old new s : string) : string :=
  match s with
  | "" => ""
  | String c s' =>
      match skip with
      | S k => replace_from k old new s'
      | O =>
          if startswith s old
          then new +:+ replace_from (String.length old - 1) old new s'
          else String c (replace_from O old new s')
      end
  end.

Fixpoint intersperse (new s : string) : string :=
  match s with
  | "" => new
  | String c s' => new +:+ String c (intersperse new s')
  end.

Definition replace (s old new : string) : string :=
  match old with
  | "" => intersperse new s
  | _ => replace_from O old new s
  end.

(** [s.split(sep)[-1]] for a one-character separator: what follows the
    last separator, the whole string when there is none. *)
Fixpoint last_segment (sep : ascii) (s : string) : string :=
  match s with
  | "" => ""
  | String c s' =>
      if Ascii.eqb c sep
      then last_segment sep s'
      else if has_char sep s' then last_segment sep s' else s
  end.

(** [all(f(c) for c in s)]. *)
Fixpoint str_forall (f : ascii → bool) (s : string) : bool :=
  match s with
  | "" => true
  | String c s' => f c && str_forall f s'
  end.

(** [s * n]. *)
Fixpoint repeat (s : string) (n : nat) : string :=
  match n with
  | O => ""
  | S n' => s +:+ repeat s n'
  end.

End PyStr.

(** ** The fragment of [re] used by the image pattern

    Repetition is only ever applied to a one-character class in the
    program's pattern, so [Star] and [Plus] take a class.  Matching is by
    backtracking in Python's priority order: a greedy repetition tries the
    longest run first and gives characters back one at a time, an optional
    group is tried before it is skipped, and the first complete match
    wins. *)

Module Regex.
Import PyStr.

Inductive cls : Type :=
| AnyChar                (* .     any character except a newline *)
| NotChr (c : ascii).    (* [^c]  any character except c *)

Inductive regex : Type :=
| Bol                          (* ^ *)
| Eol                          (* $ *)
| Lit (l : string)             (* literal text *)
| Star (c : cls)               (* c* *)
| Plus (c : cls)               (* c+ *)
| Opt (r : regex)              (* (?:r)? *)
| Cat (r1 r2 : regex)          (* r1 r2 *)
| Grp (n : nat) (r : regex).   (* ( r ), the n-th capturing group *)

Definition cls_match (k : cls) (c : ascii) : bool :=
  match k with
  | AnyChar => negb (Ascii.eqb c newline)
  | NotChr x => negb (Ascii.eqb c x)
  end.

(** What [group(n)] returns for the groups that took part in the match. *)
Abbreviation groups := (gmap nat string).

(** A continuation receives what is left of the subject and the groups
    captured so far. *)
Definition kont : Type := string → groups → option groups.

Fixpoint star (k : cls) (s : string) (cs : groups) (ret : kont)
  : option groups :=
  match s with
  | "" => ret "" cs
  | String c s' =>
      if cls_match k c
      then match star k s' cs ret with
           | Some m => Some m
           | None => ret s cs
           end
      else ret s cs
  end.

Definition plus (k : cls) (s : string) (cs : groups) (ret : kont)
  : option groups :=
  match s with
  | "" => None
  | String c s' => if cls_match k c then star k s' cs ret else None
  end.

(** [$] without MULTILINE: at the end of the subject, or just before a
    newline that is its last character. *)
Definition at_eol (s : string) : bool :=
  match s with
  | "" => true
  | String c "" => Ascii.eqb c newline
  | _ => false
  end.

(** The text consumed between [s] and its suffix [s']. *)
Definition consumed (s s' : string) : string :=
  String.substring 0 (String.length s - String.length s') s.

(** [exec r subject s cs ret]: match [r] at the suffix [s] of [subject]. *)
Fixpoint exec (r : regex) (subject s : string) (cs : groups) (ret : kont)
  : option groups :=
  match r with
  | Bol =>
      if Nat.eqb (String.length s) (String.length subject)
      then ret s cs else None
  | Eol => if at_eol s then ret s cs else None
  | Lit l =>
      match strip_prefix l s with
      | Some s' => ret s' cs
      | None => None
      end
  | Star k => star k s cs ret
  | Plus k => plus k s cs ret
  | Opt r1 =>
      match exec r1 subject s cs ret with
      | Some m => Some m
      | None => ret s cs
      end
  | Cat r1 r2 =>
      exec r1 subject s cs (λ s' cs', exec r2 subject s' cs' ret)
  | Grp n r1 =>
      exec r1 subject s cs (λ s' cs', ret s' (<[n := consumed s s']> cs'))
  end.

(** A run of [k] cannot go on into [s]. *)
Definition stops (k : cls) (s : string) : bool :=
  match s with
  | "" => true
  | String c _ => negb (cls_match k c)
  end.

(** [re.match(r, subject)]: anchored at the start of the subject, not
    required to reach its end. *)
Definition re_match (r : regex) (subject : string) : option groups :=
  exec r subject subject ∅ (λ _ cs, Some cs).

Definition group (m : groups) (n : nat) : option string := m !! n.

End Regex.

(** ** Python [dict]: insertion-ordered, one entry per key *)

Module Dict.

Definition t (V : Type) : Type := list (string * V).

Section ops.
Context {V : Type}.

Definition empty : t V := [].

(** [d.get(k)], [None] when the key is absent. *)
Fixpoint get (d : t V) (k : string) : option V :=
  match d with
  | [] => None
  | (k', v) :: d' => if decide (k' = k) then Some v else get d' k
  end.

(** [d[k] = v]: an existing key keeps its position, a new key goes
    last. *)
Fixpoint set (k : string) (v : V) (d : t V) : t V :=
  match d with
  | [] => [(k, v)]
  | (k', v') :: d' =>
      if decide (k' = k) then (k, v) :: d' else (k', v') :: set k v d'
  end.

(** In-place update of the object stored under [k]. *)
Fixpoint modify (f : V → V) (k : string) (d : t V) : t V :=
  match d with
  | [] => []
  | (k', v) :: d' =>
      if decide (k' = k) then (k', f v) :: d' else (k', v) :: modify f k d'
  end.

Definition keys (d : t V) : list string := d.*1.
Definition values (d : t V) : list V := d.*2.
Definition items (d : t V) : list (string * V) := d.

(** The shape every Python dict has. *)
Definition wf (d : t V) : Prop := NoDup (keys d).
End ops.

End Dict.

(** ** Values the program handles *)

(** The result of [json.load]. *)
#[local] Unset Elimination Schemes.
Inductive json : Type :=
| JNull
| JBool (b : bool)
| JNumber (literal : string)
| JString (s : string)
| JArray (l : list json)
| JObject (d : list (string * json)).
#[local] Set Elimination Schemes.

(** The exceptions the program raises itself or lets through to [main]. *)
Inductive Exn : Type :=
| FileNotFoundError (msg : string)
| JSONDecodeError (msg doc : string) (pos : nat)
| OSError (msg : string)
| ValueError (msg : string)
| KeyError (key : string).

Inductive Result (E A : Type) : Type :=
| Ok (a : A)
| Raise (e : E).
Arguments Ok {E A} a.
Arguments Raise {E A} e.

(** What [open] and [json.load] make of the configuration file. *)
Inductive Loaded : Type :=
| Unreadable (msg : string)                  (* open or read raises OSError *)
| Malformed (msg doc : string) (pos : nat)   (* JSONDecodeError(msg, doc, pos) *)
| Parsed (v : json).

(** What is found at the configuration path: [None] when nothing exists
    there. *)
Definition ConfigFile : Type := option Loaded.

(** The dict returned by [extract_web_apps_images]. *)
Record Image : Type := mkImage {
  repository : string;
  tag : string;
  full_image_name : string
}.

(** One entry of [deletion_results]. *)
Record Deletion : Type := mkDeletion {
  attempted : nat;
  successful : nat;
  failed : nat;
  errors : list string
}.

(** ** The log

    A message is the f-string it was written as: its literal text and the
    values interpolated into it, in order. *)

Inductive Level : Type := INFO | WARNING | ERROR.

Inductive Frag : Type :=
| Txt (s : string)            (* literal text of the format string *)
| Val (s : string)            (* {s} for a str *)
| Num (n : nat)               (* {n} for an int *)
| Vals (l : list string)      (* {l} for a list of str *)
| ValSet (X : gset string)    (* {X} for a set of str *)
| Exc (e : Exn)               (* {e} for a caught exception *)
| Traceback (e : Exn).        (* {traceback.format_exc()} *)

Record LogRecord : Type := mkLog { level : Level; message : list Frag }.

Definition info (m : list Frag) : LogRecord := mkLog INFO m.
Definition warning (m : list Frag) : LogRecord := mkLog WARNING m.
Definition error (m : list Frag) : LogRecord := mkLog ERROR m.

(** A computation that only writes to the log. *)
Definition Logged (A : Type) : Type := A * list LogRecord.

(** [sorted(xs)] on strings: code-point order, which on UTF-8 encoded
    strings is the byte order of [String.le]. *)
Definition sorted (xs : list string) : list string := merge_sort String.le xs.

(** ** The Azure SDK clients

    The program reaches the cloud only through these seven operations.  A
    provider is any implementation of them over some state; an operation
    answers and may change that state.  A failed call is the [str] of the
    exception it raised.  Listing operations return iterators: [Listing]
    holds what the iterator yields and the exception that ends the
    iteration early, if any. *)

Record SiteConfig : Type := mkSiteConfig {
  linux_fx_version : option string;
  windows_fx_version : option string
}.

Record Site : Type := mkSite { site_config : option SiteConfig }.

Record ManifestProperties : Type := mkManifest {
  digest : string;
  tags : option (list string)
}.

Record Listing (A : Type) : Type := mkListing {
  yielded : list A;
  broken : option string
}.
Arguments mkListing {A} yielded broken.
Arguments yielded {A} l.
Arguments broken {A} l.

Class Provider (St : Type) : Type := {
  (* WebSiteManagementClient.web_apps *)
  web_apps_get : string → string → St → Result string Site * St;
  web_apps_list_slots : string → string → St → Listing string * St;
  web_apps_get_configuration_slot :
    string → string → string → St → Result string SiteConfig * St;
  (* ContainerRegistryClient *)
  list_tag_properties : string → St → Listing string * St;
  delete_tag : string → string → St → Result string unit * St;
  list_manifest_properties : string → St → Listing ManifestProperties * St;
  delete_manifest : string → string → St → Result string unit * St
}.

Inductive Call : Type :=
| GetWebApp (resource_group web_app : string)
| ListSlots (resource_group web_app : string)
| GetConfigurationSlot (resource_group web_app slot : string)
| ListTagProperties (repo : string)
| DeleteTag (repo tag_name : string)
| ListManifestProperties (repo : string)
| DeleteManifest (repo digest_name : string).

(** The world a run acts on: the provider's state, the SDK calls issued so
    far and the log written so far, both oldest first. *)
Record World (St : Type) : Type := mkWorld {
  cloud : St;
  calls : list Call;
  output : list LogRecord
}.
Arguments mkWorld {St} cloud calls output.
Arguments cloud {St} w.
Arguments calls {St} w.
Arguments output {St} w.

Definition M (St A : Type) : Type := World St → A * World St.

Definition ret {St A} (a : A) : M St A := λ w, (a, w).

Definition bind {St A B} (m : M St A) (f : A → M St B) : M St B :=
  λ w, let (a, w') := m w in f a w'.

Declare Scope reaper_scope.
Delimit Scope reaper_scope with reaper.
Notation "x <- m ;; k" := (bind m (λ x, k))
  (at level 100, m at next level, right associativity) : reaper_scope.
Notation "m ;; k" := (bind m (λ _, k))
  (at level 100, right associativity) : reaper_scope.

(** [logger.info], [logger.warning], [logger.error]. *)
Definition log {St} (r : LogRecord) : M St unit :=
  λ w, (tt, mkWorld (cloud w) (calls w) (output w ++ [r])).

(** Run a computation that only logs. *)
Definition logged {St A} (c : Logged A) : M St A :=
  λ w, (c.1, mkWorld (cloud w) (calls w) (output w ++ c.2)).

(** Issue one SDK call. *)
Definition sdk {St A} (c : Call) (op : St → A * St) : M St A :=
  λ w, let (a, st) := op (cloud w) in (a, mkWorld st (calls w ++ [c]) (output w)).

(** [for x in xs: acc = body(x, acc)]. *)
Fixpoint for_each {St A B} (xs : list A) (body : A → B → M St B) (acc : B)
  : M St B :=
  match xs with
  | [] => ret acc
  | x :: xs' => bind (body x acc) (for_each xs' body)
  end.

(** ** [class Reaper] *)

Import PyStr Regex.
Local Open Scope reaper_scope.

(** The fields set by [__init__]; the three SDK clients built there are the
    [Provider]. *)
Record Reaper : Type := mkReaper {
  subscription_id : string;
  resource_group_name : string;
  registry_name : string
}.

(** [os.environ]. *)
Definition Environ : Type := gmap string string.

(** [Reaper.__init__]: the credential is read from three environment
    variables, in this order; a missing one raises [KeyError]. *)
Definition Reaper_init (environ : Environ)
    (subscription resource_group registry : string) : Result Exn Reaper :=
  match environ !! "AZURE_TENANT_ID" with
  | None => Raise (KeyError "AZURE_TENANT_ID")
  | Some _ =>
      match environ !! "AZURE_CLIENT_ID" with
      | None => Raise (KeyError "AZURE_CLIENT_ID")
      | Some _ =>
          match environ !! "AZURE_CLIENT_SECRET" with
          | None => Raise (KeyError "AZURE_CLIENT_SECRET")
          | Some _ => Ok (mkReaper subscription resource_group registry)
          end
      end
  end.

Section load_configs.

(** [str(v)] for the JSON values that are not strings (numbers, booleans,
    null, nested containers) is Python's business. *)
Variable str_of_json : json → string.

Definition py_str (v : json) : string :=
  match v with
  | JString s => s
  | _ => str_of_json v
  end.

(** The body of the [try] block of [load_configs]. *)
Definition read_web_apps (loaded : Loaded)
  : Logged (Result Exn (list string)) :=
  match loaded with
  | Unreadable msg => (Raise (OSError msg), [])
  | Malformed msg doc pos => (Raise (JSONDecodeError msg doc pos), [])
  | Parsed config =>
      match config with
      | JObject d =>
          match Dict.get d "webApps" with
          | Some (JArray l) =>
              let web_apps := py_str <$> l in
              (Ok web_apps, [info [Txt "Web apps to protect: "; Vals web_apps]])
          | Some _ => (Raise (ValueError "webApps should be a list."), [])
          | None => (Ok [], [])
          end
      | _ =>
          (Raise (ValueError "Configuration file should contain a JSON object."), [])
      end
  end.

Definition load_configs (config_path : string) (file : ConfigFile)
  : Logged (Result Exn (list string)) :=
  match file with
  | None =>
      (Raise (FileNotFoundError
                ("Configuration file " +:+ config_path +:+ " does not exist.")),
       [])
  | Some loaded =>
      let (r, l) := read_web_apps loaded in
      match r with
      | Ok web_apps => (Ok web_apps, l)
      | Raise (JSONDecodeError msg doc pos) =>
          (Raise (JSONDecodeError
                    ("Configuration file " +:+ config_path +:+
                     " is not a valid JSON file. file: " +:+ msg) doc pos),
           l ++ [error [Txt "Error decoding JSON from the configuration file ";
                        Val config_path; Txt "."]])
      | Raise e =>
          (Raise (ValueError
                    ("Configuration file " +:+ config_path +:+
                     " is not a valid JSON file.")),
           l ++ [error [Txt "Unexpected error occurred while processing the configuration file ";
                        Val config_path; Txt ": "; Exc e]])
      end
  end.

End load_configs.

(** [r'^(?:.*\.azurecr\.io/)?([^:]+):(.+)$'] *)
Definition image_pattern : regex :=
  Cat Bol
 (Cat (Opt (Cat (Star AnyChar) (Lit ".azurecr.io/")))
 (Cat (Grp 1 (Plus (NotChr ":")))
 (Cat (Lit ":")
 (Cat (Grp 2 (Plus AnyChar))
      Eol)))).

(** [extract_web_apps_images].  [re.match] does not raise on a [str], so the
    [except] clause of the source is never entered.  Both groups take part in
    every match of [image_pattern] (lemma [image_pattern_groups]). *)
Definition extract_web_apps_images (registry_url : string)
  : Logged (option Image) :=
  if decide (registry_url = "") then
    (None, [error [Txt "Registry URL is not provided."]])
  else
    match re_match image_pattern registry_url with
    | Some m =>
        match group m 1, group m 2 with
        | Some repository_name, Some tag_name =>
            let full := repository_name +:+ ":" +:+ tag_name in
            (Some (mkImage repository_name tag_name full),
             [info [Txt "Extracted image name: "; Val full]])
        | _, _ => (None, [])
        end
    | None =>
        (None, [error [Txt "Registry URL "; Val registry_url;
                       Txt " does not match the expected pattern."]])
    end.

(** The images and the repositories collected so far. *)
Definition Collected : Type := gset string * gset string.

(** The block that [get_webapps_slots_images] repeats four times, for the
    Linux and the Windows descriptor of the production slot and of every
    deployment slot.  The copies differ in the message logged when an
    image is found ([found], followed by the full image name) and in what
    is logged when the descriptor is absent or empty ([absent]: a warning
    for the production slot, nothing for a deployment slot). *)
Definition descriptor_block (fx_version : option string)
    (found : list Frag) (absent : list LogRecord) (acc : Collected)
  : Logged Collected :=
  match fx_version with
  | Some v =>
      if decide (v = "") then (acc, absent)
      else if startswith v "DOCKER|" then
        let image_url := replace v "DOCKER|" "" in
        let (image_extracted, l) := extract_web_apps_images image_url in
        match image_extracted with
        | Some img =>
            ((acc.1 ∪ {[full_image_name img]}, acc.2 ∪ {[repository img]}),
             l ++ [info (found ++ [Val (full_image_name img)])])
        | None => (acc, l)
        end
      else (acc, [])
  | None => (acc, absent)
  end.

Section Reaper.

Context {St : Type} {clients : Provider St}.
Variable self : Reaper.

Definition get_webapps_slots_images (web_app_name : string)
  : M St Collected :=
  let rg := resource_group_name self in
  (* production slot *)
  log (info [Txt "Retrieving web app slots for "; Val web_app_name; Txt "..."]) ;;
  log (info [Txt "Web app production slot: "; Val web_app_name]) ;;
  r <- sdk (GetWebApp rg web_app_name) (web_apps_get rg web_app_name) ;;
  acc <- match r with
         | Ok prod_slot =>
             a <- logged (descriptor_block
                    (site_config prod_slot ≫= linux_fx_version)
                    [Txt "Production slot image extracted from a linux container: "]
                    [warning [Txt "No Linux FX version found for production slot of web app ";
                              Val web_app_name; Txt "."]]
                    (∅, ∅)) ;;
             logged (descriptor_block
                    (site_config prod_slot ≫= windows_fx_version)
                    [Txt "Production slot image extracted from a windows container: "]
                    [warning [Txt "No Windows FX version found for production slot of web app ";
                              Val web_app_name; Txt "."]]
                    a)
         | Raise e =>
             log (error [Txt "Failed to retrieve production slot images for web app ";
                         Val web_app_name; Txt ": "; Val e]) ;;
             ret (∅, ∅)
         end ;;
  (* deployment slots *)
  log (info [Txt "Retrieving deployment slots for "; Val web_app_name; Txt "..."]) ;;
  slots <- sdk (ListSlots rg web_app_name) (web_apps_list_slots rg web_app_name) ;;
  acc <- for_each (yielded slots)
           (λ slot acc,
              let slot_name := last_segment "/" slot in
              log (info [Txt "Checking slot Name "; Val slot_name]) ;;
              r <- sdk (GetConfigurationSlot rg web_app_name slot_name)
                       (web_apps_get_configuration_slot rg web_app_name slot_name) ;;
              match r with
              | Ok slot_config =>
                  a <- logged (descriptor_block
                         (linux_fx_version slot_config)
                         [Txt "Slot "; Val slot_name;
                          Txt " image extracted from a linux container: "]
                         [] acc) ;;
                  logged (descriptor_block
                         (windows_fx_version slot_config)
                         [Txt "Slot "; Val slot_name;
                          Txt " image extracted from a windows container: "]
                         [] a)
              | Raise e =>
                  log (error [Txt "Failed to retrieve configuration for slot ";
                              Val slot_name; Txt " of web app "; Val web_app_name;
                              Txt ": "; Val e]) ;;
                  ret acc
              end)
           acc ;;
  match broken slots with
  | Some e =>
      log (error [Txt "Failed to retrieve slot images for web app ";
                  Val web_app_name; Txt ": "; Val e])
  | None => ret tt
  end ;;
  ret acc.

Definition get_all_web_apps_data (web_apps : list string) : M St Collected :=
  all <- for_each web_apps
           (λ web_app (all : Collected),
              log (info [Txt "Processing web app: "; Val web_app]) ;;
              found <- get_webapps_slots_images web_app ;;
              log (info [Txt "Images extracted for web app "; Val web_app;
                         Txt ": "; ValSet found.1]) ;;
              log (info [Txt "Repositories found for web app "; Val web_app;
                         Txt ": "; ValSet found.2]) ;;
              let all_images :=
                if decide (found.1 = ∅) then all.1 else all.1 ∪ found.1 in
              let all_repositories :=
                if decide (found.2 = ∅) then all.2 else all.2 ∪ found.2 in
              ret (all_images, all_repositories))
           (∅, ∅) ;;
  log (info [Txt "Total protected images across all web apps: "; Num (size all.1)]) ;;
  log (info [Txt "Total repositories to clean: "; Num (size all.2)]) ;;
  log (info [Txt "Protected images: "; Vals (sorted (elements all.1))]) ;;
  log (info [Txt "Repositories to clean: "; Vals (sorted (elements all.2))]) ;;
  ret all.

Definition get_acr_repository_tags (repository_name : string)
  : M St (list string) :=
  log (info [Txt "Retrieving tags for repository "; Val repository_name;
             Txt " in ACR "; Val (registry_name self); Txt "..."]) ;;
  listing <- sdk (ListTagProperties repository_name)
                 (list_tag_properties repository_name) ;;
  match broken listing with
  | None =>
      let tag_list := yielded listing in
      log (info [Txt "Tags retrieved for repository "; Val repository_name;
                 Txt ": "; Vals tag_list]) ;;
      ret tag_list
  | Some e =>
      log (error [Txt "Failed to retrieve tags for repository ";
                  Val repository_name; Txt ": "; Val e]) ;;
      ret []
  end.

(** The inner loop of [identify_unused_images]: the tags of one
    repository are appended to [unused_tags] or to [protected_tags]. *)
Fixpoint classify_tags (repository_name : string)
    (protected_images : gset string) (all_tags : list string)
    (acc : list string * list string) : Logged (list string * list string) :=
  match all_tags with
  | [] => (acc, [])
  | tag_name :: rest =>
      let full := repository_name +:+ ":" +:+ tag_name in
      if decide (full ∉ protected_images) then
        let (r, l) := classify_tags repository_name protected_images rest
                        (acc.1 ++ [tag_name], acc.2) in
        (r, info [Txt "Found unused image: "; Val full] :: l)
      else
        let (r, l) := classify_tags repository_name protected_images rest
                        (acc.1, acc.2 ++ [tag_name]) in
        (r, info [Txt "Protecting image (in use by web app): "; Val full] :: l)
  end.

(** [for repository in repositories] runs over a set: in the order of
    [elements], which like Python's is not specified. *)
Definition identify_unused_images (repositories protected_images : gset string)
  : M St (Dict.t (list string)) :=
  for_each (elements repositories)
    (λ repository_name unused_images,
       log (info [Txt "Analyzing repository: "; Val repository_name]) ;;
       all_tags <- get_acr_repository_tags repository_name ;;
       split <- logged (classify_tags repository_name protected_images
                          all_tags ([], [])) ;;
       let unused_tags := split.1 in
       let protected_tags := split.2 in
       match unused_tags with
       | _ :: _ =>
           log (info [Txt "Repository "; Val repository_name; Txt " has ";
                      Num (length unused_tags); Txt " unused tags out of ";
                      Num (length all_tags); Txt " total tags"]) ;;
           log (info [Txt "  - Protected tags ("; Num (length protected_tags);
                      Txt "): "; Vals (sorted protected_tags)]) ;;
           log (info [Txt "  - Unused tags ("; Num (length unused_tags);
                      Txt "): "; Vals (sorted unused_tags)]) ;;
           ret (Dict.set repository_name unused_tags unused_images)
       | [] =>
           log (info [Txt "Repository "; Val repository_name;
                      Txt " has no unused tags (all "; Num (length all_tags);
                      Txt " tags are in use)"]) ;;
           ret unused_images
       end)
    Dict.empty.

Definition dry_run_prefix (dry_run : bool) : Frag :=
  Val (if dry_run then "[DRY RUN] " else "").

Definition add_successful (d : Deletion) : Deletion :=
  mkDeletion (attempted d) (successful d + 1) (failed d) (errors d).

Definition add_failed (error_msg : string) (d : Deletion) : Deletion :=
  mkDeletion (attempted d) (successful d) (failed d + 1)
             (errors d ++ [error_msg]).

Definition delete_unused_images (unused_images : Dict.t (list string))
    (dry_run : bool) : M St (Dict.t Deletion) :=
  for_each (Dict.items unused_images)
    (λ '(repository_name, tag_names) deletion_results,
       let deletion_results :=
         Dict.set repository_name
           (mkDeletion (length tag_names) 0 0 []) deletion_results in
       log (info [dry_run_prefix dry_run; Txt "Processing repository: ";
                  Val repository_name]) ;;
       for_each tag_names
         (λ tag_name deletion_results,
            let full := repository_name +:+ ":" +:+ tag_name in
            log (info [dry_run_prefix dry_run; Txt "Deleting image: "; Val full]) ;;
            r <- (if dry_run then
                    log (info [Txt "[DRY RUN] Would delete image: "; Val full]) ;;
                    ret (Ok tt)
                  else
                    r <- sdk (DeleteTag repository_name tag_name)
                             (delete_tag repository_name tag_name) ;;
                    match r with
                    | Ok _ =>
                        log (info [Txt "Successfully deleted image: "; Val full]) ;;
                        ret (Ok tt)
                    | Raise e => ret (Raise e)
                    end) ;;
            match r with
            | Ok _ =>
                ret (Dict.modify add_successful repository_name deletion_results)
            | Raise e =>
                let error_msg :=
                  "Failed to delete " +:+ repository_name +:+ ":" +:+ tag_name
                  +:+ ": " +:+ e in
                log (error [Val error_msg]) ;;
                ret (Dict.modify (add_failed error_msg) repository_name
                       deletion_results)
            end)
         deletion_results)
    Dict.empty.

(** [not manifest.tags]: no list of tags, or an empty one. *)
Definition untagged (manifest : ManifestProperties) : bool :=
  match tags manifest with
  | None | Some [] => true
  | Some (_ :: _) => false
  end.

(** One turn of the loop of [cleanup_unused_manifests] over the
    repositories: the content of one repository is enumerated and its
    untagged items are deleted, or in a dry run only reported. *)
Definition cleanup_repository (repository_name : string) (dry_run : bool)
  : M St unit :=
  log (info [dry_run_prefix dry_run;
             Txt "Checking for untagged manifests in "; Val repository_name]) ;;
  manifests <- sdk (ListManifestProperties repository_name)
                   (list_manifest_properties repository_name) ;;
  for_each (yielded manifests)
    (λ manifest (_ : unit),
       if untagged manifest then
         log (info [dry_run_prefix dry_run; Txt "Found untagged manifest: ";
                    Val (digest manifest)]) ;;
         if dry_run then
           log (info [Txt "[DRY RUN] Would delete untagged manifest: ";
                      Val (digest manifest)])
         else
           r <- sdk (DeleteManifest repository_name (digest manifest))
                    (delete_manifest repository_name (digest manifest)) ;;
           match r with
           | Ok _ =>
               log (info [Txt "Successfully deleted untagged manifest: ";
                          Val (digest manifest)])
           | Raise e =>
               log (error [Txt "Failed to delete manifest ";
                           Val (digest manifest); Txt ": "; Val e])
           end
       else ret tt)
    tt ;;
  match broken manifests with
  | Some e =>
      log (error [Txt "Failed to cleanup untagged manifests in ";
                  Val repository_name; Txt ": "; Val e])
  | None => ret tt
  end.

Definition cleanup_unused_manifests (repositories : gset string)
    (dry_run : bool) : M St unit :=
  log (info [dry_run_prefix dry_run; Txt "Starting cleanup of untagged manifests..."]) ;;
  for_each (elements repositories)
    (λ repository_name (_ : unit), cleanup_repository repository_name dry_run)
    tt.

End Reaper.

Definition rule (c : string) : LogRecord := info [Val (PyStr.repeat c 70)].

(** [sum(result[field] for result in deletion_results.values())] *)
Definition total (field : Deletion → nat) (deletion_results : Dict.t Deletion)
  : nat :=
  sum_list (field <$> Dict.values deletion_results).

(** [print_summary] only writes to the log: these are the records it
    writes, in order. *)
Definition print_summary (self : Reaper) (deletion_results : Dict.t Deletion)
    (protected_images repositories_cleaned : gset string) : list LogRecord :=
  let total_attempted := total attempted deletion_results in
  let total_successful := total successful deletion_results in
  let total_failed := total failed deletion_results in
  [ rule "=";
    info [Txt "AZURE CONTAINER REGISTRY CLEANUP SUMMARY"];
    rule "=";
    info [Txt "Registry: "; Val (registry_name self); Txt ".azurecr.io"];
    info [Txt "Resource Group: "; Val (resource_group_name self)];
    info [Txt "Subscription: "; Val (subscription_id self)];
    rule "-";
    info [Txt "Repositories analyzed: "; Num (size repositories_cleaned)];
    info [Txt "Protected images: "; Num (size protected_images)];
    info [Txt "Total images processed for deletion: "; Num total_attempted];
    info [Txt "Successfully deleted: "; Num total_successful];
    info [Txt "Failed to delete: "; Num total_failed];
    rule "-" ]
  (* protected images *)
  ++ (if decide (protected_images = ∅) then []
      else
        [info [Txt "Protected Images (currently in use by web apps):"]]
        ++ ((λ image, info [Txt "  ✓ "; Val image])
              <$> sorted (elements protected_images))
        ++ [rule "-"])
  (* detailed results per repository *)
  ++ concat
       ((λ '(repository_name, result),
           [ info [Txt "Repository: "; Val repository_name];
             info [Txt "  Total tags processed: "; Num (attempted result)];
             info [Txt "  Successfully deleted: "; Num (successful result)];
             info [Txt "  Failed to delete: "; Num (failed result)] ]
           ++ match errors result with
              | [] => []
              | _ :: _ =>
                  info [Txt "  Errors encountered:"]
                  :: ((λ e, info [Txt "    ✗ "; Val e]) <$> errors result)
              end
           ++ [rule "-"])
          <$> Dict.items deletion_results)
  (* repositories that were analyzed but had no unused images *)
  ++ (let all_repos_with_results : gset string :=
        list_to_set (Dict.keys deletion_results) in
      let repos_with_no_unused := repositories_cleaned ∖ all_repos_with_results in
      if decide (repos_with_no_unused = ∅) then []
      else
        [info [Txt "Repositories with no unused images:"]]
        ++ ((λ repo, info [Txt "  ✓ "; Val repo; Txt " (all images are in use)"])
              <$> sorted (elements repos_with_no_unused))
        ++ [rule "-"])
  ++ [ info [Txt "Cleanup completed. Space potentially freed by removing ";
             Num total_successful; Txt " unused images."];
       rule "=" ].

(** ** [main] *)

(** The namespace returned by [parser.parse_args()].  The four string
    options are required or have a default, so they are always present;
    [--dry-run] is parsed and never read. *)
Record Args : Type := mkArgs {
  args_subscription_id : string;
  args_resource_group : string;
  args_registry_name : string;
  args_config_path : string;
  args_execute : bool;
  args_cleanup_manifests : bool
}.

Section main.

Context {St : Type} {clients : Provider St}.
Variable str_of_json : json → string.

(** The [except Exception] clause of [main]. *)
Definition main_failed (e : Exn) : M St nat :=
  log (error [Txt "Failed to execute reaper: "; Exc e]) ;;
  log (error [Txt "Traceback: "; Traceback e]) ;;
  ret 1.

(** [main], returning the exit status of the process: 2 from
    [parser.error], what [sys.exit] is given, 0 when [main] returns.
    [files] is the file system as [load_configs] sees it. *)
Definition main (args : Args) (environ : Environ)
    (files : string → ConfigFile) : M St nat :=
  let dry_run := negb (args_execute args) in
  if decide (args_subscription_id args = "" ∨ args_resource_group args = ""
             ∨ args_registry_name args = "" ∨ args_config_path args = "")
  then ret 2
  else
    match Reaper_init environ (args_subscription_id args)
            (args_resource_group args) (args_registry_name args) with
    | Raise e => main_failed e
    | Ok reaper =>
        loaded <- logged (load_configs str_of_json (args_config_path args)
                            (files (args_config_path args))) ;;
        match loaded with
        | Raise e => main_failed e
        | Ok [] =>
            log (warning [Txt "No web apps specified in configuration file. Nothing to analyze."]) ;;
            ret 0
        | Ok web_apps =>
            log (info [Val (PyStr.repeat "=" 50)]) ;;
            log (info [Txt "Azure Container Registry Reaper Started"]) ;;
            log (info [Val (PyStr.repeat "=" 50)]) ;;
            log (info [Txt "Registry: "; Val (args_registry_name args);
                       Txt ".azurecr.io"]) ;;
            log (info [Txt "Resource Group: "; Val (args_resource_group args)]) ;;
            log (info [Txt "Mode: ";
                       Val (if dry_run
                            then "DRY RUN (use --execute to actually delete)"
                            else "EXECUTE (will actually delete images)")]) ;;
            log (info [Txt "Web apps to analyze: "; Vals web_apps]) ;;
            log (info [Val (PyStr.repeat "=" 50)]) ;;
            found <- get_all_web_apps_data reaper web_apps ;;
            let protected_images := found.1 in
            let repositories_to_clean := found.2 in
            if decide (repositories_to_clean = ∅) then
              log (warning [Txt "No repositories discovered from web apps. Nothing to clean."]) ;;
              ret 0
            else
              unused_images <- identify_unused_images reaper
                                 repositories_to_clean protected_images ;;
              deletion_results <-
                match unused_images with
                | [] =>
                    log (info [Txt "No unused images found in any repository. Nothing to delete."]) ;;
                    ret Dict.empty
                | _ :: _ =>
                    let total_unused :=
                      sum_list (length <$> Dict.values unused_images) in
                    log (info [Txt "Found "; Num total_unused;
                               Txt " unused images across ";
                               Num (length unused_images);
                               Txt " repositories"]) ;;
                    deletion_results <- delete_unused_images unused_images dry_run ;;
                    (if args_cleanup_manifests args
                     then cleanup_unused_manifests repositories_to_clean dry_run
                     else ret tt) ;;
                    ret deletion_results
                end ;;
              logged (tt, print_summary reaper deletion_results
                            protected_images repositories_to_clean) ;;
              log (info [Txt "Container registry cleanup completed successfully."]) ;;
              ret 0
        end
    end.

End main.

(** * Vocabulary of the properties *)

(** ** The image pattern, piece by piece *)

(** [([^:]+):(.+)$], the part of the pattern after the optional host. *)
Definition core_pattern : regex :=
  Cat (Grp 1 (Plus (NotChr ":")))
 (Cat (Lit ":")
 (Cat (Grp 2 (Plus AnyChar))
      Eol)).

Definition core (s : string) (cs : groups) : option groups :=
  exec core_pattern s s cs (λ _ cs', Some cs').

(** What follows [.*] in the optional group, up to the end of the pattern. *)
Definition after_host : kont :=
  λ s cs,
    match strip_prefix ".azurecr.io/" s with
    | Some s' => core s' cs
    | None => None
    end.

(** What [extract_web_apps_images] returns, without what it logs. *)
Definition parse (registry_url : string) : option Image :=
  (extract_web_apps_images registry_url).1.

(** As the specification words the pattern: everything up to the final
    colon, and everything after it. *)
Fixpoint split_last_colon (s : string) : option (string * string) :=
  match s with
  | "" => None
  | String c s' =>
      match split_last_colon s' with
      | Some (r, t) => Some (String c r, t)
      | None => if Ascii.eqb c ":" then Some ("", s') else None
      end
  end.

(** ** What a computation does to the world *)

(** The world a run starts from when nothing has been called or logged. *)
Definition start {St} (st : St) : World St := mkWorld st [] [].

(** [m] never reaches the provider: it only logs. *)
Definition silent {St A} (m : M St A) : Prop :=
  ∀ w, cloud (m w).2 = cloud w ∧ calls (m w).2 = calls w.

(** [m] always returns [v]. *)
Definition returns {St A} (v : A) (m : M St A) : Prop :=
  ∀ w, (m w).1 = v.

(** [m] adds to the trace and to the log without reading them, and every
    SDK call it issues satisfies [P]. *)
Definition sends {St A} (P : Call → Prop) (m : M St A) : Prop :=
  ∀ w,
    let r := m (start (cloud w)) in
    m w = (r.1, mkWorld (cloud r.2) (calls w ++ calls r.2)
                  (output w ++ output r.2))
    ∧ Forall P (calls r.2).

(** The calls made before the cleanup of manifests can start. *)
Definition before_cleanup (c : Call) : Prop :=
  match c with
  | ListManifestProperties _ | DeleteManifest _ _ => False
  | _ => True
  end.

(** The repositories whose content was enumerated, in call order. *)
Definition manifest_listings (cs : list Call) : list string :=
  omap (λ c, match c with ListManifestProperties R => Some R | _ => None end) cs.

(** The content items whose deletion was requested, in call order. *)
Definition manifest_deletions (cs : list Call) : list (string * string) :=
  omap (λ c, match c with DeleteManifest R dg => Some (R, dg) | _ => None end) cs.

(** ** Identification *)

Section identification.
Context {St : Type} {clients : Provider St}.

(** What [get_acr_repository_tags] makes of the registry's answer. *)
Definition enumerated (st : St) (repository_name : string) : list string :=
  let listing := (list_tag_properties repository_name st).1 in
  match broken listing with
  | None => yielded listing
  | Some _ => []
  end.

(** The tags of a repository that no protected image names. *)
Definition unused_of (protected_images : gset string) (st : St)
    (repository_name : string) : list string :=
  filter (λ t, repository_name +:+ ":" +:+ t ∉ protected_images)
         (enumerated st repository_name).
End identification.

(** ** Deletion *)

(** [ok] more successes and the failures [errs] added to an entry. *)
Definition tally (ok : nat) (errs : list string) (d : Deletion) : Deletion :=
  mkDeletion (attempted d) (successful d + ok) (failed d + length errs)
             (errors d ++ errs).

(** The message recorded for a failed deletion. *)
Definition error_msg (repository_name tag_name e : string) : string :=
  "Failed to delete " +:+ repository_name +:+ ":" +:+ tag_name +:+ ": " +:+ e.

(** The messages a repository's tags leave behind when [outcome] tells how
    each deletion call ends. *)
Definition failures (outcome : string → string → Result string unit)
    (repository_name : string) (tag_names : list string) : list string :=
  omap (λ t, match outcome repository_name t with
             | Ok _ => None
             | Raise e => Some (error_msg repository_name t e)
             end) tag_names.

(** The entry of a repository whose failed deletions left [errs]. *)
Definition outcome_with (tag_names errs : list string) : Deletion :=
  mkDeletion (length tag_names) (length tag_names - length errs)
             (length errs) errs.

Definition expected (outcome : string → string → Result string unit)
    (repository_name : string) (tag_names : list string) : Deletion :=
  outcome_with tag_names (failures outcome repository_name tag_names).

(** [deletion_results] after the entries [vs] were stored, in order, under
    the keys of [its]. *)
Definition stored {A} (its : list (string * A)) (vs : list Deletion)
    (d : Dict.t Deletion) : Dict.t Deletion :=
  foldl (λ d p, Dict.set p.1.1 p.2 d) d (zip its vs).

(** ** Cleanup *)

(** The digests of the enumerated items that no tag points to. *)
Definition orphaned (listing : Listing ManifestProperties) : list string :=
  digest <$> filter (λ m, untagged m = true) (yielded listing).

(** The digest a log record reports as an untagged manifest. *)
Definition found_untagged (r : LogRecord) : option string :=
  match message r with
  | [_; Txt t; Val dg] =>
      if String.eqb t "Found untagged manifest: " then Some dg else None
  | _ => None
  end.

(** ** Reading the summary back *)

(** A line of the list of protected images. *)
Definition listed_protected (r : LogRecord) : option string :=
  match message r with
  | [Txt t; Val image] => if String.eqb t "  ✓ " then Some image else None
  | _ => None
  end.

(** A line of the list of repositories with no unused images. *)
Definition listed_clean (r : LogRecord) : option string :=
  match message r with
  | [Txt t; Val repo; Txt t'] =>
      if String.eqb t "  ✓ " && String.eqb t' " (all images are in use)"
      then Some repo else None
  | _ => None
  end.

(** A count reported as [label] followed by a number. *)
Definition reported (label : string) (r : LogRecord) : option nat :=
  match message r with
  | [Txt t; Num n] => if String.eqb t label then Some n else None
  | _ => None
  end.

(** ** Setup failures *)

Definition identity_missing (args : Args) : Prop :=
  args_subscription_id args = "" ∨ args_resource_group args = ""
  ∨ args_registry_name args = "" ∨ args_config_path args = "".

Definition credentials_missing (environ : Environ) : bool :=
  negb (bool_decide (is_Some (environ !! "AZURE_TENANT_ID"))
        && bool_decide (is_Some (environ !! "AZURE_CLIENT_ID"))
        && bool_decide (is_Some (environ !! "AZURE_CLIENT_SECRET"))).

(** The configuration files [load_configs] raises on. *)
Definition config_rejected (file : ConfigFile) : bool :=
  match file with
  | None => true                              (* no file *)
  | Some (Unreadable _) => true               (* cannot be read *)
  | Some (Malformed _ _ _) => true            (* not valid JSON *)
  | Some (Parsed (JObject d)) =>
      match Dict.get d "webApps" with
      | None => false                         (* no "webApps": no targets *)
      | Some (JArray _) => false
      | Some _ => true                        (* "webApps" is not a list *)
      end
  | Some (Parsed _) => true                   (* not a JSON object *)
  end.

(** As the specification words it: the file holds an object with a
    protected-target-list field containing a sequence of strings, and a
    missing or malformed shape is a fatal setup error. *)
Definition spec_config_fatal (file : ConfigFile) : bool :=
  match file with
  | Some (Parsed (JObject d)) =>
      match Dict.get d "webApps" with
      | Some (JArray l) =>
          negb (forallb (λ v, if v is JString _ then true else false) l)
      | _ => true
      end
  | _ => true
  end.

(** ** Kinds of calls *)

(** The calls that remove nothing. *)
Definition keeps (c : Call) : Prop :=
  match c with
  | DeleteTag _ _ | DeleteManifest _ _ => False
  | _ => True
  end.

(** The calls of the four stages of a run: reading web apps, listing tags,
    deleting tags, and looking after manifests. *)
Definition web_call (c : Call) : Prop :=
  match c with
  | GetWebApp _ _ | ListSlots _ _ | GetConfigurationSlot _ _ _ => True
  | _ => False
  end.

Definition tag_listing (c : Call) : Prop :=
  match c with ListTagProperties _ => True | _ => False end.

Definition tag_deletion (c : Call) : Prop :=
  match c with DeleteTag _ _ => True | _ => False end.

Definition manifest_call (c : Call) : Prop :=
  match c with
  | ListManifestProperties _ | DeleteManifest _ _ => True
  | _ => False
  end.

(** The repository of the registry that a call is about. *)
Definition repo_of (c : Call) : option string :=
  match c with
  | ListTagProperties R | DeleteTag R _
  | ListManifestProperties R | DeleteManifest R _ => Some R
  | _ => None
  end.

(** A call about a repository of [repositories]. *)
Definition within (repositories : gset string) (c : Call) : Prop :=
  match repo_of c with
  | Some R => R ∈ repositories
  | None => False
  end.

(** The tags whose deletion was requested, in call order. *)
Definition tag_deletions (cs : list Call) : list (string * string) :=
  omap (λ c, match c with DeleteTag R t => Some (R, t) | _ => None end) cs.

(** The deletions an input map of [delete_unused_images] asks for. *)
Definition to_delete (unused_images : Dict.t (list string))
  : list (string * string) :=
  concat ((λ it : string * list string, pair it.1 <$> it.2) <$> unused_images).

(** ** Running a computation from a given cloud *)

(** Started in any world whose cloud is [st], [m] returns [a], issues the
    calls [cs] and leaves the cloud [st']. *)
Definition runs {St A} (m : M St A) (st : St) (a : A) (cs : list Call)
    (st' : St) : Prop :=
  ∀ w, cloud w = st →
    (m w).1 = a ∧ calls (m w).2 = calls w ++ cs ∧ cloud (m w).2 = st'.

(** [m] always returns a value that satisfies [I]. *)
Definition yields {St A} (I : A → Prop) (m : M St A) : Prop :=
  ∀ w, I (m w).1.

(** ** Collection *)

(** Every collected image is a tag of a collected repository, and every
    collected repository has a collected image. *)
Definition consistent (c : Collected) : Prop :=
  (∀ image, image ∈ c.1 →
     ∃ R t, image = R +:+ ":" +:+ t ∧ R ∈ c.2
            ∧ R ≠ "" ∧ has_char ":" R = false
            ∧ t ≠ "" ∧ has_char newline t = false)
  ∧ (∀ R, R ∈ c.2 → ∃ t, R +:+ ":" +:+ t ∈ c.1).

(** The image a descriptor names: the descriptor starts with the marker,
    and what is left of it once the marker is taken out parses. *)
Definition named (descriptor : string) : option Image :=
  if decide (descriptor = "") then None
  else if startswith descriptor "DOCKER|"
       then parse (replace descriptor "DOCKER|" "")
       else None.

(** The images and the repositories that a list of descriptors names. *)
Definition gathered (descriptors : list string) : Collected :=
  (list_to_set (full_image_name <$> omap named descriptors),
   list_to_set (repository <$> omap named descriptors)).

(** The descriptors that are set among the Linux and the Windows one. *)
Definition descriptors (linux windows : option string) : list string :=
  omap id [linux; windows].

Section collection.
Context {St : Type} {clients : Provider St}.

(** The descriptors of the slots of a web app that can be read: those of
    the production slot, then those of every deployment slot listed. *)
Definition readable_descriptors (rg web_app_name : string) (st : St)
  : list string :=
  match (web_apps_get rg web_app_name st).1 with
  | Ok site =>
      descriptors (site_config site ≫= linux_fx_version)
                  (site_config site ≫= windows_fx_version)
  | Raise _ => []
  end
  ++ concat
       ((λ slot,
           match (web_apps_get_configuration_slot rg web_app_name
                    (last_segment "/" slot) st).1 with
           | Ok cfg => descriptors (linux_fx_version cfg) (windows_fx_version cfg)
           | Raise _ => []
           end)
          <$> yielded (web_apps_list_slots rg web_app_name st).1).

(** The calls [get_webapps_slots_images] issues for a web app. *)
Definition slot_reads_of (rg web_app_name : string) (st : St) : list Call :=
  GetWebApp rg web_app_name :: ListSlots rg web_app_name
  :: ((λ slot, GetConfigurationSlot rg web_app_name (last_segment "/" slot))
        <$> yielded (web_apps_list_slots rg web_app_name st).1).
End collection.

(** An entry of the map of unused images: a repository with at least one
    tag, none of which names a protected image. *)
Definition spared (protected_images : gset string)
    (it : string * list string) : Prop :=
  it.2 ≠ [] ∧ ∀ t, t ∈ it.2 → it.1 +:+ ":" +:+ t ∉ protected_images.

(** ** Reading the sections of the summary *)

(** The heading of the section of one repository. *)
Definition listed_repository (r : LogRecord) : option string :=
  match message r with
  | [Txt t; Val repo] => if String.eqb t "Repository: " then Some repo else None
  | _ => None
  end.

(** A line of the list of errors of one repository. *)
Definition listed_error (r : LogRecord) : option string :=
  match message r with
  | [Txt t; Val e] => if String.eqb t "    ✗ " then Some e else None
  | _ => None
  end.

(** ** A provider to run the program against

    A registry and a set of web apps held in memory, in the manner of a
    test double: deletions take effect, except for the tags listed in
    [refused], whose deletion the registry turns down. *)

Module Fake.

Record Cloud : Type := mkCloud {
  (* web app ↦ site_config of the production slot, slot ↦ configuration *)
  sites : Dict.t (option SiteConfig * Dict.t SiteConfig);
  (* repository ↦ tags *)
  registry : Dict.t (list string);
  (* repository ↦ manifests *)
  content : Dict.t (list ManifestProperties)
}.

Definition outcome (refused : list (string * string))
    (repository_name tag_name : string) : Result string unit :=
  if decide ((repository_name, tag_name) ∈ refused)
  then Raise "denied" else Ok tt.

Definition provider (refused : list (string * string)) : Provider Cloud := {|
  web_apps_get _ web_app st :=
    (match Dict.get (sites st) web_app with
     | Some (cfg, _) => Ok (mkSite cfg)
     | None => Raise "ResourceNotFound"
     end, st);
  web_apps_list_slots _ web_app st :=
    (match Dict.get (sites st) web_app with
     | Some (_, slots) =>
         mkListing ((λ s, web_app +:+ "/" +:+ s) <$> Dict.keys slots) None
     | None => mkListing [] (Some "ResourceNotFound")
     end, st);
  web_apps_get_configuration_slot _ web_app slot st :=
    (match Dict.get (sites st) web_app ≫= (λ site, Dict.get site.2 slot) with
     | Some cfg => Ok cfg
     | None => Raise "ResourceNotFound"
     end, st);
  list_tag_properties repo st :=
    (match Dict.get (registry st) repo with
     | Some ts => mkListing ts None
     | None => mkListing [] (Some "RepositoryNotFound")
     end, st);
  delete_tag repo t st :=
    (outcome refused repo t,
     if decide ((repo, t) ∈ refused) then st
     else mkCloud (sites st)
            (Dict.modify (filter (λ t', t' ≠ t)) repo (registry st))
            (content st));
  list_manifest_properties repo st :=
    (match Dict.get (content st) repo with
     | Some ms => mkListing ms None
     | None => mkListing [] (Some "RepositoryNotFound")
     end, st);
  delete_manifest repo dg st :=
    (Ok tt,
     mkCloud (sites st) (registry st)
       (Dict.modify (filter (λ m, digest m ≠ dg)) repo (content st)))
|}.

(** The scenario of the specification: one web app whose production slot
    runs [myrepo:v1] and whose staging slot runs [myrepo:v2], a registry
    holding three tags of [myrepo], and one manifest left without a tag. *)
Definition cloud0 : Cloud := {|
  sites := [("app-a",
             (Some (mkSiteConfig (Some "DOCKER|myrepo:v1") None),
              [("staging", mkSiteConfig (Some "DOCKER|myrepo:v2") None)]))];
  registry := [("myrepo", ["v1"; "v2"; "v3"])];
  content := [("myrepo", [mkManifest "sha256:aaa" (Some ["v1"]);
                          mkManifest "sha256:bbb" None])]
|}.

(** The same, when the registry holds nothing but the two images in use. *)
Definition cloud1 : Cloud := {|
  sites := sites cloud0;
  registry := [("myrepo", ["v1"; "v2"])];
  content := content cloud0
|}.

Definition self : Reaper := mkReaper "sub-1" "rg-1" "contoso".

Definition args (execute cleanup : bool) : Args :=
  mkArgs "sub-1" "rg-1" "contoso" "reaper/webapp.json" execute cleanup.

Definition environ : Environ :=
  {[ "AZURE_TENANT_ID" := "t"; "AZURE_CLIENT_ID" := "c";
     "AZURE_CLIENT_SECRET" := "s" ]}.

Definition files (config : json) : string → ConfigFile :=
  λ path, if decide (path = "reaper/webapp.json")
          then Some (Parsed config) else None.

Definition config0 : json := JObject [("webApps", JArray [JString "app-a"])].

Definition str_of_json : json → string := λ _, "".

End Fake.


(** * Properties *)

(** ** Strings *)

Lemma str_app_cons c s t : String c s +:+ t = String c (s +:+ t).
Proof. reflexivity. Qed.
Lemma str_app_nil_l s : "" +:+ s = s.
Proof. reflexivity. Qed.
Lemma str_app_nil_r s : s +:+ "" = s.
Proof. induction s as [|c s IH]; [done|]. by rewrite str_app_cons, IH. Qed.
Lemma str_app_assoc s t u : (s +:+ t) +:+ u = s +:+ (t +:+ u).
Proof. induction s as [|c s IH]; [done|]. by rewrite !str_app_cons, IH. Qed.
Lemma str_length_app s t : String.length (s +:+ t) = String.length s + String.length t.
Proof. induction s as [|c s IH]; [done|]. rewrite str_app_cons. simpl. by rewrite IH. Qed.


Lemma strip_prefix_Some p s r : strip_prefix p s = Some r ↔ s = p +:+ r.
Proof.
  revert s. induction p as [|a p IH]; intros s; simpl.
  - rewrite str_app_nil_l. split; congruence.
  - destruct s as [|b s]; [split; [done|by rewrite str_app_cons]|].
    rewrite str_app_cons. destruct (Ascii.eqb a b) eqn:E.
    + apply Ascii.eqb_eq in E as ->. rewrite IH. split; congruence.
    + apply Ascii.eqb_neq in E. split; [done|congruence].
Qed.

Lemma strip_prefix_app p r : strip_prefix p (p +:+ r) = Some r.
Proof. by apply strip_prefix_Some. Qed.

Lemma consumed_app p s : consumed (p +:+ s) s = p.
Proof.
  unfold consumed. rewrite str_length_app.
  replace (String.length p + String.length s - String.length s) with (String.length p) by lia.
  induction p as [|c p IH]; simpl.
  - by destruct s.
  - by rewrite IH.
Qed.


(** *** Greedy repetition *)

Lemma star_sound k s cs ret m :
  star k s cs ret = Some m →
  ∃ p s', s = p +:+ s' ∧ str_forall (cls_match k) p = true ∧ ret s' cs = Some m.
Proof.
  induction s as [|c s IH]; simpl; intros H.
  - by exists "", "".
  - destruct (cls_match k c) eqn:Hc; [|by exists "", (String c s)].
    destruct (star k s cs ret) as [m'|] eqn:Hs.
    + destruct (IH H) as (p & s' & -> & Hp & Hret).
      exists (String c p), s'. simpl. by rewrite Hc, Hp.
    + by exists "", (String c s).
Qed.

Lemma star_None k s cs ret :
  (∀ p s', s = p +:+ s' → ret s' cs = None) → star k s cs ret = None.
Proof.
  induction s as [|c s IH]; simpl; intros H.
  - by apply (H "" "").
  - rewrite IH; [|intros p s' ->; by apply (H (String c p) s')].
    destruct (cls_match k c); by apply (H "" (String c s)).
Qed.

Lemma star_prefix k p s cs ret m :
  str_forall (cls_match k) p = true →
  star k s cs ret = Some m → star k (p +:+ s) cs ret = Some m.
Proof.
  induction p as [|c p IH]; [done|]. simpl. intros [Hc Hp]%andb_prop Hs.
  by rewrite Hc, IH.
Qed.

Lemma star_stops k s cs ret : stops k s = true → star k s cs ret = ret s cs.
Proof.
  destruct s as [|c s]; [done|]. simpl. by intros ->%negb_true_iff.
Qed.

Lemma star_longest k p s cs ret m :
  str_forall (cls_match k) p = true → stops k s = true →
  ret s cs = Some m → star k (p +:+ s) cs ret = Some m.
Proof.
  intros Hp Hs Hret. apply star_prefix; [done|]. by rewrite star_stops.
Qed.

Lemma plus_sound k s cs ret m :
  plus k s cs ret = Some m →
  ∃ p s', s = p +:+ s' ∧ p ≠ "" ∧ str_forall (cls_match k) p = true
          ∧ ret s' cs = Some m.
Proof.
  destruct s as [|c s]; [done|]. simpl.
  destruct (cls_match k c) eqn:Hc; [|done].
  intros (p & s' & -> & Hp & Hret)%star_sound.
  exists (String c p), s'. simpl. by rewrite Hc, Hp.
Qed.

Lemma plus_longest k p s cs ret m :
  p ≠ "" → str_forall (cls_match k) p = true → stops k s = true →
  ret s cs = Some m → plus k (p +:+ s) cs ret = Some m.
Proof.
  destruct p as [|c p]; [done|]. simpl. intros _ [Hc Hp]%andb_prop Hs Hret.
  rewrite Hc. by apply star_longest.
Qed.

(** ** The pattern after the optional host *)

Lemma re_match_image_pattern s :
  re_match image_pattern s =
    match star AnyChar s ∅ after_host with
    | Some m => Some m
    | None => core s ∅
    end.
Proof.
  unfold re_match, image_pattern. cbn [exec]. by rewrite Nat.eqb_refl.
Qed.

Lemma not_colon_forall s :
  str_forall (cls_match (NotChr ":")) s = negb (has_char ":" s).
Proof.
  induction s as [|c s IH]; [done|]. simpl. rewrite IH.
  by destruct (Ascii.eqb c ":").
Qed.

Lemma not_newline_forall s :
  str_forall (cls_match AnyChar) s = negb (has_char newline s).
Proof.
  induction s as [|c s IH]; [done|]. simpl. rewrite IH.
  by destruct (Ascii.eqb c newline).
Qed.

Lemma at_eol_true s : at_eol s = true ↔ s = "" ∨ s = String newline "".
Proof.
  destruct s as [|c [|c' s]]; simpl.
  - by split; [left|].
  - rewrite Ascii.eqb_eq. split; [intros ->; by right|intros [?|?]; congruence].
  - split; [done|intros [?|?]; congruence].
Qed.

Lemma core_sound s cs m :
  core s cs = Some m →
  ∃ repo tag_ nl,
    s = repo +:+ ":" +:+ tag_ +:+ nl
    ∧ repo ≠ "" ∧ has_char ":" repo = false
    ∧ tag_ ≠ "" ∧ has_char newline tag_ = false
    ∧ (nl = "" ∨ nl = String newline "")
    ∧ m = <[2 := tag_]> (<[1 := repo]> cs).
Proof.
  unfold core, core_pattern. cbn [exec].
  intros (repo & s1 & -> & Hne & Hrepo & H)%plus_sound.
  destruct (strip_prefix ":" s1) as [s2|] eqn:Hs1; [|done].
  apply strip_prefix_Some in Hs1 as ->.
  apply plus_sound in H as (tag_ & nl & -> & Hne' & Htag & H).
  destruct (at_eol nl) eqn:Hnl; [|done]. apply at_eol_true in Hnl.
  rewrite !consumed_app in H.
  rewrite not_colon_forall, negb_true_iff in Hrepo.
  rewrite not_newline_forall, negb_true_iff in Htag.
  injection H as <-. by exists repo, tag_, nl.
Qed.

Lemma core_complete repo tag_ nl cs :
  repo ≠ "" → has_char ":" repo = false →
  tag_ ≠ "" → has_char newline tag_ = false →
  nl = "" ∨ nl = String newline "" →
  core (repo +:+ ":" +:+ tag_ +:+ nl) cs = Some (<[2 := tag_]> (<[1 := repo]> cs)).
Proof.
  intros Hne Hrepo Hne' Htag Hnl. unfold core, core_pattern. cbn [exec].
  apply plus_longest; [done|by rewrite not_colon_forall, Hrepo|done|].
  rewrite strip_prefix_app.
  apply plus_longest; [done|by rewrite not_newline_forall, Htag|by destruct Hnl as [-> | ->]|].
  rewrite !consumed_app.
  by destruct Hnl as [-> | ->].
Qed.

(** ** The whole pattern and [extract_web_apps_images] *)

Lemma has_char_app c s t : has_char c (s +:+ t) = has_char c s || has_char c t.
Proof.
  induction s as [|x s IH]; [done|]. simpl. rewrite IH.
  by destruct (Ascii.eqb x c).
Qed.

Lemma startswith_app s p r : s = p +:+ r → startswith s p = true.
Proof. intros ->. unfold startswith. by rewrite strip_prefix_app. Qed.

Lemma str_in_app sub p r : str_in sub (p +:+ sub +:+ r) = true.
Proof.
  induction p as [|c p IH].
  - rewrite str_app_nil_l. destruct (sub +:+ r) eqn:E; simpl;
      by rewrite (startswith_app _ sub r).
  - simpl. rewrite IH. apply orb_true_r.
Qed.

Lemma re_match_sound s m :
  re_match image_pattern s = Some m →
  ∃ host repo tag_ nl,
    s = host +:+ repo +:+ ":" +:+ tag_ +:+ nl
    ∧ (host = "" ∨ ∃ h, host = h +:+ ".azurecr.io/")
    ∧ repo ≠ "" ∧ has_char ":" repo = false
    ∧ tag_ ≠ "" ∧ has_char newline tag_ = false
    ∧ (nl = "" ∨ nl = String newline "")
    ∧ m = <[2 := tag_]> (<[1 := repo]> ∅).
Proof.
  rewrite re_match_image_pattern.
  destruct (star AnyChar s ∅ after_host) as [m'|] eqn:Hhost.
  - intros [= ->]. apply star_sound in Hhost as (p & s' & -> & _ & H).
    unfold after_host in H.
    destruct (strip_prefix ".azurecr.io/" s') as [s''|] eqn:Hs'; [|done].
    apply strip_prefix_Some in Hs' as ->.
    apply core_sound in H as (repo & tag_ & nl & -> & H).
    exists (p +:+ ".azurecr.io/"), repo, tag_, nl.
    split; [by rewrite !str_app_assoc|]. split; [right; by exists p|done].
  - intros (repo & tag_ & nl & -> & H)%core_sound.
    exists "", repo, tag_, nl. split; [done|]. split; [by left|done].
Qed.

(** Both groups take part in every match of the pattern. *)
Lemma image_pattern_groups s m :
  re_match image_pattern s = Some m → is_Some (group m 1) ∧ is_Some (group m 2).
Proof.
  intros (host & repo & tag_ & nl & _ & _ & _ & _ & _ & _ & _ & ->)%re_match_sound.
  unfold group. by rewrite lookup_insert_ne, !lookup_insert_eq.
Qed.

Lemma parse_Some url img :
  parse url = Some img ↔
  url ≠ "" ∧ ∃ m repo tag_,
    re_match image_pattern url = Some m
    ∧ group m 1 = Some repo ∧ group m 2 = Some tag_
    ∧ img = mkImage repo tag_ (repo +:+ ":" +:+ tag_).
Proof.
  unfold parse, extract_web_apps_images.
  destruct (decide (url = "")) as [->|Hne]; simpl.
  { split; [done|by intros [? _]]. }
  destruct (re_match image_pattern url) as [m|] eqn:Hm; simpl.
  2: { split; [done|]. by intros [_ (? & ? & ? & ? & _)]. }
  destruct (image_pattern_groups _ _ Hm) as [[repo Hr] [tag_ Ht]].
  rewrite Hr, Ht. simpl. split.
  - intros [= <-]. split; [done|]. by exists m, repo, tag_.
  - intros [_ (m' & repo' & tag' & [= <-] & ? & ? & ->)]. congruence.
Qed.

Lemma parse_matched url repo tag_ :
  url ≠ "" →
  re_match image_pattern url = Some (<[2 := tag_]> (<[1 := repo]> ∅)) →
  parse url = Some (mkImage repo tag_ (repo +:+ ":" +:+ tag_)).
Proof.
  intros Hne Hm. apply parse_Some. split; [done|].
  eexists _, repo, tag_. split; [done|]. unfold group.
  by rewrite lookup_insert_ne, !lookup_insert_eq.
Qed.

Lemma parse_sound url img :
  parse url = Some img →
  ∃ host nl,
    url = host +:+ repository img +:+ ":" +:+ tag img +:+ nl
    ∧ (host = "" ∨ ∃ h, host = h +:+ ".azurecr.io/")
    ∧ (nl = "" ∨ nl = String newline "")
    ∧ repository img ≠ "" ∧ has_char ":" (repository img) = false
    ∧ tag img ≠ "" ∧ has_char newline (tag img) = false
    ∧ full_image_name img = repository img +:+ ":" +:+ tag img.
Proof.
  intros (_ & m & repo & tag_ & Hm & Hr & Ht & ->)%parse_Some.
  apply re_match_sound in Hm
    as (host & repo' & tag' & nl & -> & Hhost & ? & ? & ? & ? & Hnl & ->).
  unfold group in Hr, Ht.
  rewrite lookup_insert_ne, lookup_insert_eq in Hr by done.
  rewrite lookup_insert_eq in Ht. simplify_eq. simpl.
  by exists host, nl.
Qed.

(** A host prefix is stripped without changing what is parsed. *)
Lemma re_match_host_prefix h s m :
  has_char newline h = false →
  re_match image_pattern s = Some m →
  re_match image_pattern (h +:+ ".azurecr.io/" +:+ s) = Some m.
Proof.
  intros Hh. rewrite !re_match_image_pattern. intros Hs.
  assert (star AnyChar (".azurecr.io/" +:+ s) ∅ after_host = Some m) as Hlit.
  { destruct (star AnyChar s ∅ after_host) as [m'|] eqn:Hdeep.
    - simplify_eq. by apply (star_prefix AnyChar ".azurecr.io/").
    - rewrite !str_app_cons, str_app_nil_l. cbn -[after_host core].
      rewrite Hdeep. unfold after_host. cbn -[core]. exact Hs. }
  rewrite (star_prefix AnyChar h _ _ _ m); [done| |done].
  by rewrite not_newline_forall, Hh.
Qed.

(** ** Parsing image locators *)

Lemma parse_no_colon url : has_char ":" url = false → parse url = None.
Proof.
  intros Hno. destruct (parse url) as [img|] eqn:Hp; [|done].
  apply parse_sound in Hp as (host & nl & Hurl & _).
  rewrite Hurl, !has_char_app in Hno.
  change (has_char ":" ":") with true in Hno.
  by rewrite !orb_true_r, ?orb_true_l in Hno.
Qed.

Lemma parse_host_prefix h s img :
  has_char newline h = false →
  parse s = Some img → parse (h +:+ ".azurecr.io/" +:+ s) = Some img.
Proof.
  intros Hh (Hne & m & repo & tag_ & Hm & Hr & Ht & ->)%parse_Some.
  apply parse_Some. split.
  { destruct h; [|done]. by rewrite str_app_nil_l. }
  exists m, repo, tag_. split; [|done]. by apply re_match_host_prefix.
Qed.

Lemma parse_plain repo tag_ :
  repo ≠ "" → has_char ":" repo = false →
  tag_ ≠ "" → has_char newline tag_ = false →
  str_in ".azurecr.io/" (repo +:+ ":" +:+ tag_) = false →
  parse (repo +:+ ":" +:+ tag_) = Some (mkImage repo tag_ (repo +:+ ":" +:+ tag_)).
Proof.
  intros Hne Hrepo Hne' Htag Hin. apply parse_matched.
  { by destruct repo. }
  rewrite re_match_image_pattern, star_None.
  - rewrite <-(str_app_nil_r tag_) at 1. by apply core_complete; auto.
  - intros p s' Heq. unfold after_host.
    destruct (strip_prefix ".azurecr.io/" s') as [s''|] eqn:Hs'; [|done].
    apply strip_prefix_Some in Hs' as ->.
    by rewrite Heq, str_in_app in Hin.
Qed.

(** C2, amended.  The repository is everything up to the FIRST colon of the
    locator, once an optional prefix ending in [.azurecr.io/] is stripped:
    it is not empty and holds no colon, and the tag is everything after
    that colon (colons included) up to the end of the line.  The full name
    is rebuilt from the two.  A locator without a colon does not parse. *)
Theorem extract_splits_at_first_colon (registry_url : string) :
  (∀ img, (extract_web_apps_images registry_url).1 = Some img →
     ∃ host nl,
       registry_url = host +:+ repository img +:+ ":" +:+ tag img +:+ nl
       ∧ (host = "" ∨ ∃ h, host = h +:+ ".azurecr.io/")
       ∧ (nl = "" ∨ nl = String newline "")
       ∧ repository img ≠ "" ∧ has_char ":" (repository img) = false
       ∧ tag img ≠ "" ∧ has_char newline (tag img) = false
       ∧ full_image_name img = repository img +:+ ":" +:+ tag img)
  ∧ (has_char ":" registry_url = false →
     (extract_web_apps_images registry_url).1 = None).
Proof. split; [apply parse_sound|apply parse_no_colon]. Qed.

(** With two colons in the locator, the repository is not what precedes
    the last one. *)
Lemma split_at_last_colon_counterexample :
  split_last_colon "myrepo:v1:extra" = Some ("myrepo:v1", "extra")
  ∧ (extract_web_apps_images "myrepo:v1:extra").1
    = Some (mkImage "myrepo" "v1:extra" "myrepo:v1:extra")
  ∧ repository <$> (extract_web_apps_images "myrepo:v1:extra").1
    ≠ Some "myrepo:v1".
Proof. split_and!; [by vm_compute..|]. vm_compute. by intros [=]. Qed.

Lemma extract_splits_at_first_colon_witness :
  let url := "contoso.azurecr.io/myrepo:v1:extra" in
  let img := mkImage "myrepo" "v1:extra" "myrepo:v1:extra" in
  (extract_web_apps_images url).1 = Some img
  ∧ ∃ host nl,
      url = host +:+ repository img +:+ ":" +:+ tag img +:+ nl
      ∧ (host = "" ∨ ∃ h, host = h +:+ ".azurecr.io/")
      ∧ (nl = "" ∨ nl = String newline "")
      ∧ repository img ≠ "" ∧ has_char ":" (repository img) = false
      ∧ tag img ≠ "" ∧ has_char newline (tag img) = false
      ∧ full_image_name img = repository img +:+ ":" +:+ tag img.
Proof.
  intros url img. split; [by vm_compute|].
  apply (proj1 (extract_splits_at_first_colon url) img). by vm_compute.
Defined.

(** C9.  A locator [repo:tag] whose repository is not empty and holds no
    colon, whose tag is not empty and holds no newline, and which does not
    itself contain the registry suffix, parses to [repo], [tag] and the
    rebuilt name [repo:tag]; so does the same locator behind any host
    ending in [.azurecr.io]. *)
Theorem extract_host_insensitive (h repo tag_ : string) :
  repo ≠ "" → has_char ":" repo = false →
  tag_ ≠ "" → has_char newline tag_ = false →
  str_in ".azurecr.io/" (repo +:+ ":" +:+ tag_) = false →
  has_char newline h = false →
  let s := repo +:+ ":" +:+ tag_ in
  let host := h +:+ ".azurecr.io" in
  let img := mkImage repo tag_ (repo +:+ ":" +:+ tag_) in
  (extract_web_apps_images s).1 = Some img
  ∧ (extract_web_apps_images (host +:+ "/" +:+ s)).1 = Some img.
Proof.
  intros Hne Hrepo Hne' Htag Hin Hh s host img.
  assert (parse s = Some img) as Hs by by apply parse_plain.
  split; [done|]. subst host.
  rewrite str_app_assoc. change (".azurecr.io" +:+ "/" +:+ s) with (".azurecr.io/" +:+ s).
  by apply parse_host_prefix.
Qed.

Lemma extract_host_insensitive_witness :
  (extract_web_apps_images "myrepo:v1").1 = Some (mkImage "myrepo" "v1" "myrepo:v1")
  ∧ (extract_web_apps_images "contoso.azurecr.io/myrepo:v1").1
      = Some (mkImage "myrepo" "v1" "myrepo:v1").
Proof.
  apply (extract_host_insensitive "contoso" "myrepo" "v1"); by vm_compute.
Defined.

(** ** Stripping the descriptor marker *)

Lemma replace_from_skip old new p s :
  replace_from (String.length p) old new (p +:+ s) = replace_from 0 old new s.
Proof.
  induction p as [|c p IH]; simpl; [|done].
  rewrite str_app_nil_l. by destruct s.
Qed.

Lemma replace_from_length_le k old s :
  String.length (replace_from k old "" s) ≤ String.length s.
Proof.
  revert k. induction s as [|c s IH]; intros k; simpl; [done|].
  destruct k as [|k].
  - destruct (startswith (String c s) old).
    + rewrite str_app_nil_l. specialize (IH (String.length old - 1)). lia.
    + simpl. specialize (IH 0). lia.
  - specialize (IH k). lia.
Qed.

(** The marker and what Python does with it. *)
Lemma replace_marker_head s :
  replace ("DOCKER|" +:+ s) "DOCKER|" "" = replace s "DOCKER|" "".
Proof.
  unfold replace. rewrite !str_app_cons, str_app_nil_l. cbn -[replace_from].
  change (String "O" (String "C" (String "K" (String "E" (String "R" (String "|" s))))))
    with ("OCKER|" +:+ s).
  unfold replace_from at 1; fold replace_from.
  rewrite (startswith_app _ "DOCKER|" s) by done.
  rewrite str_app_nil_l. apply (replace_from_skip _ _ "OCKER|").
Qed.

Lemma marker_not_inside a b :
  a ≠ "" → has_char "|" a = false →
  startswith (a +:+ "DOCKER|" +:+ b) "DOCKER|" = false.
Proof.
  intros Hne Hno. unfold startswith.
  destruct (strip_prefix _ _) as [r|] eqn:Hr; [|done].
  apply strip_prefix_Some in Hr. exfalso.
  destruct a as [|c1 [|c2 [|c3 [|c4 [|c5 [|c6 [|c7 a]]]]]]];
    try done; rewrite ?str_app_cons, ?str_app_nil_l in Hr; simplify_eq.
Qed.

Lemma replace_marker_inside a b :
  has_char "|" a = false →
  replace (a +:+ "DOCKER|" +:+ b) "DOCKER|" "" = a +:+ replace b "DOCKER|" "".
Proof.
  intros Hno. induction a as [|c a IH].
  { by rewrite !str_app_nil_l, replace_marker_head. }
  assert (has_char "|" a = false) as Ha.
  { simpl in Hno. by destruct (Ascii.eqb c "|"). }
  specialize (IH Ha). unfold replace in *. rewrite !(str_app_cons c a).
  cbn [replace_from].
  assert (startswith (String c (a +:+ "DOCKER|" +:+ b)) "DOCKER|" = false) as ->.
  { by apply (marker_not_inside (String c a)). }
  by rewrite IH.
Qed.

(** C10.  A descriptor that starts with the marker and holds it again after
    a stretch [a] without [|] is recognised, and every occurrence of the
    marker is taken out of it, not only the leading one: the locator handed
    to the parser is [a] followed by what is left of the rest, which is not
    the descriptor without its prefix. *)
Theorem marker_replaced_everywhere (a b : string) (found : list Frag)
    (absent : list LogRecord) (acc : Collected) :
  has_char "|" a = false →
  let descriptor := "DOCKER|" +:+ a +:+ "DOCKER|" +:+ b in
  let image_url := a +:+ replace b "DOCKER|" "" in
  startswith descriptor "DOCKER|" = true
  ∧ replace descriptor "DOCKER|" "" = image_url
  ∧ image_url ≠ a +:+ "DOCKER|" +:+ b
  ∧ descriptor_block (Some descriptor) found absent acc
    = match extract_web_apps_images image_url with
      | (Some img, l) =>
          ((acc.1 ∪ {[full_image_name img]}, acc.2 ∪ {[repository img]}),
           l ++ [info (found ++ [Val (full_image_name img)])])
      | (None, l) => (acc, l)
      end.
Proof.
  intros Ha descriptor image_url.
  assert (replace descriptor "DOCKER|" "" = image_url) as Hrep.
  { unfold descriptor. by rewrite replace_marker_head, replace_marker_inside. }
  assert (startswith descriptor "DOCKER|" = true) as Hstart.
  { by apply (startswith_app _ _ (a +:+ "DOCKER|" +:+ b)). }
  split_and!; [done..| |].
  - intros Heq. apply (f_equal String.length) in Heq.
    unfold image_url in Heq. rewrite !str_length_app in Heq.
    pose proof (replace_from_length_le 0 "DOCKER|" b) as Hle.
    simpl in Heq. lia.
  - unfold descriptor_block. rewrite decide_False by done.
    rewrite Hstart, Hrep.
    by destruct (extract_web_apps_images image_url) as [[img|] l].
Qed.

Lemma marker_replaced_everywhere_witness :
  has_char "|" "repo:" = false
  ∧ replace "DOCKER|repo:DOCKER|tag" "DOCKER|" "" = "repo:tag"
  ∧ (descriptor_block (Some "DOCKER|repo:DOCKER|tag") [] [] (∅, ∅)).1
    = (∅ ∪ {[ "repo:tag" ]}, ∅ ∪ {[ "repo" ]}).
Proof.
  split; [reflexivity|].
  destruct (marker_replaced_everywhere "repo:" "tag" [] [] (∅, ∅) eq_refl)
    as (_ & Hrep & _ & Hblock).
  split; [exact Hrep|]. exact (f_equal fst Hblock).
Defined.

(** ** Effects of computations *)

Section effects.
Context {St : Type}.
Implicit Types (P : Call → Prop).

Lemma bind_eq {A B} (m : M St A) (f : A → M St B) w :
  bind m f w = f (m w).1 (m w).2.
Proof. unfold bind. by destruct (m w). Qed.

Lemma for_each_cons {A B} (x : A) xs (body : A → B → M St B) acc w :
  for_each (x :: xs) body acc w
  = for_each xs body (body x acc w).1 (body x acc w).2.
Proof. simpl. by rewrite bind_eq. Qed.

(** *** [silent] *)

Lemma silent_ret {A} (a : A) : silent (ret a : M St A).
Proof. by intros w. Qed.
Lemma silent_log r : silent (log r : M St unit).
Proof. by intros w. Qed.
Lemma silent_logged {A} (c : Logged A) : silent (logged c : M St A).
Proof. by intros w. Qed.
Lemma silent_bind {A B} (m : M St A) (f : A → M St B) :
  silent m → (∀ a, silent (f a)) → silent (bind m f).
Proof.
  intros Hm Hf w. rewrite bind_eq.
  destruct (Hm w) as [<- <-]. apply Hf.
Qed.
Lemma silent_for_each {A B} xs (body : A → B → M St B) acc :
  (∀ x b, silent (body x b)) → silent (for_each xs body acc).
Proof.
  intros Hbody. revert acc. induction xs as [|x xs IH]; intros acc.
  - apply silent_ret.
  - apply silent_bind; [apply Hbody|apply IH].
Qed.

(** *** [returns] *)

Lemma returns_ret {A} (a : A) : returns a (ret a : M St A).
Proof. by intros w. Qed.
Lemma returns_bind {A B} (m : M St A) (f : A → M St B) v :
  (∀ a, returns v (f a)) → returns v (bind m f).
Proof. intros Hf w. rewrite bind_eq. apply Hf. Qed.

(** *** [sends] *)

Lemma sends_ret P {A} (a : A) : sends P (ret a : M St A).
Proof. intros w. simpl. by rewrite !app_nil_r; destruct w. Qed.
Lemma sends_log P r : sends P (log r : M St unit).
Proof. intros w. simpl. by rewrite !app_nil_r. Qed.
Lemma sends_logged P {A} (c : Logged A) : sends P (logged c : M St A).
Proof. intros w. simpl. by rewrite !app_nil_r. Qed.
Lemma sends_sdk P {A} c (op : St → A * St) : P c → sends P (sdk c op).
Proof.
  intros Hc w. unfold sdk. simpl. destruct (op (cloud w)) as [a st].
  simpl. rewrite app_nil_r. split; [done|]. by constructor.
Qed.
Lemma sends_bind P {A B} (m : M St A) (f : A → M St B) :
  sends P m → (∀ a, sends P (f a)) → sends P (bind m f).
Proof.
  intros Hm Hf w. simpl. rewrite !bind_eq.
  destruct (Hm w) as [-> Hcs]. simpl in *.
  set (r := m (start (cloud w))) in *.
  destruct (Hf r.1 (mkWorld (cloud r.2) (calls w ++ calls r.2)
                      (output w ++ output r.2))) as [-> Hcs1].
  destruct (Hf r.1 r.2) as [-> Hcs2]. simpl in *.
  rewrite !app_assoc. split; [done|]. by apply Forall_app.
Qed.
Lemma sends_for_each P {A B} xs (body : A → B → M St B) acc :
  (∀ x b, sends P (body x b)) → sends P (for_each xs body acc).
Proof.
  intros Hbody. revert acc. induction xs as [|x xs IH]; intros acc.
  - apply sends_ret.
  - apply sends_bind; [apply Hbody|apply IH].
Qed.
End effects.

(** ** Dictionaries *)

Section dict_lemmas.
Context {V : Type}.
Implicit Types (d : Dict.t V) (k : string) (v : V).

Lemma get_set_eq d k v : Dict.get (Dict.set k v d) k = Some v.
Proof.
  induction d as [|[k' v'] d IH]; simpl.
  - by rewrite decide_True.
  - destruct (decide (k' = k)) as [->|Hne]; simpl.
    + by rewrite decide_True.
    + by rewrite decide_False.
Qed.

Lemma get_set_ne d k k' v :
  k ≠ k' → Dict.get (Dict.set k v d) k' = Dict.get d k'.
Proof.
  intros Hne. induction d as [|[k0 v0] d IH]; simpl.
  - by rewrite decide_False.
  - destruct (decide (k0 = k)) as [->|Hne']; simpl.
    + by rewrite !decide_False.
    + by rewrite IH.
Qed.

Lemma get_keys d k : k ∈ Dict.keys d ↔ is_Some (Dict.get d k).
Proof.
  unfold Dict.keys. induction d as [|[k' v'] d IH]; simpl.
  - rewrite elem_of_nil. split; [done|]. by intros [? ?].
  - rewrite elem_of_cons, IH.
    destruct (decide (k' = k)) as [->|Hne].
    + split; [by eexists|by left].
    + split; [intros [?|?]; [congruence|done]|by right].
Qed.

Lemma set_fresh d k v : k ∉ Dict.keys d → Dict.set k v d = d ++ [(k, v)].
Proof.
  unfold Dict.keys. induction d as [|[k' v'] d IH]; simpl; [done|].
  rewrite not_elem_of_cons. intros [Hne Hd].
  rewrite decide_False by done. by rewrite IH.
Qed.

Lemma modify_set f d k v :
  Dict.modify f k (Dict.set k v d) = Dict.set k (f v) d.
Proof.
  induction d as [|[k' v'] d IH]; simpl.
  - by rewrite decide_True.
  - destruct (decide (k' = k)) as [->|Hne]; simpl.
    + by rewrite decide_True.
    + by rewrite decide_False, IH.
Qed.

Lemma modify_modify f g d k :
  Dict.modify f k (Dict.modify g k d) = Dict.modify (f ∘ g) k d.
Proof.
  induction d as [|[k' v'] d IH]; simpl; [done|].
  destruct (decide (k' = k)) as [->|Hne]; simpl.
  - by rewrite decide_True.
  - by rewrite decide_False, IH.
Qed.

Lemma modify_ext f g d k :
  (∀ v, f v = g v) → Dict.modify f k d = Dict.modify g k d.
Proof.
  intros Hfg. induction d as [|[k' v'] d IH]; simpl; [done|].
  destruct (decide (k' = k)); by rewrite ?Hfg, ?IH.
Qed.

Lemma values_set (P : V → Prop) d k v :
  P v → Forall P (Dict.values d) → Forall P (Dict.values (Dict.set k v d)).
Proof.
  unfold Dict.values. intros Hv. induction d as [|[k' v'] d IH]; simpl.
  - by repeat constructor.
  - intros [Hv' Hd]%Forall_cons. destruct (decide (k' = k)); simpl.
    + by constructor.
    + constructor; auto.
Qed.

Lemma modify_id d k : Dict.modify id k d = d.
Proof.
  induction d as [|[k' v'] d IH]; simpl; [done|].
  destruct (decide (k' = k)); by rewrite ?IH.
Qed.

Lemma get_values d k v : Dict.get d k = Some v → v ∈ Dict.values d.
Proof.
  unfold Dict.values. induction d as [|[k' v'] d IH]; simpl; [done|].
  destruct (decide (k' = k)); [intros [= ->]; by left|].
  intros ?. right. auto.
Qed.

Lemma keys_set d k v k' :
  k' ∈ Dict.keys (Dict.set k v d) ↔ k' = k ∨ k' ∈ Dict.keys d.
Proof.
  rewrite !get_keys. destruct (decide (k = k')) as [->|Hne].
  - rewrite get_set_eq. split; [by left|by eexists].
  - rewrite get_set_ne by done. split; [by right|]. by intros [?|?].
Qed.
End dict_lemmas.

(** ** [identify_unused_images] *)

Section identify_tags.
Context {St : Type} {clients : Provider St}.
Variable self : Reaper.

Lemma get_acr_repository_tags_spec repository_name w :
  let r := get_acr_repository_tags self repository_name w in
  r.1 = enumerated (cloud w) repository_name
  ∧ cloud r.2 = (list_tag_properties repository_name (cloud w)).2.
Proof.
  unfold get_acr_repository_tags, enumerated. rewrite !bind_eq.
  unfold sdk. simpl.
  destruct (list_tag_properties repository_name (cloud w)) as [l st].
  simpl. destruct (broken l); by rewrite !bind_eq.
Qed.

Lemma classify_tags_spec repository_name protected_images all_tags acc :
  (classify_tags repository_name protected_images all_tags acc).1
  = (acc.1 ++ filter (λ t, repository_name +:+ ":" +:+ t ∉ protected_images) all_tags,
     acc.2 ++ filter (λ t, repository_name +:+ ":" +:+ t ∈ protected_images) all_tags).
Proof.
  revert acc. induction all_tags as [|t ts IH]; intros [u p]; simpl.
  - by rewrite !app_nil_r.
  - destruct (decide (_ ∉ _)) as [Hu|Hp].
    + destruct (classify_tags _ _ ts _) as [r l] eqn:E. simpl.
      replace r with (classify_tags repository_name protected_images ts (u ++ [t], p)).1
        by by rewrite E.
      rewrite IH. simpl. rewrite filter_cons_True by done.
      rewrite filter_cons_False by done. by rewrite <-app_assoc.
    + destruct (classify_tags _ _ ts _) as [r l] eqn:E. simpl.
      replace r with (classify_tags repository_name protected_images ts (u, p ++ [t])).1
        by by rewrite E.
      rewrite IH. simpl. rewrite filter_cons_False by done.
      apply dec_stable in Hp. rewrite filter_cons_True by done.
      by rewrite <-app_assoc.
Qed.
End identify_tags.

Section identify_loop.
Context {St : Type} {clients : Provider St}.
Variable self : Reaper.

Lemma identify_unused_images_get repositories protected_images w :
  (∀ r st, (list_tag_properties r st).2 = st) →
  let res := identify_unused_images self repositories protected_images w in
  cloud res.2 = cloud w
  ∧ ∀ R, Dict.get res.1 R =
      if decide (R ∈ repositories ∧ unused_of protected_images (cloud w) R ≠ [])
      then Some (unused_of protected_images (cloud w) R)
      else None.
Proof.
  intros Hro. unfold identify_unused_images.
  match goal with |- context [for_each _ ?b _ _] => set (body := b) end.
  assert (∀ R d w',
    let r := body R d w' in
    cloud r.2 = cloud w'
    ∧ r.1 = match unused_of protected_images (cloud w') R with
            | [] => d
            | _ :: _ => Dict.set R (unused_of protected_images (cloud w') R) d
            end) as Hbody.
  { intros R d w'. unfold body. simpl. rewrite !bind_eq.
    set (w1 := (log _ w').2).
    destruct (get_acr_repository_tags_spec self R w1) as [Htags Hcloud].
    rewrite Hro in Hcloud. simpl in Htags, Hcloud.
    set (g := get_acr_repository_tags self R w1) in *.
    unfold logged at 1 2. simpl.
    rewrite classify_tags_spec. simpl. rewrite Htags.
    change (cloud w1) with (cloud w').
    fold (unused_of protected_images (cloud w') R).
    destruct (unused_of protected_images (cloud w') R) as [|t ts];
      rewrite !bind_eq; simpl; by rewrite Hcloud. }
  clearbody body.
  assert (∀ rs d w',
    let r := for_each rs body d w' in
    cloud r.2 = cloud w'
    ∧ ∀ R, Dict.get r.1 R =
        if decide (R ∈ rs ∧ unused_of protected_images (cloud w') R ≠ [])
        then Some (unused_of protected_images (cloud w') R)
        else Dict.get d R) as Hloop.
  { induction rs as [|x rs IH]; intros d w'.
    - change (for_each [] body d w') with (d, w'). cbn [fst snd].
      split; [done|]. intros R.
      destruct (decide _) as [[Hin _]|]; [by apply elem_of_nil in Hin|done].
    - rewrite for_each_cons. destruct (Hbody x d w') as [Hc Hv].
      destruct (IH (body x d w').1 (body x d w').2) as [Hc' Hget].
      simpl in *. split; [congruence|]. intros R.
      rewrite Hget, Hc, Hv. clear Hget Hv IH.
      destruct (decide (R ∈ rs ∧ _)) as [[Hin Hne]|Hnot].
      { rewrite decide_True; [done|]. split; [by right|done]. }
      destruct (decide (R = x)) as [->|Hx].
      + destruct (unused_of protected_images (cloud w') x) as [|t ts] eqn:E.
        * rewrite decide_False; [done|]. by intros [_ ?].
        * rewrite decide_True by (split; [by left|done]).
          by rewrite get_set_eq.
      + rewrite decide_False.
        2: { intros [[?|?]%elem_of_cons ?]; [done|]. by apply Hnot. }
        destruct (unused_of protected_images (cloud w') x); [done|].
        by rewrite get_set_ne. }
  destruct (Hloop (elements repositories) Dict.empty w) as [Hc Hget].
  split; [done|]. intros R. rewrite Hget. simpl.
  destruct (decide (R ∈ elements repositories ∧ _)) as [[Hin Hne]|Hnot].
  - rewrite decide_True; [done|]. split; [|done]. by apply elem_of_elements.
  - rewrite decide_False; [done|]. intros [Hin Hne]. apply Hnot.
    split; [|done]. by apply elem_of_elements.
Qed.
End identify_loop.

Section identify_properties.
Context {St : Type} {clients : Provider St}.

(** C1.  When listing tags leaves the registry as it is,
    [identify_unused_images] returns the set difference repository by
    repository: a repository is a key exactly when it was discovered and
    has a tag whose full name is not protected, and its entry is its
    enumerated tags without the protected ones, in enumeration order. *)
Theorem identify_is_set_difference (self : Reaper)
    (repositories protected_images : gset string) (w : World St) :
  (∀ r st, (list_tag_properties r st).2 = st) →
  let unused_images :=
    (identify_unused_images self repositories protected_images w).1 in
  let tags_of := enumerated (cloud w) in
  (∀ R, R ∈ Dict.keys unused_images ↔
        R ∈ repositories
        ∧ ∃ t, t ∈ tags_of R ∧ R +:+ ":" +:+ t ∉ protected_images)
  ∧ (∀ R l, Dict.get unused_images R = Some l →
        l = filter (λ t, R +:+ ":" +:+ t ∉ protected_images) (tags_of R))
  ∧ (∀ R l t, Dict.get unused_images R = Some l →
        (t ∈ l ↔ t ∈ tags_of R ∧ R +:+ ":" +:+ t ∉ protected_images)).
Proof.
  intros Hro unused_images tags_of.
  destruct (identify_unused_images_get self repositories protected_images w Hro)
    as [_ Hget].
  fold unused_images in Hget. unfold unused_of in Hget. fold tags_of in Hget.
  assert (∀ R l, Dict.get unused_images R = Some l →
            R ∈ repositories
            ∧ l = filter (λ t, R +:+ ":" +:+ t ∉ protected_images) (tags_of R)
            ∧ l ≠ []) as Hsome.
  { intros R l. rewrite Hget. destruct (decide _) as [[? ?]|]; [|done].
    by intros [= <-]. }
  split_and!.
  - intros R. rewrite get_keys, Hget. split.
    + destruct (decide _) as [[Hin Hne]|]; [|by intros [? ?]]. intros _.
      split; [done|].
      destruct (filter _ (tags_of R)) as [|t ts] eqn:E; [done|].
      assert (t ∈ filter (λ t, R +:+ ":" +:+ t ∉ protected_images) (tags_of R))
        as [? ?]%list_elem_of_filter by (rewrite E; by left).
      by exists t.
    + intros (Hin & t & Ht & Hfree). rewrite decide_True; [done|].
      split; [done|]. intros E.
      assert (t ∈ filter (λ t, R +:+ ":" +:+ t ∉ protected_images) (tags_of R))
        as Hmem by by apply list_elem_of_filter.
      rewrite E in Hmem. by apply elem_of_nil in Hmem.
  - intros R l Hl. by apply Hsome in Hl as (_ & -> & _).
  - intros R l t Hl. apply Hsome in Hl as (_ & -> & _).
    rewrite list_elem_of_filter. tauto.
Qed.
End identify_properties.

Lemma identify_is_set_difference_witness :
  (∀ r st, (list_tag_properties (Provider := Fake.provider []) r st).2 = st)
  ∧ let unused_images :=
      (identify_unused_images (clients := Fake.provider []) Fake.self
         {[ "myrepo" ]} {[ "myrepo:v1"; "myrepo:v2" ]} (start Fake.cloud0)).1 in
    let tags_of := enumerated (clients := Fake.provider []) Fake.cloud0 in
    (∀ R, R ∈ Dict.keys unused_images ↔
          R ∈ ({[ "myrepo" ]} : gset string)
          ∧ ∃ t, t ∈ tags_of R
                 ∧ R +:+ ":" +:+ t ∉ ({[ "myrepo:v1"; "myrepo:v2" ]} : gset string))
    ∧ (∀ R l, Dict.get unused_images R = Some l →
          l = filter (λ t, R +:+ ":" +:+ t
                           ∉ ({[ "myrepo:v1"; "myrepo:v2" ]} : gset string))
                     (tags_of R))
    ∧ (∀ R l t, Dict.get unused_images R = Some l →
          (t ∈ l ↔ t ∈ tags_of R
                   ∧ R +:+ ":" +:+ t
                     ∉ ({[ "myrepo:v1"; "myrepo:v2" ]} : gset string))).
Proof.
  split; [intros r st; reflexivity|].
  apply (identify_is_set_difference (clients := Fake.provider []) Fake.self
           {[ "myrepo" ]} {[ "myrepo:v1"; "myrepo:v2" ]} (start Fake.cloud0)).
  intros r st. reflexivity.
Defined.

(** ** [delete_unused_images]: the tags of one repository *)

Lemma tally_tally ok1 errs1 ok2 errs2 d :
  tally ok2 errs2 (tally ok1 errs1 d) = tally (ok1 + ok2) (errs1 ++ errs2) d.
Proof.
  unfold tally. simpl. rewrite length_app, !Nat.add_assoc.
  by rewrite <-(app_assoc (errors d)).
Qed.

Lemma add_successful_tally d : add_successful d = tally 1 [] d.
Proof. unfold add_successful, tally. simpl. by rewrite Nat.add_0_r, app_nil_r. Qed.

Lemma add_failed_tally msg d : add_failed msg d = tally 0 [msg] d.
Proof. unfold add_failed, tally. simpl. by rewrite Nat.add_0_r. Qed.


Section delete_tags.
Context {St : Type} {clients : Provider St}.

(** The tags of one repository, for an entry that is already there. *)
Lemma delete_tags_loop dry_run R
    (body : string → Dict.t Deletion → M St (Dict.t Deletion)) :
  (∀ t d w,
     body t d w =
     (log (info [dry_run_prefix dry_run; Txt "Deleting image: ";
                 Val (R +:+ ":" +:+ t)]) ;;
      r <- (if dry_run then
              log (info [Txt "[DRY RUN] Would delete image: ";
                         Val (R +:+ ":" +:+ t)]) ;;
              ret (Ok tt)
            else
              r <- sdk (DeleteTag R t) (delete_tag R t) ;;
              match r with
              | Ok _ =>
                  log (info [Txt "Successfully deleted image: ";
                             Val (R +:+ ":" +:+ t)]) ;;
                  ret (Ok tt)
              | Raise e => ret (Raise e)
              end) ;;
      match r with
      | Ok _ => ret (Dict.modify add_successful R d)
      | Raise e =>
          log (error [Val (error_msg R t e)]) ;;
          ret (Dict.modify (add_failed (error_msg R t e)) R d)
      end) w) →
  ∀ ts d w,
    let r := for_each ts body d w in
    ∃ ok errs,
      r.1 = Dict.modify (tally ok errs) R d
      ∧ ok + length errs = length ts
      ∧ (dry_run = true → errs = [])
      ∧ (dry_run = false → calls r.2 = calls w ++ (DeleteTag R <$> ts))
      ∧ (∀ outcome, dry_run = false →
           (∀ t st, (delete_tag R t st).1 = outcome R t) →
           errs = failures outcome R ts).
Proof.
  intros Hbody. induction ts as [|t ts IH]; intros d w.
  - exists 0, []. simpl. rewrite app_nil_r. split_and!; try done.
    rewrite <-(modify_ext id), modify_id; [done|].
    intros [????]. unfold tally. simpl. by rewrite !Nat.add_0_r, app_nil_r.
  - rewrite for_each_cons.
    destruct (IH (body t d w).1 (body t d w).2) as (ok & errs & Hv & Hn & Hdry & Hcalls & Horacle).
    clear IH. simpl in *. rewrite Hv. clear Hv.
    rewrite Hbody, !bind_eq in *. destruct dry_run.
    + rewrite !bind_eq in *. simpl in *.
      exists (1 + ok), errs. split_and!; try done; [|lia].
      rewrite modify_modify. apply modify_ext. intros v. simpl.
      by rewrite add_successful_tally, tally_tally.
    + rewrite !bind_eq in *. unfold sdk in *. simpl in *.
      destruct (delete_tag R t (cloud w)) as [[[]|e] st] eqn:Hdel;
        simpl in *; rewrite ?bind_eq in *; simpl in *.
      * exists (1 + ok), errs. split_and!; try done; [|lia| |].
        -- rewrite modify_modify. apply modify_ext. intros v. simpl.
           by rewrite add_successful_tally, tally_tally.
        -- intros _. rewrite Hcalls by done. by rewrite <-app_assoc.
        -- intros outcome _ Ho. rewrite (Horacle outcome) by done.
           unfold failures. cbn. by rewrite <-(Ho t (cloud w)), Hdel.
      * exists ok, (error_msg R t e :: errs). split_and!; try done; [|simpl; lia| |].
        -- rewrite modify_modify. apply modify_ext. intros v. simpl.
           by rewrite add_failed_tally, tally_tally.
        -- intros _. rewrite Hcalls by done. by rewrite <-app_assoc.
        -- intros outcome _ Ho. rewrite (Horacle outcome) by done.
           unfold failures. cbn. by rewrite <-(Ho t (cloud w)), Hdel.
Qed.
End delete_tags.

(** ** [delete_unused_images]: all repositories *)

Lemma stored_values {A} (P : Deletion → Prop) (its : list (string * A)) vs d :
  Forall P vs → Forall P (Dict.values d) → Forall P (Dict.values (stored its vs d)).
Proof.
  unfold stored. revert vs d. induction its as [|it its IH]; intros [|v vs] d; simpl; try done.
  intros [Hv Hvs]%Forall_cons Hd. apply IH; [done|]. by apply values_set.
Qed.

Lemma stored_keys {A} (its : list (string * A)) vs d k :
  length vs = length its →
  k ∈ Dict.keys (stored its vs d) ↔ k ∈ its.*1 ∨ k ∈ Dict.keys d.
Proof.
  unfold stored. revert vs d. induction its as [|it its IH]; intros [|v vs] d; simpl; try done.
  - intros _. rewrite elem_of_nil. split; [by right|by intros [?|?]].
  - intros [= Hlen]. rewrite IH, keys_set, elem_of_cons by done. simpl. tauto.
Qed.

Lemma stored_fresh {A} (f : string * A → Deletion) (its : list (string * A)) d :
  NoDup (its.*1) → (∀ k, k ∈ its.*1 → k ∉ Dict.keys d) →
  stored its (f <$> its) d = d ++ ((λ it, (it.1, f it)) <$> its).
Proof.
  unfold stored. revert d. induction its as [|it its IH]; intros d; simpl.
  - by rewrite app_nil_r.
  - intros [Hit Hnd]%NoDup_cons Hd.
    rewrite set_fresh by (apply Hd; by left).
    rewrite IH; [by rewrite <-app_assoc|done|].
    intros k Hk. unfold Dict.keys. rewrite fmap_app, elem_of_app. simpl.
    intros [Hk'|Hk'].
    + by apply (Hd k); [right|].
    + apply list_elem_of_singleton in Hk' as ->. done.
Qed.

Section delete_repositories.
Context {St : Type} {clients : Provider St}.

Lemma delete_unused_images_shape unused_images dry_run w :
  let r := delete_unused_images unused_images dry_run w in
  ∃ errss,
    length errss = length unused_images
    ∧ Forall2 (λ (it : string * list string) errs,
         length errs ≤ length it.2
         ∧ (dry_run = true → errs = [])
         ∧ (∀ outcome, dry_run = false →
              (∀ R t st, (delete_tag R t st).1 = outcome R t) →
              errs = failures outcome it.1 it.2))
      unused_images errss
    ∧ r.1 = stored unused_images
              (zip_with (λ (it : string * list string) errs, outcome_with it.2 errs)
                 unused_images errss)
              Dict.empty
    ∧ (dry_run = false →
       calls r.2 = calls w
         ++ concat ((λ it : string * list string, DeleteTag it.1 <$> it.2) <$> unused_images)).
Proof.
  unfold delete_unused_images, Dict.items.
  generalize (@Dict.empty Deletion). revert w.
  induction unused_images as [|[R ts] its IH]; intros w d.
  - exists []. simpl. by rewrite app_nil_r.
  - rewrite for_each_cons. cbn beta iota. rewrite !bind_eq.
    match goal with |- context [for_each ts ?b _ _] => set (body := b) end.
    set (d0 := Dict.set R _ d). set (w0 := (log _ w).2).
    destruct (delete_tags_loop dry_run R body (λ _ _ _, eq_refl) ts d0 w0)
      as (ok & errs & Hv & Hn & Hdry & Hcalls & Horacle).
    simpl in Hv, Hcalls.
    set (r := for_each ts body d0 w0) in *.
    destruct (IH r.2 r.1) as (errss & Hlen & Hall & Hres & Hcs). clear IH.
    exists (errs :: errss). simpl. split_and!.
    + by rewrite Hlen.
    + constructor; [|done]. simpl. split_and!; [lia|done|]. intros. eauto.
    + rewrite Hres, Hv. unfold d0. rewrite modify_set. unfold stored. simpl.
      do 3 f_equal. unfold tally, outcome_with. simpl. f_equal; lia.
    + intros Hex. rewrite Hcs, Hcalls by done. by rewrite <-app_assoc.
Qed.
End delete_repositories.

(** ** Properties of deletion *)

Ltac solve_silent :=
  repeat first
    [ apply silent_ret | apply silent_log | apply silent_logged
    | apply silent_for_each; intros
    | apply silent_bind; [|intros]
    | match goal with
      | |- silent (match ?x with _ => _ end) => destruct x
      | |- silent (let (_, _) := ?x in _) => destruct x
      | |- silent ((let (_, _) := ?x in _) _) => destruct x; cbn beta
      end ].

Lemma Forall2_zip_with {A B C} (Q : A → B → Prop) (P : C → Prop)
    (f : A → B → C) l k :
  (∀ x y, Q x y → P (f x y)) → Forall2 Q l k → Forall P (zip_with f l k).
Proof. intros HQP. induction 1; simpl; constructor; auto. Qed.

Lemma Forall2_fun {A B} (g : A → B) (l : list A) k :
  Forall2 (λ x y, y = g x) l k → k = g <$> l.
Proof. induction 1 as [|x y l k -> _ ->]; simpl; done. Qed.

Lemma zip_with_fmap_same {A B C} (f : A → B → C) (g : A → B) (l : list A) :
  zip_with f l (g <$> l) = (λ x, f x (g x)) <$> l.
Proof. induction l as [|x l IH]; simpl; [done|]. by f_equal. Qed.

Section delete_properties.
Context {St : Type} {clients : Provider St}.

Lemma delete_dry_run_silent unused_images :
  silent (delete_unused_images (St:=St) unused_images true).
Proof. unfold delete_unused_images. solve_silent. Qed.

(** C3.  A dry run of [delete_unused_images] issues no SDK call and leaves
    the provider's state as it was, and every repository of the input map
    gets an entry with [successful = attempted] and [failed = 0]. *)
Theorem delete_dry_run_leaves_registry_alone
    (unused_images : Dict.t (list string)) (w : World St) :
  let r := delete_unused_images unused_images true w in
  cloud r.2 = cloud w
  ∧ calls r.2 = calls w
  ∧ ∀ R, R ∈ Dict.keys unused_images →
      ∃ d, Dict.get r.1 R = Some d
           ∧ successful d = attempted d ∧ failed d = 0.
Proof.
  intros r. destruct (delete_dry_run_silent unused_images w) as [Hc Hcs].
  split; [done|]. split; [done|]. intros R HR.
  destruct (delete_unused_images_shape unused_images true w)
    as (errss & Hlen & Hall & Hres & _).
  fold r in Hres.
  assert (R ∈ Dict.keys r.1) as [d Hd]%get_keys.
  { rewrite Hres. apply stored_keys; [|by left].
    by rewrite length_zip_with, Hlen, Nat.min_id. }
  exists d. split; [done|]. apply get_values in Hd. rewrite Hres in Hd.
  revert d Hd. apply Forall_forall, stored_values; [|by constructor].
  eapply Forall2_zip_with; [|exact Hall]. simpl.
  intros it errs (_ & -> & _); [|done]. simpl. lia.
Qed.

(** C4.  In either mode and for any input map, every entry of the result
    of [delete_unused_images] has [attempted = successful + failed] and
    [failed = len(errors)]. *)
Theorem deletion_counts_add_up
    (unused_images : Dict.t (list string)) (dry_run : bool) (w : World St) :
  Forall (λ d, attempted d = successful d + failed d
               ∧ failed d = length (errors d))
         (Dict.values (delete_unused_images unused_images dry_run w).1).
Proof.
  destruct (delete_unused_images_shape unused_images dry_run w)
    as (errss & Hlen & Hall & -> & _).
  apply stored_values; [|by constructor].
  eapply Forall2_zip_with; [|exact Hall]. simpl.
  intros it errs (Hle & _). lia.
Qed.

(** C5.  In execute mode one deletion call is issued for every tag of the
    input map, in order, whatever the calls before it returned; with a
    provider whose answer for a tag is [outcome], the entry of a repository
    counts as failed exactly the tags the provider refuses, records one
    message for each, and counts the others as successful. *)
Theorem deletion_failures_are_isolated
    (outcome : string → string → Result string unit)
    (unused_images : Dict.t (list string)) (w : World St) :
  Dict.wf unused_images →
  (∀ R t st, (delete_tag R t st).1 = outcome R t) →
  let r := delete_unused_images unused_images false w in
  calls r.2 = calls w
    ++ concat ((λ it : string * list string, DeleteTag it.1 <$> it.2)
                 <$> unused_images)
  ∧ r.1 = (λ it : string * list string, (it.1, expected outcome it.1 it.2))
            <$> unused_images.
Proof.
  intros Hwf Ho r.
  destruct (delete_unused_images_shape unused_images false w)
    as (errss & Hlen & Hall & Hres & Hcs).
  fold r in Hres, Hcs. split; [by apply Hcs|].
  assert (errss = (λ it : string * list string, failures outcome it.1 it.2)
                    <$> unused_images) as ->.
  { apply Forall2_fun. eapply Forall2_impl; [exact Hall|]. simpl.
    intros it errs (_ & _ & H). by apply H. }
  rewrite Hres, zip_with_fmap_same.
  rewrite (stored_fresh (λ it, outcome_with it.2 (failures outcome it.1 it.2)));
    [done|done|]. intros k _. unfold Dict.keys, Dict.empty. simpl.
  apply not_elem_of_nil.
Qed.
End delete_properties.

Lemma deletion_failures_are_isolated_witness :
  let refused := [("myrepo", "v1")] in
  let unused_images := [("myrepo", ["v1"; "v2"]); ("other", ["v1"])] in
  let r := delete_unused_images (clients := Fake.provider refused)
             unused_images false (start Fake.cloud0) in
  Dict.wf unused_images
  ∧ (∀ R t st, (delete_tag (Provider := Fake.provider refused) R t st).1
               = Fake.outcome refused R t)
  ∧ calls r.2 = [DeleteTag "myrepo" "v1"; DeleteTag "myrepo" "v2";
                 DeleteTag "other" "v1"]
  ∧ r.1 = [("myrepo", mkDeletion 2 1 1 ["Failed to delete myrepo:v1: denied"]);
           ("other", mkDeletion 1 1 0 [])].
Proof.
  intros refused unused_images r.
  assert (Dict.wf unused_images) as Hwf.
  { apply (bool_decide_unpack _). by vm_compute. }
  assert (∀ R t st, (delete_tag (Provider := Fake.provider refused) R t st).1
                    = Fake.outcome refused R t) as Hout by reflexivity.
  split; [done|]. split; [done|].
  exact (deletion_failures_are_isolated (clients := Fake.provider refused)
           (Fake.outcome refused) unused_images (start Fake.cloud0) Hwf Hout).
Defined.

(** ** [print_summary] *)


Lemma omap_fmap_Some {A B C} (f : B → option C) (g : A → B) (h : A → C)
    (l : list A) :
  (∀ x, f (g x) = Some (h x)) → omap f (g <$> l) = h <$> l.
Proof.
  intros H. induction l as [|x l IH]; [done|]. cbn. by rewrite H, IH.
Qed.

Lemma omap_fmap_None {A B C} (f : B → option C) (g : A → B) (l : list A) :
  (∀ x, f (g x) = None) → omap f (g <$> l) = [].
Proof.
  intros H. induction l as [|x l IH]; [done|]. cbn. by rewrite H, IH.
Qed.

Lemma omap_concat_None {A B C} (f : B → option C) (g : A → list B)
    (l : list A) :
  (∀ x, omap f (g x) = []) → omap f (concat (g <$> l)) = [].
Proof.
  intros H. induction l as [|x l IH]; [done|]. cbn.
  by rewrite omap_app, H, IH.
Qed.


Lemma sorted_Sorted l : Sorted String.le (sorted l).
Proof. apply (Sorted_merge_sort String.le). Qed.

Lemma sorted_elements (X : gset string) :
  list_to_set (sorted (elements X)) = X.
Proof.
  apply set_eq. intros x. rewrite elem_of_list_to_set.
  unfold sorted. rewrite merge_sort_Permutation. apply elem_of_elements.
Qed.

Lemma omap_unless {A B} (f : A → option B) (P : Prop) `{!Decision P} (l : list A) :
  omap f (if decide P then [] else l) = if decide P then [] else omap f l.
Proof. by destruct (decide P). Qed.

(** Distribute a reader over the blocks of the summary and drop the lines
    it does not read. *)
Ltac read_summary :=
  unfold print_summary;
  rewrite ?omap_app, ?omap_unless, ?omap_app;
  rewrite omap_concat_None
    by (intros [? d]; rewrite !omap_app;
        destruct (errors d); [done|]; cbn; by rewrite omap_fmap_None);
  repeat first [ rewrite (omap_fmap_Some _ _ id) by done
               | rewrite omap_fmap_None by done ];
  rewrite ?list_fmap_id, ?app_nil_r; cbn.

Section summary.
Variables (self : Reaper) (deletion_results : Dict.t Deletion).
Variables (protected_images repositories_cleaned : gset string).

Let out := print_summary self deletion_results protected_images
             repositories_cleaned.

Lemma summary_listed_clean :
  omap listed_clean out
  = sorted (elements (repositories_cleaned
                        ∖ list_to_set (Dict.keys deletion_results))).
Proof.
  unfold out. read_summary.
  destruct (decide (protected_images = ∅)); cbn [app];
    destruct (decide (_ ∖ _ = ∅)) as [Heq|_];
    by rewrite ?Heq, ?elements_empty, ?app_nil_r.
Qed.

Lemma summary_listed_protected :
  omap listed_protected out = sorted (elements protected_images).
Proof.
  unfold out. read_summary.
  destruct (decide (_ ∖ _ = ∅)); rewrite ?app_nil_r;
    destruct (decide (protected_images = ∅)) as [Heq|_];
    by rewrite ?Heq, ?elements_empty, ?app_nil_r.
Qed.

Lemma summary_reported label (field : Deletion → nat) :
  label = "Total images processed for deletion: " ∧ field = attempted
  ∨ label = "Successfully deleted: " ∧ field = successful
  ∨ label = "Failed to delete: " ∧ field = failed →
  omap (reported label) out = [total field deletion_results].
Proof.
  unfold out.
  intros [[-> ->]|[[-> ->]|[-> ->]]]; read_summary;
    by repeat destruct (decide _).
Qed.
End summary.

(** C8.  In what [print_summary] writes, the repositories listed as having
    no unused images are the discovered repositories that are not keys of
    the deletion results, the three totals are the sums of the
    corresponding counts over all entries, and both that list and the list
    of protected images come out in sorted order. *)
Theorem summary_reconciles (self : Reaper) (deletion_results : Dict.t Deletion)
    (protected_images repositories_cleaned : gset string) :
  let out := print_summary self deletion_results protected_images
               repositories_cleaned in
  (list_to_set (omap listed_clean out) : gset string)
    = repositories_cleaned ∖ list_to_set (Dict.keys deletion_results)
  ∧ Sorted String.le (omap listed_clean out)
  ∧ omap (reported "Total images processed for deletion: ") out
    = [sum_list (attempted <$> Dict.values deletion_results)]
  ∧ omap (reported "Successfully deleted: ") out
    = [sum_list (successful <$> Dict.values deletion_results)]
  ∧ omap (reported "Failed to delete: ") out
    = [sum_list (failed <$> Dict.values deletion_results)]
  ∧ (list_to_set (omap listed_protected out) : gset string) = protected_images
  ∧ Sorted String.le (omap listed_protected out).
Proof.
  intros out. unfold out.
  rewrite summary_listed_clean, summary_listed_protected.
  rewrite !sorted_elements.
  rewrite (summary_reported _ _ _ _ _ attempted) by auto.
  rewrite (summary_reported _ _ _ _ _ successful) by auto.
  rewrite (summary_reported _ _ _ _ _ failed) by auto.
  split_and!; auto using sorted_Sorted.
Qed.

(** ** The stages of [main] *)

Ltac solve_sends :=
  repeat first
    [ apply sends_ret | apply sends_log | apply sends_logged
    | apply sends_sdk; exact I
    | apply sends_for_each; intros
    | apply sends_bind; [|intros]
    | match goal with
      | |- sends _ (match ?x with _ => _ end) => destruct x
      | |- sends _ (if ?x then _ else _) => destruct x
      | |- sends _ ((let (_, _) := ?x in _) _) => destruct x; cbn beta
      end ].

Ltac solve_returns :=
  repeat first
    [ apply returns_ret
    | apply returns_bind; intros
    | match goal with
      | |- returns _ (match ?x with _ => _ end) => destruct x
      | |- returns _ (if ?x then _ else _) => destruct x
      end ].

Section stages.
Context {St : Type} {clients : Provider St}.
Variable self : Reaper.

Lemma get_all_web_apps_data_sends web_apps :
  sends before_cleanup (get_all_web_apps_data (St:=St) self web_apps).
Proof.
  unfold get_all_web_apps_data, get_webapps_slots_images. solve_sends.
Qed.

Lemma identify_unused_images_sends repositories protected_images :
  sends before_cleanup
    (identify_unused_images (St:=St) self repositories protected_images).
Proof.
  unfold identify_unused_images, get_acr_repository_tags. solve_sends.
Qed.

Lemma delete_unused_images_sends unused_images dry_run :
  sends before_cleanup (delete_unused_images (St:=St) unused_images dry_run).
Proof. unfold delete_unused_images. solve_sends. Qed.

Lemma cleanup_unused_manifests_sends repositories dry_run :
  sends (λ _, True) (cleanup_unused_manifests (St:=St) repositories dry_run).
Proof. unfold cleanup_unused_manifests, cleanup_repository. solve_sends. Qed.
End stages.

(** ** [cleanup_unused_manifests] *)

Section cleanup.
Context {St : Type} {clients : Provider St}.

Lemma cleanup_repository_spec repository_name dry_run w :
  let listing := (list_manifest_properties repository_name (cloud w)).1 in
  let r := cleanup_repository repository_name dry_run w in
  manifest_listings (calls r.2) = manifest_listings (calls w) ++ [repository_name]
  ∧ omap found_untagged (output r.2)
    = omap found_untagged (output w) ++ orphaned listing
  ∧ manifest_deletions (calls r.2)
    = manifest_deletions (calls w)
      ++ (if dry_run then []
          else pair repository_name <$> orphaned listing).
Proof.
  unfold cleanup_repository, orphaned. rewrite !bind_eq.
  match goal with |- context [for_each _ ?b _ _] => set (body := b) end.
  assert (∀ ms w1,
    let r := for_each ms body tt w1 in
    manifest_listings (calls r.2) = manifest_listings (calls w1)
    ∧ omap found_untagged (output r.2)
      = omap found_untagged (output w1)
        ++ (digest <$> filter (λ m, untagged m = true) ms)
    ∧ manifest_deletions (calls r.2)
      = manifest_deletions (calls w1)
        ++ (if dry_run then []
            else pair repository_name
                   <$> (digest <$> filter (λ m, untagged m = true) ms)))
    as Hloop.
  { induction ms as [|m ms IH]; intros w1.
    - destruct dry_run; cbn; by rewrite !app_nil_r.
    - rewrite for_each_cons.
      destruct (IH (body m tt w1).2) as (Hl1 & Hf1 & Hd1). clear IH.
      destruct (body m tt w1) as [[] w2] eqn:Hb. cbn [fst snd] in *.
      rewrite Hl1, Hf1, Hd1. clear Hl1 Hf1 Hd1.
      unfold body in Hb. destruct (untagged m) eqn:Hm.
      + rewrite filter_cons_True by done.
        rewrite !bind_eq in Hb. destruct dry_run.
        * injection Hb as <-. cbn.
          unfold manifest_listings, manifest_deletions.
          rewrite !omap_app. cbn. by rewrite !app_nil_r, <-!app_assoc.
        * rewrite !bind_eq in Hb. unfold sdk in Hb. cbn in Hb.
          destruct (delete_manifest repository_name (digest m) (cloud w1))
            as [[[]|e] st']; injection Hb as <-; cbn;
            unfold manifest_listings, manifest_deletions;
            rewrite !omap_app; cbn; by rewrite !app_nil_r, <-!app_assoc.
      + rewrite filter_cons_False by (by rewrite Hm).
        by injection Hb as <-. }
  unfold sdk. cbn [log fst snd cloud calls output].
  destruct (list_manifest_properties repository_name (cloud w))
    as [listing st] eqn:Hl. cbn [fst snd].
  match goal with
  | |- context [for_each _ body tt ?w0] =>
      destruct (Hloop (yielded listing) w0) as (Hl1 & Hf1 & Hd1);
      set (r := for_each (yielded listing) body tt w0) in *
  end.
  cbn [calls output] in Hl1, Hf1, Hd1.
  unfold manifest_listings, manifest_deletions in *.
  rewrite omap_app in Hl1. rewrite omap_app in Hd1. rewrite omap_app in Hf1.
  cbn in Hl1, Hf1, Hd1. rewrite app_nil_r in Hf1, Hd1.
  destruct (broken listing); cbn; rewrite ?omap_app; cbn;
    by rewrite ?app_nil_r, ?Hl1, ?Hf1, ?Hd1.
Qed.
End cleanup.

Section cleanup_pass.
Context {St : Type} {clients : Provider St}.

Lemma cleanup_unused_manifests_listings repositories dry_run (w : World St) :
  manifest_listings (calls (cleanup_unused_manifests repositories dry_run w).2)
  = manifest_listings (calls w) ++ elements repositories.
Proof.
  unfold cleanup_unused_manifests. rewrite bind_eq.
  change (calls w) with (calls (log (info [dry_run_prefix dry_run;
            Txt "Starting cleanup of untagged manifests..."]) w).2).
  generalize ((log (info [dry_run_prefix dry_run;
            Txt "Starting cleanup of untagged manifests..."]) w).2).
  cbn [fst log].
  induction (elements repositories) as [|R rs IH]; intros w'.
  - simpl. by rewrite app_nil_r.
  - rewrite for_each_cons.
    destruct (cleanup_repository R dry_run w') as [[] w''] eqn:Hstep.
    cbn [fst snd]. rewrite IH.
    pose proof (cleanup_repository_spec R dry_run w') as (Hl & _).
    rewrite Hstep in Hl. cbn [snd] in Hl. by rewrite Hl, <-app_assoc.
Qed.
End cleanup_pass.

(** *** When [main] runs the pass *)

Lemma manifest_listings_before cs :
  Forall before_cleanup cs → manifest_listings cs = [].
Proof.
  unfold manifest_listings. induction 1 as [|c cs Hc _ IH]; [done|].
  cbn. rewrite IH. by destruct c.
Qed.

Lemma manifest_listings_app cs cs' :
  manifest_listings (cs ++ cs') = manifest_listings cs ++ manifest_listings cs'.
Proof. apply omap_app. Qed.

Section cleanup_in_main.
Context {St : Type} {clients : Provider St}.
Variable str_of_json : json → string.

Lemma get_all_web_apps_data_nil self (w : World St) :
  (get_all_web_apps_data self [] w).1 = (∅, ∅).
Proof. unfold get_all_web_apps_data. by rewrite !bind_eq. Qed.

Lemma identify_unused_images_empty self protected_images (w : World St) :
  (identify_unused_images self ∅ protected_images w).1 = [].
Proof. unfold identify_unused_images. by rewrite elements_empty. Qed.

Lemma main_manifest_listings args environ files st reaper web_apps :
  ¬ identity_missing args →
  Reaper_init environ (args_subscription_id args) (args_resource_group args)
    (args_registry_name args) = Ok reaper →
  (load_configs str_of_json (args_config_path args)
     (files (args_config_path args))).1 = Ok web_apps →
  let collected := get_all_web_apps_data reaper web_apps (start st) in
  let discovered := collected.1.2 in
  let unused :=
    (identify_unused_images reaper discovered collected.1.1
       (start (cloud collected.2))).1 in
  manifest_listings (calls (main str_of_json args environ files (start st)).2)
  = if decide (args_cleanup_manifests args = true ∧ unused ≠ [])
    then elements discovered else [].
Proof.
  intros Hid Hinit Hload collected discovered unused.
  unfold main. fold (identity_missing args).
  rewrite decide_False by done. rewrite Hinit, bind_eq.
  cbn [logged fst snd]. rewrite Hload.
  destruct web_apps as [|web_app web_apps'].
  { rewrite decide_False; [done|]. intros [_ []].
    unfold unused, discovered, collected.
    by rewrite get_all_web_apps_data_nil, identify_unused_images_empty. }
  set (web_apps := web_app :: web_apps') in *.
  rewrite !bind_eq. cbn [log fst snd cloud calls output start].
  match goal with |- context [get_all_web_apps_data reaper web_apps ?w0] =>
    destruct (get_all_web_apps_data_sends reaper web_apps w0) as [-> Hc1]
  end.
  cbn [cloud calls output start fst snd] in *. fold collected in Hc1 |- *.
  fold discovered.
  destruct (decide (discovered = ∅)) as [Hempty|Hne].
  { rewrite !bind_eq. cbn [log ret fst snd calls].
    rewrite decide_False; [by apply manifest_listings_before|].
    intros [_ []]. unfold unused.
    by rewrite Hempty, identify_unused_images_empty. }
  rewrite !bind_eq.
  match goal with |- context [identify_unused_images reaper discovered ?p ?w0] =>
    destruct (identify_unused_images_sends reaper discovered p w0) as [Heq Hc2];
    rewrite !Heq; clear Heq
  end.
  cbn [cloud calls output start fst snd] in *. fold unused.
  destruct unused as [|u us] eqn:Hunused.
  { rewrite !bind_eq. cbn [log logged ret fst snd calls].
    rewrite decide_False by (by intros [_ ?]).
    rewrite manifest_listings_app, !manifest_listings_before; done. }
  rewrite !bind_eq. cbn [log fst snd cloud calls output].
  match goal with |- context [delete_unused_images ?u ?d ?w0] =>
    destruct (delete_unused_images_sends (St:=St) u d w0) as [Heq Hc3];
    rewrite !Heq; clear Heq
  end.
  cbn [cloud calls output start fst snd] in *.
  destruct (args_cleanup_manifests args).
  - rewrite decide_True by done.
    rewrite ?bind_eq. cbn [log logged ret fst snd calls].
    rewrite cleanup_unused_manifests_listings. cbn [calls].
    rewrite !manifest_listings_app, !manifest_listings_before; done.
  - rewrite decide_False by (by intros (? & _)).
    rewrite ?bind_eq. cbn [log logged ret fst snd calls].
    rewrite !manifest_listings_app, !manifest_listings_before; done.
Qed.
End cleanup_in_main.

Section cleanup_properties.
Context {St : Type} {clients : Provider St}.
Variable str_of_json : json → string.

(** C6, amended.  The cleanup pass enumerates the content of every
    repository of the set it is given, once each; for one repository it
    reports as untagged exactly the enumerated items that no tag points to,
    and in execute mode requests the deletion of exactly those.  [main] runs
    the pass over the full set of discovered repositories when the option
    is given and the map of unused images is not empty, and does not run it
    otherwise. *)
Theorem cleanup_runs_after_deletions :
  (∀ repositories dry_run (w : World St),
     manifest_listings (calls (cleanup_unused_manifests repositories dry_run w).2)
     = manifest_listings (calls w) ++ elements repositories)
  ∧ (∀ repository_name dry_run (w : World St),
       let listing := (list_manifest_properties repository_name (cloud w)).1 in
       let r := cleanup_repository repository_name dry_run w in
       omap found_untagged (output r.2)
       = omap found_untagged (output w) ++ orphaned listing
       ∧ manifest_deletions (calls r.2)
         = manifest_deletions (calls w)
           ++ (if dry_run then []
               else pair repository_name <$> orphaned listing))
  ∧ (∀ args environ files (st : St) reaper web_apps,
       ¬ identity_missing args →
       Reaper_init environ (args_subscription_id args)
         (args_resource_group args) (args_registry_name args) = Ok reaper →
       (load_configs str_of_json (args_config_path args)
          (files (args_config_path args))).1 = Ok web_apps →
       let collected := get_all_web_apps_data reaper web_apps (start st) in
       let discovered := collected.1.2 in
       let unused :=
         (identify_unused_images reaper discovered collected.1.1
            (start (cloud collected.2))).1 in
       manifest_listings
         (calls (main str_of_json args environ files (start st)).2)
       = if decide (args_cleanup_manifests args = true ∧ unused ≠ [])
         then elements discovered else []).
Proof.
  split_and!.
  - apply cleanup_unused_manifests_listings.
  - intros repository_name dry_run w.
    by destruct (cleanup_repository_spec repository_name dry_run w) as (_ & ? & ?).
  - intros. by apply main_manifest_listings.
Qed.
End cleanup_properties.

(** Cleanup is requested and the discovered repository holds an untagged
    manifest, but every tag is in use: the content of the repository is
    never enumerated. *)
Lemma cleanup_without_unused_counterexample :
  let r := main (clients := Fake.provider []) Fake.str_of_json
             (Fake.args true true) Fake.environ (Fake.files Fake.config0)
             (start Fake.cloud1) in
  let collected := get_all_web_apps_data (clients := Fake.provider [])
                     Fake.self ["app-a"] (start Fake.cloud1) in
  collected.1.2 = {[ "myrepo" ]}
  ∧ (identify_unused_images (clients := Fake.provider []) Fake.self
       collected.1.2 collected.1.1 (start (cloud collected.2))).1 = []
  ∧ orphaned (list_manifest_properties (Provider := Fake.provider [])
                "myrepo" Fake.cloud1).1 = ["sha256:bbb"]
  ∧ r.1 = 0
  ∧ manifest_listings (calls r.2) = []
  ∧ manifest_deletions (calls r.2) = [].
Proof. vm_compute. done. Qed.

Lemma cleanup_runs_after_deletions_witness :
  let r := main (clients := Fake.provider []) Fake.str_of_json
             (Fake.args true true) Fake.environ (Fake.files Fake.config0)
             (start Fake.cloud0) in
  manifest_listings (calls r.2) = ["myrepo"]
  ∧ manifest_deletions (calls r.2) = [("myrepo", "sha256:bbb")].
Proof.
  split; [|by vm_compute].
  rewrite (proj2 (proj2 (cleanup_runs_after_deletions
                           (clients := Fake.provider []) Fake.str_of_json))
             (Fake.args true true) Fake.environ (Fake.files Fake.config0)
             Fake.cloud0 Fake.self ["app-a"]).
  - by vm_compute.
  - unfold identity_missing. simpl. intros [H|[H|[H|H]]]; discriminate H.
  - reflexivity.
  - reflexivity.
Defined.

(** ** Exit status *)

Section exit_status.
Context {St : Type} {clients : Provider St}.
Variable str_of_json : json → string.

Lemma Reaper_init_Ok environ sub rg reg :
  credentials_missing environ = false →
  Reaper_init environ sub rg reg = Ok (mkReaper sub rg reg).
Proof.
  unfold Reaper_init, credentials_missing.
  destruct (environ !! "AZURE_TENANT_ID"); [|done].
  destruct (environ !! "AZURE_CLIENT_ID"); [|done].
  by destruct (environ !! "AZURE_CLIENT_SECRET").
Qed.

Lemma Reaper_init_Raise environ sub rg reg :
  credentials_missing environ = true →
  ∃ e, Reaper_init environ sub rg reg = Raise e.
Proof.
  unfold Reaper_init, credentials_missing.
  destruct (environ !! "AZURE_TENANT_ID"); [|by eexists].
  destruct (environ !! "AZURE_CLIENT_ID"); [|by eexists].
  destruct (environ !! "AZURE_CLIENT_SECRET"); [|by eexists].
  done.
Qed.

Lemma load_configs_spec config_path file :
  if config_rejected file
  then ∃ e, (load_configs str_of_json config_path file).1 = Raise e
  else ∃ web_apps, (load_configs str_of_json config_path file).1 = Ok web_apps.
Proof.
  destruct file as [[msg|msg doc pos|[]]|]; simpl; eauto.
  destruct (Dict.get d "webApps") as [[]|]; simpl; eauto.
Qed.

(** C7, amended.  The exit status is 2 when an identity argument is empty,
    1 when a credential variable is missing or the configuration file is
    missing, is not valid JSON, is not a JSON object or has a ["webApps"]
    field that is not a list, and 0 in every other run.  An object without
    ["webApps"] is an empty list of targets, not a setup failure. *)
Theorem main_exit_status (args : Args) (environ : Environ)
    (files : string → ConfigFile) (w : World St) :
  (main str_of_json args environ files w).1 =
    if decide (identity_missing args) then 2
    else if credentials_missing environ
            || config_rejected (files (args_config_path args))
    then 1 else 0.
Proof.
  unfold main, identity_missing.
  destruct (decide _) as [|_]; [done|].
  destruct (credentials_missing environ) eqn:Hcred.
  { destruct (Reaper_init_Raise environ (args_subscription_id args)
                (args_resource_group args) (args_registry_name args) Hcred)
      as [e ->]. done. }
  rewrite Reaper_init_Ok, bind_eq by done. cbn [orb fst snd logged].
  pose proof (load_configs_spec (args_config_path args)
                (files (args_config_path args))) as Hload.
  destruct (config_rejected _).
  { destruct Hload as [e ->]. done. }
  destruct Hload as [web_apps ->].
  destruct web_apps as [|web_app web_apps]; [done|].
  match goal with |- (?m ?w0).1 = 0 => generalize w0; change (returns 0 m) end.
  solve_returns.
Qed.
End exit_status.

(** A configuration object without the list of targets is not a setup
    failure: the run ends with status 0. *)
Lemma config_without_targets_counterexample :
  spec_config_fatal (Fake.files (JObject []) "reaper/webapp.json") = true
  ∧ (main (clients := Fake.provider []) Fake.str_of_json (Fake.args false false)
       Fake.environ (Fake.files (JObject [])) (start Fake.cloud0)).1 = 0
  ∧ spec_config_fatal
      (Fake.files (JObject [("webApps", JArray [JNumber "1"])])
         "reaper/webapp.json") = true
  ∧ (main (clients := Fake.provider []) Fake.str_of_json (Fake.args false false)
       Fake.environ (Fake.files (JObject [("webApps", JArray [JNumber "1"])]))
       (start Fake.cloud0)).1 = 0.
Proof. vm_compute. done. Qed.

(** ** The scenario of the specification, end to end *)

Example scenario_collect :
  (get_all_web_apps_data (clients := Fake.provider []) Fake.self ["app-a"]
     (start Fake.cloud0)).1
  = ({[ "myrepo:v1"; "myrepo:v2" ]}, {[ "myrepo" ]}).
Proof. vm_compute. reflexivity. Qed.

Example scenario_identify :
  (identify_unused_images (clients := Fake.provider []) Fake.self {[ "myrepo" ]}
     {[ "myrepo:v1"; "myrepo:v2" ]} (start Fake.cloud0)).1
  = [("myrepo", ["v3"])].
Proof. vm_compute. reflexivity. Qed.

Example scenario_execute :
  let r := main (clients := Fake.provider []) Fake.str_of_json
             (Fake.args true false) Fake.environ (Fake.files Fake.config0)
             (start Fake.cloud0) in
  r.1 = 0
  ∧ calls r.2 = [GetWebApp "rg-1" "app-a"; ListSlots "rg-1" "app-a";
                 GetConfigurationSlot "rg-1" "app-a" "staging";
                 ListTagProperties "myrepo"; DeleteTag "myrepo" "v3"]
  ∧ Fake.registry (cloud r.2) = [("myrepo", ["v1"; "v2"])].
Proof. vm_compute. done. Qed.

(** * Further properties

    Properties of the code beyond the claims of the specification: first
    the tools, then the functions in the order of the source file, then
    [main] from end to end. *)

(** ** Running a computation from a given cloud *)

Section runs.
Context {St : Type}.

Lemma runs_ret {A} (a : A) (st : St) : runs (ret a) st a [] st.
Proof. intros w <-. simpl. by rewrite app_nil_r. Qed.

Lemma runs_log r (st : St) : runs (log r) st tt [] st.
Proof. intros w <-. simpl. by rewrite app_nil_r. Qed.

Lemma runs_logged {A} (c : Logged A) (st : St) : runs (logged c) st c.1 [] st.
Proof. intros w <-. simpl. by rewrite app_nil_r. Qed.

Lemma runs_ret_eq {A} (a b : A) (st : St) : a = b → runs (ret a) st b [] st.
Proof. intros <-. apply runs_ret. Qed.

Lemma runs_logged_eq {A} (c : Logged A) a (st : St) :
  c.1 = a → runs (logged c) st a [] st.
Proof. intros <-. apply runs_logged. Qed.

Lemma runs_sdk {A} c (op : St → A * St) st :
  runs (sdk c op) st (op st).1 [c] (op st).2.
Proof. intros w <-. unfold sdk. by destruct (op (cloud w)). Qed.

Lemma runs_bind {A B} (m : M St A) (f : A → M St B) st a cs st' b cs' st'' cs0 :
  runs m st a cs st' → runs (f a) st' b cs' st'' → cs0 = cs ++ cs' →
  runs (bind m f) st b cs0 st''.
Proof.
  intros Hm Hf -> w Hw. rewrite bind_eq.
  destruct (Hm w Hw) as (-> & Hcs & Hst).
  destruct (Hf (m w).2 Hst) as (-> & -> & ->).
  by rewrite Hcs, app_assoc.
Qed.

Lemma runs_sdk_eq {A} c (op : St → A * St) st a st' :
  op st = (a, st') → runs (sdk c op) st a [c] st'.
Proof. intros H. pose proof (runs_sdk c op st) as H'. by rewrite H in H'. Qed.
End runs.

(** A step that leaves the trace as it is, followed by the rest. *)
Ltac quiet_then :=
  eapply runs_bind;
    [ first [apply runs_log | apply runs_logged | apply runs_ret] | | reflexivity ].

Section runs_more.
Context {St : Type}.

Lemma for_each_app {A B} (xs ys : list A) (body : A → B → M St B) acc w :
  for_each (xs ++ ys) body acc w
  = for_each ys body (for_each xs body acc w).1 (for_each xs body acc w).2.
Proof.
  revert acc w. induction xs as [|x xs IH]; intros acc w; [done|].
  rewrite <-app_comm_cons, !for_each_cons. apply IH.
Qed.

(** A computation that adds to the trace without reading it runs the same
    from every world over the same cloud. *)
Lemma sends_runs {A} P (m : M St A) st :
  sends P m →
  runs m st (m (start st)).1 (calls (m (start st)).2) (cloud (m (start st)).2).
Proof. intros Hm w <-. by destruct (Hm w) as [-> _]. Qed.
End runs_more.

(** ** Postconditions on the value returned *)

Section yields.
Context {St : Type}.

Lemma yields_ret {A} (I : A → Prop) a : I a → yields I (ret a : M St A).
Proof. by intros Ha w. Qed.

Lemma yields_logged {A} (I : A → Prop) (c : Logged A) :
  I c.1 → yields I (logged c : M St A).
Proof. by intros Hc w. Qed.

Lemma yields_bind {A B} (J : A → Prop) (I : B → Prop) (m : M St A)
    (f : A → M St B) :
  yields J m → (∀ a, J a → yields I (f a)) → yields I (bind m f).
Proof. intros Hm Hf w. rewrite bind_eq. by apply Hf. Qed.

Lemma yields_then {A B} (I : B → Prop) (m : M St A) (f : A → M St B) :
  (∀ a, yields I (f a)) → yields I (bind m f).
Proof. intros Hf w. rewrite bind_eq. apply Hf. Qed.

Lemma yields_for_each {A B} (I : B → Prop) xs (body : A → B → M St B) acc :
  (∀ x b, I b → yields I (body x b)) → I acc →
  yields I (for_each xs body acc).
Proof.
  intros Hbody. revert acc. induction xs as [|x xs IH]; intros acc Hacc.
  - by apply yields_ret.
  - apply (yields_bind I); [by apply Hbody|apply IH].
Qed.
End yields.

(** ** Dictionaries without duplicate keys *)

Lemma get_elem_of {V} (d : Dict.t V) k v : Dict.get d k = Some v → (k, v) ∈ d.
Proof.
  induction d as [|[k' v'] d IH]; simpl; [done|].
  destruct (decide (k' = k)) as [->|]; [intros [= ->]; by left|].
  intros ?. right. auto.
Qed.

Lemma elem_of_get {V} (d : Dict.t V) k v :
  Dict.wf d → (k, v) ∈ d → Dict.get d k = Some v.
Proof.
  unfold Dict.wf, Dict.keys. induction d as [|[k' v'] d IH]; simpl.
  { by intros _ ?%elem_of_nil. }
  intros [Hk' Hnd]%NoDup_cons [[= -> ->]|Hin]%elem_of_cons.
  - by rewrite decide_True.
  - rewrite decide_False; [by apply IH|]. intros ->. apply Hk'.
    apply list_elem_of_fmap. by exists (k, v).
Qed.

(** ** [load_configs] *)

Section load.
Variable str_of_json : json → string.

(** X1.  What [load_configs] makes of the file.  It returns a list only for a
    JSON object: the empty list when the object has no ["webApps"], and
    otherwise the elements of the ["webApps"] list in order, strings as
    they are and other values through [str].  A missing file raises
    [FileNotFoundError], a file that is not JSON raises [JSONDecodeError]
    carrying the document and the position of the decoder's error, and
    everything else raises [ValueError] with one and the same message. *)
Theorem load_configs_outcomes (config_path : string) (file : ConfigFile) :
  match (load_configs str_of_json config_path file).1 with
  | Ok web_apps =>
      ∃ d, file = Some (Parsed (JObject d))
           ∧ match Dict.get d "webApps" with
             | None => web_apps = []
             | Some v => ∃ l, v = JArray l ∧ web_apps = py_str str_of_json <$> l
             end
  | Raise (FileNotFoundError _) => file = None
  | Raise (JSONDecodeError _ doc pos) =>
      ∃ msg, file = Some (Malformed msg doc pos)
  | Raise (ValueError msg) =>
      msg = "Configuration file " +:+ config_path +:+ " is not a valid JSON file."
      ∧ ∃ loaded, file = Some loaded
                  ∧ match loaded with
                    | Unreadable _ => True
                    | Malformed _ _ _ => False
                    | Parsed (JObject d) =>
                        ∃ v, Dict.get d "webApps" = Some v
                             ∧ ∀ l, v ≠ JArray l
                    | Parsed _ => True
                    end
  | Raise _ => False
  end.
Proof.
  destruct file as [[msg|msg doc pos|v]|]; simpl; [|by eauto| |done].
  { split; [done|]. by eexists. }
  destruct v as [|b|n|s|l|d]; simpl;
    try (split; [done|]; by eexists).
  destruct (Dict.get d "webApps") as [v|] eqn:Hget; simpl.
  - destruct v as [|b|n|s|l|d']; simpl;
      try (split; [done|]; eexists; split; [done|]; eexists; split; [done|];
           by intros l' [=]).
    exists d. split; [done|]. rewrite Hget. by exists l.
  - exists d. split; [done|]. by rewrite Hget.
Qed.
End load.

(** ** [extract_web_apps_images]: the canonical name of an image *)

Lemma star_None_inv k s cs ret p s' :
  star k s cs ret = None → s = p +:+ s' → str_forall (cls_match k) p = true →
  ret s' cs = None.
Proof.
  revert p. induction s as [|c s IH]; intros p; simpl.
  - intros H Heq _. destruct p; [|done]. by rewrite str_app_nil_l in Heq; subst.
  - destruct (cls_match k c) eqn:Hc.
    + destruct (star k s cs ret) as [m|] eqn:Hs; [done|].
      intros H Heq Hp. destruct p as [|c' p].
      * by rewrite str_app_nil_l in Heq; subst.
      * rewrite (str_app_cons c' p s') in Heq. injection Heq as -> ->.
        simpl in Hp. apply andb_prop in Hp as [_ Hp]. by apply (IH p).
    + intros H Heq Hp. destruct p as [|c' p].
      * by rewrite str_app_nil_l in Heq; subst.
      * rewrite (str_app_cons c' p s') in Heq. injection Heq as -> ->.
        simpl in Hp. by rewrite Hc in Hp.
Qed.

(** A greedy repetition that succeeds took the longest run after which
    the rest of the pattern matches. *)
Lemma star_max k s cs ret m :
  star k s cs ret = Some m →
  ∃ p s', s = p +:+ s' ∧ str_forall (cls_match k) p = true
          ∧ ret s' cs = Some m
          ∧ ∀ q t, s' = q +:+ t → q ≠ "" →
              str_forall (cls_match k) q = true → ret t cs = None.
Proof.
  induction s as [|c s IH]; simpl; intros H.
  - exists "", "". split_and!; try done. intros [|c' q] t Heq; [done|].
    by rewrite (str_app_cons c' q t) in Heq.
  - destruct (cls_match k c) eqn:Hc.
    + destruct (star k s cs ret) as [m'|] eqn:Hs.
      * destruct (IH H) as (p & s' & -> & Hp & Hret & Hmax).
        exists (String c p), s'. simpl. by rewrite Hc, Hp.
      * exists "", (String c s). split_and!; try done.
        intros [|c' q] t Heq Hne Hq; [done|].
        rewrite (str_app_cons c' q t) in Heq. injection Heq as <- ->.
        simpl in Hq. apply andb_prop in Hq as [_ Hq].
        by apply (star_None_inv k (q +:+ t) cs ret q t).
    + exists "", (String c s). split_and!; try done.
      intros [|c' q] t Heq Hne Hq; [done|].
      rewrite (str_app_cons c' q t) in Heq. injection Heq as <- ->.
      simpl in Hq. by rewrite Hc in Hq.
Qed.

Lemma str_app_last a b c x :
  a +:+ b = c +:+ String x "" → b ≠ "" → ∃ b', b = b' +:+ String x "".
Proof.
  revert c. induction a as [|y a IH]; intros c.
  - rewrite str_app_nil_l. intros -> _. by exists c.
  - rewrite (str_app_cons y a). destruct c as [|y' c].
    + rewrite str_app_nil_l. intros [= -> Hnil] Hb.
      destruct a; [|done]. by rewrite str_app_nil_l in Hnil.
    + rewrite (str_app_cons y' c). intros [= -> Heq]. by apply (IH c).
Qed.

(** What matches after a host ending inside a canonical name still matches
    when the name is followed by the end of the line. *)
Lemma after_host_extends repo tag_ p s'' nl m' :
  repo +:+ ":" +:+ tag_ = p +:+ ".azurecr.io/" +:+ s'' →
  tag_ ≠ "" → has_char newline tag_ = false →
  core s'' ∅ = Some m' →
  nl = "" ∨ nl = String newline "" →
  is_Some (after_host (".azurecr.io/" +:+ s'' +:+ nl) ∅).
Proof.
  intros Heq Hne Htag Hcore Hnl. unfold after_host.
  rewrite strip_prefix_app.
  apply core_sound in Hcore
    as (r2 & t2 & nl2 & -> & Hr2 & Hr2' & Ht2 & Ht2' & Hnl2 & _).
  destruct Hnl2 as [->| ->].
  - rewrite str_app_nil_r. rewrite !str_app_assoc.
    change (":" +:+ t2 +:+ nl) with (":" +:+ (t2 +:+ nl)).
    rewrite <-!str_app_assoc. rewrite !str_app_assoc.
    rewrite core_complete by done. by eexists.
  - exfalso.
    assert (repo +:+ ":" +:+ tag_
            = (p +:+ ".azurecr.io/" +:+ r2 +:+ ":" +:+ t2) +:+ String newline "")
      as Heq'.
    { rewrite Heq. by rewrite !str_app_assoc. }
    rewrite <-str_app_assoc in Heq'.
    apply str_app_last in Heq' as [b' ->]; [|done].
    rewrite has_char_app in Htag. simpl in Htag.
    by rewrite orb_true_r in Htag.
Qed.

Lemma re_match_canonical s repo tag_ :
  re_match image_pattern s = Some (<[2 := tag_]> (<[1 := repo]> ∅)) →
  re_match image_pattern (repo +:+ ":" +:+ tag_)
  = Some (<[2 := tag_]> (<[1 := repo]> ∅)).
Proof.
  intros Hm.
  assert (∀ m repo' tag', m = <[2 := tag']> (<[1 := repo']> ∅) →
            m = <[2 := tag_]> (<[1 := repo]> (∅ : gmap nat string)) →
            repo' = repo ∧ tag' = tag_) as Hinj.
  { intros m repo' tag' -> Heq.
    pose proof (f_equal (λ m, m !! 1) Heq) as H1.
    pose proof (f_equal (λ m, m !! 2) Heq) as H2. simpl in H1, H2.
    rewrite !lookup_insert_eq in H2.
    rewrite !(lookup_insert_ne _ 2 1), !lookup_insert_eq in H1 by done.
    by simplify_eq. }
  rewrite re_match_image_pattern in Hm |- *.
  assert (∀ x, repo +:+ ":" +:+ tag_ +:+ x = (repo +:+ ":" +:+ tag_) +:+ x)
    as Hnl' by (intros x; by rewrite !str_app_assoc).
  assert (∃ nl,
    (nl = "" ∨ nl = String newline "")
    ∧ repo ≠ "" ∧ has_char ":" repo = false
    ∧ tag_ ≠ "" ∧ has_char newline tag_ = false
    ∧ ∀ p s'', repo +:+ ":" +:+ tag_ = p +:+ ".azurecr.io/" +:+ s'' →
        has_char newline p = false →
        after_host (".azurecr.io/" +:+ s'' +:+ nl) ∅ = None)
    as (nl & Hnl & Hne & Hrepo & Hne' & Htag & Hnone).
  { destruct (star AnyChar s ∅ after_host) as [m'|] eqn:Hhost.
    - injection Hm as ->.
      apply star_max in Hhost as (h & s1 & -> & Hh & Hret & Hmax).
      unfold after_host in Hret.
      destruct (strip_prefix ".azurecr.io/" s1) as [s2|] eqn:Hs1; [|done].
      apply strip_prefix_Some in Hs1 as ->.
      apply core_sound in Hret
        as (repo' & tag' & nl & -> & ? & ? & ? & ? & Hnl & Heq).
      destruct (Hinj _ _ _ Heq eq_refl) as [-> ->].
      exists nl. split_and!; try done. intros p s'' Hsplit Hp.
      apply (Hmax (".azurecr.io/" +:+ p)).
      + rewrite (Hnl' nl), Hsplit. by rewrite !str_app_assoc.
      + done.
      + rewrite not_newline_forall, has_char_app, Hp. done.
    - apply core_sound in Hm
        as (repo' & tag' & nl & -> & ? & ? & ? & ? & Hnl & Heq).
      destruct (Hinj _ _ _ Heq eq_refl) as [-> ->].
      exists nl. split_and!; try done. intros p s'' Hsplit Hp.
      apply (star_None_inv AnyChar _ ∅ after_host p _ Hhost).
      + rewrite (Hnl' nl), Hsplit. by rewrite !str_app_assoc.
      + by rewrite not_newline_forall, Hp. }
  destruct (star AnyChar (repo +:+ ":" +:+ tag_) ∅ after_host) as [m'|] eqn:Hdeep.
  - exfalso. apply star_sound in Hdeep as (p & s' & Hsplit & Hp & Hret).
    unfold after_host in Hret.
    destruct (strip_prefix ".azurecr.io/" s') as [s''|] eqn:Hs'; [|done].
    apply strip_prefix_Some in Hs' as ->.
    rewrite not_newline_forall, negb_true_iff in Hp.
    destruct (after_host_extends repo tag_ p s'' nl m') as [m'' Hm'']; try done.
    by rewrite (Hnone p s'') in Hm''.
  - rewrite <-(str_app_nil_r tag_) at 1. by apply core_complete; auto.
Qed.

(** X2.  The full name that [extract_web_apps_images] returns is a locator that
    parses to the very same result: stripping the host is idempotent. *)
Theorem extract_full_name_is_canonical (registry_url : string) (img : Image) :
  (extract_web_apps_images registry_url).1 = Some img →
  (extract_web_apps_images (full_image_name img)).1 = Some img.
Proof.
  fold (parse registry_url) (parse (full_image_name img)).
  intros (_ & m & repo & tag_ & Hm & Hr & Ht & ->)%parse_Some. simpl.
  pose proof Hm as Hsound.
  apply re_match_sound in Hsound
    as (host & repo' & tag' & nl & _ & _ & Hne & _ & _ & _ & _ & ->).
  unfold group in Hr, Ht.
  rewrite lookup_insert_ne, lookup_insert_eq in Hr by done.
  rewrite lookup_insert_eq in Ht. simplify_eq.
  apply parse_matched; [by destruct repo|].
  by apply (re_match_canonical registry_url).
Qed.

Lemma extract_full_name_is_canonical_witness :
  (extract_web_apps_images "contoso.azurecr.io/team/myrepo:v1:extra").1
  = Some (mkImage "team/myrepo" "v1:extra" "team/myrepo:v1:extra")
  ∧ (extract_web_apps_images "team/myrepo:v1:extra").1
    = Some (mkImage "team/myrepo" "v1:extra" "team/myrepo:v1:extra").
Proof.
  assert ((extract_web_apps_images "contoso.azurecr.io/team/myrepo:v1:extra").1
          = Some (mkImage "team/myrepo" "v1:extra" "team/myrepo:v1:extra"))
    as Hparse by (by vm_compute).
  split; [exact Hparse|].
  exact (extract_full_name_is_canonical _ _ Hparse).
Defined.

(** ** Descriptors and slot names *)

Lemma replace_from_absent old new s :
  old ≠ "" → str_in old s = false → replace_from 0 old new s = s.
Proof.
  intros Hold. induction s as [|c s IH]; [done|].
  cbn [str_in replace_from]. intros [Hhead Htail]%orb_false_elim.
  rewrite Hhead. by rewrite IH.
Qed.

Lemma last_segment_whole sep s : has_char sep s = false → last_segment sep s = s.
Proof.
  destruct s as [|c s]; [done|]. simpl.
  destruct (Ascii.eqb c sep); [done|]. by intros ->.
Qed.

(** X4.  [name.split('/')[-1]]: what follows the last slash of the name, and the
    whole name when it holds no slash. *)
Theorem last_segment_after_last_slash (a b : string) :
  has_char "/" b = false →
  last_segment "/" (a +:+ "/" +:+ b) = b ∧ last_segment "/" b = b.
Proof.
  intros Hb. split; [|by apply last_segment_whole].
  induction a as [|c a IH].
  - rewrite str_app_nil_l, str_app_cons, str_app_nil_l. cbn [last_segment].
    rewrite Ascii.eqb_refl. by apply last_segment_whole.
  - rewrite str_app_cons. cbn [last_segment]. rewrite IH.
    rewrite has_char_app, str_app_cons. cbn [has_char].
    rewrite Ascii.eqb_refl, orb_true_r. by destruct (Ascii.eqb c "/").
Qed.

Lemma last_segment_after_last_slash_witness :
  last_segment "/" "app-a/staging" = "staging"
  ∧ last_segment "/" "staging" = "staging".
Proof. apply (last_segment_after_last_slash "app-a" "staging"). reflexivity. Defined.

(** X3.  A descriptor made of the marker and a locator that does not hold the
    marker again contributes exactly what the locator parses to: the
    marker is stripped and nothing else of the locator is touched. *)
Theorem descriptor_contributes_its_locator (locator : string)
    (found : list Frag) (absent : list LogRecord) (acc : Collected) :
  str_in "DOCKER|" locator = false →
  replace ("DOCKER|" +:+ locator) "DOCKER|" "" = locator
  ∧ (descriptor_block (Some ("DOCKER|" +:+ locator)) found absent acc).1
    = match (extract_web_apps_images locator).1 with
      | Some img => (acc.1 ∪ {[full_image_name img]}, acc.2 ∪ {[repository img]})
      | None => acc
      end.
Proof.
  intros Habsent.
  assert (replace ("DOCKER|" +:+ locator) "DOCKER|" "" = locator) as Hrep.
  { rewrite replace_marker_head. by apply replace_from_absent. }
  split; [done|]. unfold descriptor_block.
  rewrite decide_False by done.
  rewrite (startswith_app _ "DOCKER|" locator) by done. rewrite Hrep.
  by destruct (extract_web_apps_images locator) as [[img|] l].
Qed.

Lemma descriptor_contributes_its_locator_witness :
  replace "DOCKER|contoso.azurecr.io/myrepo:v1" "DOCKER|" ""
  = "contoso.azurecr.io/myrepo:v1"
  ∧ (descriptor_block (Some "DOCKER|contoso.azurecr.io/myrepo:v1") [] [] (∅, ∅)).1
    = match (extract_web_apps_images "contoso.azurecr.io/myrepo:v1").1 with
      | Some img => (∅ ∪ {[full_image_name img]}, ∅ ∪ {[repository img]})
      | None => (∅, ∅)
      end.
Proof.
  apply (descriptor_contributes_its_locator "contoso.azurecr.io/myrepo:v1"
           [] [] (∅, ∅)).
  reflexivity.
Defined.

(** ** [get_webapps_slots_images]: the calls *)

Section collect.
Context {St : Type} {clients : Provider St}.
Variable self : Reaper.

(** X5.  [get_webapps_slots_images] reads the production slot, lists the
    deployment slots, and reads the configuration of every slot the
    listing yields, under the last segment of its name: whether the
    production slot could be read, whether an earlier slot could be read
    and whether the listing ends in an error make no difference. *)
Theorem slots_are_read_one_by_one (web_app_name : string) (w : World St) :
  let rg := resource_group_name self in
  let st1 := (web_apps_get rg web_app_name (cloud w)).2 in
  let slots := (web_apps_list_slots rg web_app_name st1).1 in
  calls (get_webapps_slots_images self web_app_name w).2
  = calls w
    ++ GetWebApp rg web_app_name
    :: ListSlots rg web_app_name
    :: ((λ slot, GetConfigurationSlot rg web_app_name (last_segment "/" slot))
          <$> yielded slots).
Proof.
  intros rg st1 slots.
  pose (slot_call := λ slot, GetConfigurationSlot rg web_app_name
                               (last_segment "/" slot)).
  cut (∃ found st', runs (get_webapps_slots_images self web_app_name) (cloud w)
                      found
                      (GetWebApp rg web_app_name :: ListSlots rg web_app_name
                       :: (slot_call <$> yielded slots)) st').
  { intros (found & st' & H). by destruct (H w eq_refl) as (_ & -> & _). }
  unfold get_webapps_slots_images. fold rg.
  match goal with |- context [for_each _ ?b _] => set (body := b) end.
  assert (∀ xs acc st, ∃ acc' st',
            runs (for_each xs body acc) st acc' (slot_call <$> xs) st')
    as Hloop.
  { induction xs as [|x xs IH]; intros acc st.
    { exists acc, st. apply runs_ret. }
    assert (∃ acc1 st1, runs (body x acc) st acc1 [slot_call x] st1)
      as (acc1 & st2 & Hbody).
    { unfold body.
      destruct (web_apps_get_configuration_slot rg web_app_name
                  (last_segment "/" x) st) as [r st2] eqn:Hget.
      destruct r; eexists _, st2; quiet_then;
        (eapply runs_bind; [by apply runs_sdk_eq| |reflexivity]);
        quiet_then; first [apply runs_logged|apply runs_ret]. }
    destruct (IH acc1 st2) as (acc' & st' & Hrest).
    exists acc', st'. simpl. by eapply runs_bind. }
  clearbody body.
  subst slots st1.
  destruct (web_apps_get rg web_app_name (cloud w)) as [r st1] eqn:Hget.
  cbn [fst snd].
  destruct (web_apps_list_slots rg web_app_name st1) as [slots st2] eqn:Hlist.
  cbn [fst snd].
  set (acc0 := (match r with
               | Ok prod_slot =>
                   (descriptor_block (site_config prod_slot ≫= windows_fx_version)
                      [Txt "Production slot image extracted from a windows container: "]
                      [warning
                         [Txt "No Windows FX version found for production slot of web app ";
                          Val web_app_name; Txt "."]]
                      (descriptor_block (site_config prod_slot ≫= linux_fx_version)
                         [Txt "Production slot image extracted from a linux container: "]
                         [warning
                            [Txt "No Linux FX version found for production slot of web app ";
                             Val web_app_name; Txt "."]] (∅, ∅)).1).1
               | Raise _ => (∅, ∅)
               end) : Collected).
  destruct (Hloop (yielded slots) acc0 st2) as (acc' & st' & Hslots).
  exists acc', st'. do 2 quiet_then.
  eapply runs_bind; [by apply runs_sdk_eq| |reflexivity].
  eapply (runs_bind _ _ _ acc0 [] st1); [| |reflexivity].
  { unfold acc0. destruct r; quiet_then; first [apply runs_logged|apply runs_ret]. }
  cbv beta. quiet_then.
  eapply runs_bind; [by apply runs_sdk_eq| |reflexivity].
  eapply runs_bind; [exact Hslots| |by rewrite app_nil_r].
  eapply (runs_bind _ _ _ tt [] st'); [|apply runs_ret|reflexivity].
  destruct (broken slots); [apply runs_log|apply runs_ret].
Qed.
End collect.

(** ** [get_all_web_apps_data]: what is collected hangs together *)

Lemma consistent_empty : consistent (∅, ∅).
Proof. split; simpl; intros ?; by rewrite elem_of_empty. Qed.

Lemma consistent_union (a b : Collected) :
  consistent a → consistent b → consistent (a.1 ∪ b.1, a.2 ∪ b.2).
Proof.
  intros [Ha1 Ha2] [Hb1 Hb2]. split; simpl.
  - intros image [Hi|Hi]%elem_of_union.
    + destruct (Ha1 _ Hi) as (R & t & ? & ? & ?). exists R, t.
      split; [done|]. split; [|done]. apply elem_of_union. by left.
    + destruct (Hb1 _ Hi) as (R & t & ? & ? & ?). exists R, t.
      split; [done|]. split; [|done]. apply elem_of_union. by right.
  - intros R [HR|HR]%elem_of_union.
    + destruct (Ha2 _ HR) as [t ?]. exists t. apply elem_of_union. by left.
    + destruct (Hb2 _ HR) as [t ?]. exists t. apply elem_of_union. by right.
Qed.

Lemma consistent_image img url :
  parse url = Some img →
  consistent ({[full_image_name img]}, {[repository img]}).
Proof.
  intros (host & nl & _ & _ & _ & ? & ? & ? & ? & Hfull)%parse_sound.
  split; simpl.
  - intros image ->%elem_of_singleton. exists (repository img), (tag img).
    split; [done|]. split; [by apply elem_of_singleton|done].
  - intros R ->%elem_of_singleton. exists (tag img).
    apply elem_of_singleton. by rewrite Hfull.
Qed.

Lemma descriptor_block_consistent fx_version found absent acc :
  consistent acc → consistent (descriptor_block fx_version found absent acc).1.
Proof.
  intros Hacc. unfold descriptor_block.
  destruct fx_version as [v|]; [|done].
  destruct (decide (v = "")); [done|].
  destruct (startswith v "DOCKER|"); [|done].
  destruct (extract_web_apps_images _) as [[img|] l] eqn:Hx; [|done].
  cbn [fst]. apply (consistent_union acc ({[_]}, {[_]})); [done|].
  apply (consistent_image img (replace v "DOCKER|" "")).
  unfold parse. by rewrite Hx.
Qed.

Section collect_invariant.
Context {St : Type} {clients : Provider St}.
Variable self : Reaper.

Lemma get_webapps_slots_images_consistent web_app_name :
  yields consistent (get_webapps_slots_images (St:=St) self web_app_name).
Proof.
  unfold get_webapps_slots_images.
  do 2 (apply yields_then; intros _). apply yields_then. intros r.
  apply (yields_bind consistent).
  { destruct r as [prod_slot|e].
    - apply (yields_bind consistent).
      + apply yields_logged, descriptor_block_consistent, consistent_empty.
      + intros acc Hacc. by apply yields_logged, descriptor_block_consistent.
    - apply yields_then. intros _. apply yields_ret, consistent_empty. }
  intros acc Hacc. apply yields_then. intros _. apply yields_then. intros slots.
  apply (yields_bind consistent).
  { apply yields_for_each; [|done]. intros slot b Hb.
    apply yields_then. intros _. apply yields_then. intros [slot_config|e].
    - apply (yields_bind consistent).
      + by apply yields_logged, descriptor_block_consistent.
      + intros c Hc. by apply yields_logged, descriptor_block_consistent.
    - apply yields_then. intros _. by apply yields_ret. }
  intros acc' Hacc'. apply yields_then. intros _. by apply yields_ret.
Qed.

Lemma update_union (X Y : gset string) :
  (if decide (Y = ∅) then X else X ∪ Y) = X ∪ Y.
Proof. destruct (decide (Y = ∅)) as [->|]; [by rewrite union_empty_r_L|done]. Qed.

Lemma get_all_web_apps_data_consistent web_apps :
  yields consistent (get_all_web_apps_data (St:=St) self web_apps).
Proof.
  unfold get_all_web_apps_data. apply (yields_bind consistent).
  - apply yields_for_each; [|apply consistent_empty]. intros web_app all Hall.
    apply yields_then. intros _.
    apply (yields_bind consistent);
      [apply get_webapps_slots_images_consistent|].
    intros found Hfound. do 2 (apply yields_then; intros _).
    apply yields_ret. rewrite !update_union. by apply consistent_union.
  - intros all Hall. do 4 (apply yields_then; intros _). by apply yields_ret.
Qed.

(** X6.  What [get_all_web_apps_data] returns hangs together, for any provider:
    every protected image is [R:t] for a discovered repository [R] that is
    not empty and holds no colon and a tag [t] that is not empty, and every
    discovered repository has at least one protected image. *)
Theorem collected_images_match_repositories (web_apps : list string)
    (w : World St) :
  let found := (get_all_web_apps_data self web_apps w).1 in
  (∀ image, image ∈ found.1 →
     ∃ R t, image = R +:+ ":" +:+ t ∧ R ∈ found.2
            ∧ R ≠ "" ∧ has_char ":" R = false
            ∧ t ≠ "" ∧ has_char newline t = false)
  ∧ (∀ R, R ∈ found.2 → ∃ t, R +:+ ":" +:+ t ∈ found.1).
Proof. apply get_all_web_apps_data_consistent. Qed.
End collect_invariant.

(** ** [get_all_web_apps_data]: several web apps *)

Section collect_union.
Context {St : Type} {clients : Provider St}.
Variable self : Reaper.

Lemma collect_loop_union
    (body : string → Collected → M St Collected) :
  (∀ web_app all w, body web_app all w =
     (log (info [Txt "Processing web app: "; Val web_app]) ;;
      found <- get_webapps_slots_images self web_app ;;
      log (info [Txt "Images extracted for web app "; Val web_app;
                 Txt ": "; ValSet found.1]) ;;
      log (info [Txt "Repositories found for web app "; Val web_app;
                 Txt ": "; ValSet found.2]) ;;
      let all_images :=
        if decide (found.1 = ∅) then all.1 else all.1 ∪ found.1 in
      let all_repositories :=
        if decide (found.2 = ∅) then all.2 else all.2 ∪ found.2 in
      ret (all_images, all_repositories)) w) →
  ∀ web_apps st, ∃ (V : Collected) cs st',
    ∀ all, runs (for_each web_apps body all) st (all.1 ∪ V.1, all.2 ∪ V.2) cs st'.
Proof.
  intros Hbody. induction web_apps as [|x xs IH]; intros st.
  { exists (∅, ∅), [], st. intros [X Y]. simpl.
    rewrite !union_empty_r_L. apply runs_ret. }
  assert (sends web_call (get_webapps_slots_images (St:=St) self x)) as Hs.
  { unfold get_webapps_slots_images. solve_sends. }
  pose proof (sends_runs _ _ st Hs) as Hx.
  set (found := (get_webapps_slots_images self x (start st)).1) in *.
  set (cs1 := calls (get_webapps_slots_images self x (start st)).2) in *.
  set (st1 := cloud (get_webapps_slots_images self x (start st)).2) in *.
  destruct (IH st1) as (V & cs & st' & Hrest).
  exists (found.1 ∪ V.1, found.2 ∪ V.2), (cs1 ++ cs), st'. intros all.
  simpl. rewrite !(assoc_L (∪)).
  pose proof (Hrest (all.1 ∪ found.1, all.2 ∪ found.2)) as Hr.
  cbn [fst snd] in Hr.
  eapply runs_bind; [|exact Hr|reflexivity].
  intros w Hw. rewrite Hbody. revert w Hw.
  change (runs (log (info [Txt "Processing web app: "; Val x]) ;;
      found <- get_webapps_slots_images self x ;;
      log (info [Txt "Images extracted for web app "; Val x;
                 Txt ": "; ValSet found.1]) ;;
      log (info [Txt "Repositories found for web app "; Val x;
                 Txt ": "; ValSet found.2]) ;;
      ret (if decide (found.1 = ∅) then all.1 else all.1 ∪ found.1,
           if decide (found.2 = ∅) then all.2 else all.2 ∪ found.2))
    st (all.1 ∪ found.1, all.2 ∪ found.2) cs1 st1).
  quiet_then.
  eapply runs_bind; [exact Hx| |by rewrite app_nil_r].
  do 2 quiet_then. rewrite !update_union. apply runs_ret.
Qed.

(** X7.  Collecting from one list of web apps after another gives the union of
    what each list gives, the second being read from the cloud as the
    first left it; in particular nothing collected is ever dropped. *)
Theorem collect_is_union (web_apps web_apps' : list string) (st : St) :
  let r1 := get_all_web_apps_data self web_apps (start st) in
  let r2 := get_all_web_apps_data self web_apps' (start (cloud r1.2)) in
  (get_all_web_apps_data self (web_apps ++ web_apps') (start st)).1
  = (r1.1.1 ∪ r2.1.1, r1.1.2 ∪ r2.1.2).
Proof.
  unfold get_all_web_apps_data.
  match goal with |- context [for_each _ ?b _] => set (body := b) end.
  rewrite !bind_eq. cbn [log ret fst snd cloud].
  rewrite for_each_app.
  destruct (collect_loop_union body (λ _ _ _, eq_refl) web_apps st)
    as (V1 & cs1 & st1 & H1).
  destruct (collect_loop_union body (λ _ _ _, eq_refl) web_apps' st1)
    as (V2 & cs2 & st2 & H2).
  destruct (H1 (∅, ∅) (start st) eq_refl) as (Hv1 & _ & Hst1).
  set (r1 := for_each web_apps body (∅, ∅) (start st)) in *.
  destruct (H2 r1.1 r1.2 Hst1) as (-> & _ & _).
  rewrite Hst1.
  destruct (H2 (∅, ∅) (start st1) eq_refl) as (-> & _ & _).
  cbn [fst snd]. by rewrite !union_empty_l_L.
Qed.
End collect_union.

(** ** [get_all_web_apps_data]: what the descriptors name *)

Lemma gathered_app l1 l2 :
  gathered (l1 ++ l2)
  = ((gathered l1).1 ∪ (gathered l2).1, (gathered l1).2 ∪ (gathered l2).2).
Proof.
  unfold gathered. simpl.
  by rewrite omap_app, !fmap_app, !list_to_set_app_L.
Qed.

Lemma descriptor_block_gathered fx_version found absent (acc : Collected) :
  (descriptor_block fx_version found absent acc).1
  = (acc.1 ∪ (gathered (omap id [fx_version])).1,
     acc.2 ∪ (gathered (omap id [fx_version])).2).
Proof.
  destruct acc as [X Y]. unfold descriptor_block, gathered.
  destruct fx_version as [v|]; cbn [omap list_omap id fst snd].
  2: { cbn. by rewrite !union_empty_r_L. }
  unfold named. destruct (decide (v = "")).
  { cbn. by rewrite !union_empty_r_L. }
  destruct (startswith v "DOCKER|").
  2: { cbn. by rewrite !union_empty_r_L. }
  unfold parse.
  destruct (extract_web_apps_images _) as [[img|] l]; cbn.
  - by rewrite !union_empty_r_L.
  - by rewrite !union_empty_r_L.
Qed.

Lemma descriptor_blocks_gathered linux windows f1 a1 f2 a2 (acc : Collected) :
  (descriptor_block windows f2 a2 (descriptor_block linux f1 a1 acc).1).1
  = (acc.1 ∪ (gathered (descriptors linux windows)).1,
     acc.2 ∪ (gathered (descriptors linux windows)).2).
Proof.
  rewrite !descriptor_block_gathered. cbn [fst snd].
  unfold descriptors. change [linux; windows] with ([linux] ++ [windows]).
  rewrite omap_app, gathered_app. cbn [fst snd].
  by rewrite !(assoc_L (∪)).
Qed.

Section collect_value.
Context {St : Type} {clients : Provider St}.
Variable self : Reaper.

Hypothesis get_reads : ∀ rg a st, (web_apps_get rg a st).2 = st.
Hypothesis list_reads : ∀ rg a st, (web_apps_list_slots rg a st).2 = st.
Hypothesis slot_reads :
  ∀ rg a s st, (web_apps_get_configuration_slot rg a s st).2 = st.

Lemma get_webapps_slots_images_runs web_app_name (st : St) :
  runs (get_webapps_slots_images self web_app_name) st
    (gathered (readable_descriptors (resource_group_name self) web_app_name st))
    (slot_reads_of (resource_group_name self) web_app_name st) st.
Proof.
  unfold slot_reads_of. set (rg := resource_group_name self).
  pose (slot_call := λ slot, GetConfigurationSlot rg web_app_name
                               (last_segment "/" slot)).
  pose (slot_descriptors := λ slot,
          match (web_apps_get_configuration_slot rg web_app_name
                   (last_segment "/" slot) st).1 with
          | Ok cfg => descriptors (linux_fx_version cfg) (windows_fx_version cfg)
          | Raise _ => []
          end).
  fold slot_call.
  unfold get_webapps_slots_images, readable_descriptors. fold rg.
  fold slot_descriptors.
  match goal with |- context [for_each _ ?b _] => set (body := b) end.
  assert (∀ xs (acc : Collected),
            runs (for_each xs body acc) st
              (acc.1 ∪ (gathered (concat (slot_descriptors <$> xs))).1,
               acc.2 ∪ (gathered (concat (slot_descriptors <$> xs))).2)
              (slot_call <$> xs) st)
    as Hloop.
  { induction xs as [|x xs IH]; intros acc.
    { apply runs_ret_eq. destruct acc. cbn. by rewrite !union_empty_r_L. }
    rewrite !fmap_cons. cbn [concat]. rewrite gathered_app. cbn [fst snd].
    rewrite !(assoc_L (∪)).
    pose proof (IH (acc.1 ∪ (gathered (slot_descriptors x)).1,
                    acc.2 ∪ (gathered (slot_descriptors x)).2)) as Hrest.
    cbn [fst snd] in Hrest.
    eapply (runs_bind _ _ _ _ [slot_call x] st); [|exact Hrest|reflexivity].
    unfold body, slot_descriptors.
    pose proof (slot_reads rg web_app_name (last_segment "/" x) st) as Hst.
    destruct (web_apps_get_configuration_slot rg web_app_name
                (last_segment "/" x) st) as [r st2] eqn:Hget.
    cbn [fst snd] in *. subst st2.
    destruct r as [cfg|e]; quiet_then;
      (eapply runs_bind; [by apply runs_sdk_eq| |reflexivity]); quiet_then.
    - apply runs_logged_eq, descriptor_blocks_gathered.
    - apply runs_ret_eq. destruct acc. cbn. by rewrite !union_empty_r_L. }
  clearbody body.
  pose proof (get_reads rg web_app_name st) as Hst1.
  pose proof (list_reads rg web_app_name st) as Hst2.
  destruct (web_apps_get rg web_app_name st) as [r st1] eqn:Hget.
  destruct (web_apps_list_slots rg web_app_name st) as [slots st2] eqn:Hlist.
  cbn [fst snd] in *. subst st1 st2.
  set (prod := match r with
               | Ok site =>
                   descriptors (site_config site ≫= linux_fx_version)
                               (site_config site ≫= windows_fx_version)
               | Raise _ => []
               end).
  rewrite gathered_app.
  pose proof (Hloop (yielded slots) (gathered prod)) as Hslots.
  do 2 quiet_then.
  eapply runs_bind; [by apply runs_sdk_eq| |reflexivity].
  eapply (runs_bind _ _ _ (gathered prod) [] st); [| |reflexivity].
  { unfold prod. destruct r as [site|e]; quiet_then.
    - apply runs_logged_eq. rewrite descriptor_blocks_gathered. cbn [fst snd].
      rewrite !union_empty_l_L. by destruct (gathered _).
    - by apply runs_ret_eq. }
  cbv beta. quiet_then.
  eapply runs_bind; [by apply runs_sdk_eq| |reflexivity].
  eapply runs_bind; [exact Hslots| |by rewrite app_nil_r].
  eapply (runs_bind _ _ _ tt [] st); [|apply runs_ret|reflexivity].
  destruct (broken slots); [apply runs_log|apply runs_ret].
Qed.

Lemma get_all_web_apps_data_runs web_apps (st : St) :
  runs (get_all_web_apps_data self web_apps) st
    (gathered (concat ((λ web_app,
       readable_descriptors (resource_group_name self) web_app st) <$> web_apps)))
    (concat ((λ web_app, slot_reads_of (resource_group_name self) web_app st)
               <$> web_apps)) st.
Proof.
  set (rg := resource_group_name self).
  unfold get_all_web_apps_data.
  match goal with |- context [for_each _ ?b _] => set (body := b) end.
  assert (∀ xs (all : Collected),
    runs (for_each xs body all) st
      (all.1 ∪ (gathered (concat ((λ x, readable_descriptors rg x st) <$> xs))).1,
       all.2 ∪ (gathered (concat ((λ x, readable_descriptors rg x st) <$> xs))).2)
      (concat ((λ x, slot_reads_of rg x st) <$> xs)) st) as Hloop.
  { induction xs as [|x xs IH]; intros all.
    { apply runs_ret_eq. destruct all. cbn. by rewrite !union_empty_r_L. }
    rewrite !fmap_cons. cbn [concat]. rewrite gathered_app. cbn [fst snd].
    rewrite !(assoc_L (∪)).
    pose proof (IH (all.1 ∪ (gathered (readable_descriptors rg x st)).1,
                    all.2 ∪ (gathered (readable_descriptors rg x st)).2)) as Hrest.
    cbn [fst snd] in Hrest.
    eapply runs_bind; [|exact Hrest|reflexivity].
    unfold body. quiet_then.
    eapply runs_bind;
      [apply get_webapps_slots_images_runs| |by rewrite app_nil_r].
    do 2 quiet_then. apply runs_ret_eq. by rewrite !update_union. }
  clearbody body.
  eapply runs_bind; [apply (Hloop web_apps (∅, ∅))| |by rewrite app_nil_r].
  do 4 quiet_then. apply runs_ret_eq. cbn [fst snd].
  rewrite !union_empty_l_L. by destruct (gathered _).
Qed.

(** X8.  What [get_all_web_apps_data] collects.  When reading web apps leaves
    the cloud as it is, the protected images are exactly the images named
    by the descriptors of the slots that can be read, over all the web
    apps listed, and the discovered repositories are the repositories of
    those images; the cloud is left as it was. *)
Theorem protected_images_are_those_named (web_apps : list string)
    (w : World St) :
  let r := get_all_web_apps_data self web_apps w in
  r.1 = gathered (concat ((λ web_app,
          readable_descriptors (resource_group_name self) web_app (cloud w))
            <$> web_apps))
  ∧ cloud r.2 = cloud w.
Proof.
  destruct (get_all_web_apps_data_runs web_apps (cloud w) w eq_refl)
    as (Hv & _ & Hst).
  by split.
Qed.
End collect_value.

Lemma protected_images_are_those_named_witness :
  let r := get_all_web_apps_data (clients := Fake.provider []) Fake.self
             ["app-a"] (start Fake.cloud0) in
  r.1 = gathered ["DOCKER|myrepo:v1"; "DOCKER|myrepo:v2"]
  ∧ cloud r.2 = Fake.cloud0.
Proof.
  apply (protected_images_are_those_named (clients := Fake.provider [])
           Fake.self (λ _ _ _, eq_refl) (λ _ _ _, eq_refl) (λ _ _ _ _, eq_refl)
           ["app-a"] (start Fake.cloud0)).
Defined.

(** ** [identify_unused_images] with any provider *)

Section identify_any.
Context {St : Type} {clients : Provider St}.
Variable self : Reaper.

Lemma get_acr_repository_tags_calls repository_name w :
  calls (get_acr_repository_tags self repository_name w).2
  = calls w ++ [ListTagProperties repository_name].
Proof.
  unfold get_acr_repository_tags. rewrite !bind_eq. unfold sdk. simpl.
  destruct (list_tag_properties repository_name (cloud w)) as [l st].
  simpl. destruct (broken l); by rewrite !bind_eq.
Qed.

Lemma identify_unused_images_shape repositories protected_images w :
  let r := identify_unused_images self repositories protected_images w in
  Dict.keys r.1 `sublist_of` elements repositories
  ∧ Forall (spared protected_images) r.1
  ∧ calls r.2 = calls w ++ (ListTagProperties <$> elements repositories).
Proof.
  unfold identify_unused_images.
  match goal with |- context [for_each _ ?b _ _] => set (body := b) end.
  assert (∀ R d w',
    let r := body R d w' in
    ∃ l, Forall (λ t, R +:+ ":" +:+ t ∉ protected_images) l
         ∧ r.1 = match l with [] => d | _ :: _ => Dict.set R l d end
         ∧ calls r.2 = calls w' ++ [ListTagProperties R]) as Hbody.
  { intros R d w'. unfold body. simpl. rewrite !bind_eq.
    set (w1 := (log _ w').2).
    pose proof (get_acr_repository_tags_calls R w1) as Hcalls.
    set (g := get_acr_repository_tags self R w1) in *.
    unfold logged at 1 2. simpl.
    rewrite classify_tags_spec. simpl.
    exists (filter (λ t, R +:+ ":" +:+ t ∉ protected_images) g.1).
    split.
    { apply Forall_forall. by intros t [? _]%list_elem_of_filter. }
    destruct (filter _ g.1) as [|t ts];
      rewrite !bind_eq; simpl; by rewrite Hcalls. }
  clearbody body.
  assert (∀ rs, NoDup rs → ∀ d w',
    (∀ k, k ∈ rs → k ∉ Dict.keys d) →
    let r := for_each rs body d w' in
    ∃ d', r.1 = d ++ d'
          ∧ Dict.keys d' `sublist_of` rs
          ∧ Forall (spared protected_images) d'
          ∧ calls r.2 = calls w' ++ (ListTagProperties <$> rs)) as Hloop.
  { intros rs. induction 1 as [|R rs HR Hnd IH]; intros d w' Hfresh.
    { exists []. simpl. by rewrite !app_nil_r. }
    rewrite for_each_cons.
    destruct (Hbody R d w') as (l & Hl & Hv & Hc).
    assert ((body R d w').1 = d ++ match l with [] => [] | _ :: _ => [(R, l)] end)
      as Hv'.
    { rewrite Hv. destruct l; [by rewrite app_nil_r|].
      apply set_fresh, Hfresh. by left. }
    destruct (IH (body R d w').1 (body R d w').2) as (d' & Hd' & Hsub & Hall & Hcs).
    { intros k Hk. rewrite Hv'. unfold Dict.keys.
      rewrite fmap_app, elem_of_app. intros [Hin|Hin].
      - by apply (Hfresh k); [right|].
      - destruct l; [by apply elem_of_nil in Hin|].
        apply list_elem_of_singleton in Hin. simpl in Hin. by subst. }
    cbn zeta in *. rewrite Hd', Hcs, Hc, Hv'. clear Hd' Hcs Hc IH Hv Hv'.
    destruct l as [|t ts].
    - exists d'. rewrite app_nil_r.
      split_and!; [done|by apply sublist_cons|done|].
      by rewrite <-app_assoc.
    - exists ((R, t :: ts) :: d'). split_and!.
      + by rewrite <-app_assoc.
      + unfold Dict.keys in *. simpl. by apply sublist_skip.
      + constructor; [|done]. split; [done|]. simpl. intros t' Ht'.
        rewrite Forall_forall in Hl. by apply Hl.
      + by rewrite <-app_assoc. }
  destruct (Hloop (elements repositories) (NoDup_elements _) Dict.empty w)
    as (d' & Hd & ? & ? & ?).
  { intros k _. apply not_elem_of_nil. }
  cbn zeta in *. rewrite Hd. done.
Qed.

(** X9.  The map returned by [identify_unused_images], for any provider: its
    keys are discovered repositories, in iteration order and without
    repetition; no entry is empty; and no tag in it names a protected
    image. *)
Theorem identify_never_lists_protected
    (repositories protected_images : gset string) (w : World St) :
  let unused_images :=
    (identify_unused_images self repositories protected_images w).1 in
  Dict.keys unused_images `sublist_of` elements repositories
  ∧ Dict.wf unused_images
  ∧ ∀ R l, Dict.get unused_images R = Some l →
      R ∈ repositories ∧ l ≠ []
      ∧ ∀ t, t ∈ l → R +:+ ":" +:+ t ∉ protected_images.
Proof.
  intros unused_images.
  destruct (identify_unused_images_shape repositories protected_images w)
    as (Hsub & Hall & _). fold unused_images in Hsub, Hall.
  split; [done|]. split.
  { unfold Dict.wf. eapply sublist_NoDup; [|exact Hsub]. apply NoDup_elements. }
  intros R l Hl. pose proof (get_elem_of _ _ _ Hl) as Hin.
  rewrite Forall_forall in Hall. destruct (Hall _ Hin) as [Hne Hfree].
  split; [|done]. apply elem_of_elements.
  eapply elem_of_sublist; [|exact Hsub].
  apply get_keys. by rewrite Hl.
Qed.

(** X10.  [identify_unused_images] asks the registry for the tags of every
    discovered repository, once each and in iteration order, and calls
    nothing else. *)
Theorem identify_lists_each_repository_once
    (repositories protected_images : gset string) (w : World St) :
  calls (identify_unused_images self repositories protected_images w).2
  = calls w ++ (ListTagProperties <$> elements repositories).
Proof. apply identify_unused_images_shape. Qed.
End identify_any.

Section identify_failed.
Context {St : Type} {clients : Provider St}.

(** X11.  A repository whose tags cannot be enumerated to the end has no entry
    in the map of unused images, whatever the listing yielded before it
    failed: none of its tags is deleted. *)
Theorem failed_listing_identifies_nothing (self : Reaper)
    (repositories protected_images : gset string) (w : World St) (R : string) :
  (∀ r st, (list_tag_properties r st).2 = st) →
  broken (list_tag_properties R (cloud w)).1 ≠ None →
  Dict.get (identify_unused_images self repositories protected_images w).1 R
  = None.
Proof.
  intros Hro Hbroken.
  destruct (identify_unused_images_get self repositories protected_images w Hro)
    as [_ ->].
  rewrite decide_False; [done|]. intros [_ Hne]. apply Hne.
  unfold unused_of, enumerated.
  by destruct (broken (list_tag_properties R (cloud w)).1).
Qed.
End identify_failed.

Lemma failed_listing_identifies_nothing_witness :
  Dict.get (identify_unused_images (clients := Fake.provider []) Fake.self
              {[ "myrepo"; "ghost" ]} ∅ (start Fake.cloud0)).1 "ghost"
  = None.
Proof.
  apply (failed_listing_identifies_nothing (clients := Fake.provider [])).
  - intros r st. reflexivity.
  - by vm_compute.
Defined.

(** ** [identify_unused_images]: protecting more *)

Lemma filter_sublist_impl {A} (P Q : A → Prop) `{!∀ x, Decision (P x)}
    `{!∀ x, Decision (Q x)} (l : list A) :
  (∀ x, P x → Q x) → filter P l `sublist_of` filter Q l.
Proof.
  intros HPQ. induction l as [|x l IH]; [done|].
  destruct (decide (P x)) as [HP|HP].
  - rewrite !filter_cons_True by auto. by apply sublist_skip.
  - rewrite (filter_cons_False P) by done.
    destruct (decide (Q x)).
    + rewrite filter_cons_True by done. by apply sublist_cons.
    + by rewrite filter_cons_False.
Qed.

Section identify_monotone.
Context {St : Type} {clients : Provider St}.

(** X21.  Protecting more images never makes [identify_unused_images] list
    more: when listing tags leaves the registry as it is and the set of
    protected images grows, every entry of the new map is an entry of the
    old map with some tags taken out, the remaining ones in the same
    order. *)
Theorem protecting_more_identifies_less (self : Reaper)
    (repositories protected_images protected_images' : gset string)
    (w : World St) :
  (∀ r st, (list_tag_properties r st).2 = st) →
  protected_images ⊆ protected_images' →
  ∀ R l',
    Dict.get (identify_unused_images self repositories protected_images' w).1 R
    = Some l' →
    ∃ l,
      Dict.get (identify_unused_images self repositories protected_images w).1 R
      = Some l
      ∧ l' `sublist_of` l.
Proof.
  intros Hro Hsub R l'.
  destruct (identify_unused_images_get self repositories protected_images' w Hro)
    as [_ ->].
  destruct (identify_unused_images_get self repositories protected_images w Hro)
    as [_ ->].
  destruct (decide (R ∈ repositories ∧ _)) as [[HR Hne']|]; [|done].
  intros [= <-].
  assert (unused_of protected_images' (cloud w) R
          `sublist_of` unused_of protected_images (cloud w) R) as Hl.
  { unfold unused_of. apply filter_sublist_impl. intros t Ht Hin.
    apply Ht. by apply Hsub. }
  exists (unused_of protected_images (cloud w) R). split; [|done].
  rewrite decide_True; [done|]. split; [done|]. intros Hnil.
  rewrite Hnil in Hl. apply sublist_nil_r in Hl. done.
Qed.
End identify_monotone.

Lemma protecting_more_identifies_less_witness :
  ∃ l,
    Dict.get (identify_unused_images (clients := Fake.provider []) Fake.self
                {[ "myrepo" ]} {[ "myrepo:v1" ]} (start Fake.cloud0)).1 "myrepo"
    = Some l
    ∧ ["v3"] `sublist_of` l.
Proof.
  apply (protecting_more_identifies_less (clients := Fake.provider [])
           Fake.self {[ "myrepo" ]} {[ "myrepo:v1" ]}
           {[ "myrepo:v1"; "myrepo:v2" ]} (start Fake.cloud0)).
  - intros r st. reflexivity.
  - apply (bool_decide_unpack _). by vm_compute.
  - by vm_compute.
Defined.

(** ** [delete_unused_images]: the shape of the results *)

Lemma stored_zip_with {A B} (f : string * A → B → Deletion)
    (its : list (string * A)) (ys : list B) d :
  length ys = length its →
  NoDup (its.*1) → (∀ k, k ∈ its.*1 → k ∉ Dict.keys d) →
  stored its (zip_with f its ys) d
  = d ++ zip_with (λ it y, (it.1, f it y)) its ys.
Proof.
  unfold stored. revert ys d.
  induction its as [|it its IH]; intros [|y ys] d; simpl; try done.
  - by rewrite app_nil_r.
  - intros [= Hlen] [Hit Hnd]%NoDup_cons Hd.
    rewrite set_fresh by (apply Hd; by left).
    rewrite IH; [by rewrite <-app_assoc|done|done|].
    intros k Hk. unfold Dict.keys. rewrite fmap_app, elem_of_app. simpl.
    intros [Hk'|Hk'].
    + by apply (Hd k); [right|].
    + apply list_elem_of_singleton in Hk' as ->. done.
Qed.

Section delete_more.
Context {St : Type} {clients : Provider St}.

(** X12.  The result of [delete_unused_images] follows its input, in either mode
    and whatever the provider answers: it has one entry for every
    repository of the input map, in the same order, and the entry counts as
    attempted the number of tags listed for that repository, each of them
    either as successful or as failed. *)
Theorem delete_outcomes_follow_input
    (unused_images : Dict.t (list string)) (dry_run : bool) (w : World St) :
  Dict.wf unused_images →
  let deletion_results := (delete_unused_images unused_images dry_run w).1 in
  Dict.keys deletion_results = Dict.keys unused_images
  ∧ Forall2 (λ (it : string * list string) (entry : string * Deletion),
       entry.1 = it.1
       ∧ attempted entry.2 = length it.2
       ∧ successful entry.2 + failed entry.2 = length it.2)
      unused_images deletion_results.
Proof.
  intros Hwf deletion_results.
  destruct (delete_unused_images_shape unused_images dry_run w)
    as (errss & Hlen & Hall & Hres & _).
  fold deletion_results in Hres.
  rewrite stored_zip_with in Hres; [|done|done|].
  2: { intros k _. apply not_elem_of_nil. }
  unfold Dict.empty in Hres. rewrite app_nil_l in Hres. rewrite Hres.
  clear Hres Hlen Hwf deletion_results. unfold Dict.keys.
  induction Hall as [|it errs its errss (Hle & _) _ [IH1 IH2]]; [done|].
  cbn [zip_with fmap list_fmap fst snd] in *. split; [by f_equal|].
  constructor; [|done]. simpl. split_and!; [done..|lia].
Qed.
End delete_more.

Lemma delete_outcomes_follow_input_witness :
  let unused_images := [("myrepo", ["v1"; "v2"]); ("other", ["v1"])] in
  let deletion_results :=
    (delete_unused_images (clients := Fake.provider [("myrepo", "v1")])
       unused_images false (start Fake.cloud0)).1 in
  Dict.keys deletion_results = ["myrepo"; "other"]
  ∧ Forall2 (λ (it : string * list string) (entry : string * Deletion),
       entry.1 = it.1
       ∧ attempted entry.2 = length it.2
       ∧ successful entry.2 + failed entry.2 = length it.2)
      unused_images deletion_results.
Proof.
  apply (delete_outcomes_follow_input (clients := Fake.provider [("myrepo", "v1")])
           [("myrepo", ["v1"; "v2"]); ("other", ["v1"])] false (start Fake.cloud0)).
  apply (bool_decide_unpack _). by vm_compute.
Defined.

(** ** [cleanup_unused_manifests] in a dry run *)

Section cleanup_dry.
Context {St : Type} {clients : Provider St}.

Lemma cleanup_repository_dry_run_calls repository_name (w : World St) :
  calls (cleanup_repository repository_name true w).2
  = calls w ++ [ListManifestProperties repository_name].
Proof.
  unfold cleanup_repository. rewrite !bind_eq.
  match goal with |- context [for_each _ ?b _ _] => set (body := b) end.
  assert (∀ ms, silent (for_each ms body tt)) as Hloop.
  { intros ms. apply silent_for_each. intros m []. unfold body.
    destruct (untagged m); [|apply silent_ret].
    apply silent_bind; [apply silent_log|]. intros _. apply silent_log. }
  clearbody body. unfold sdk. cbn [log fst snd cloud calls output].
  destruct (list_manifest_properties repository_name (cloud w)) as [listing st].
  cbn [fst snd].
  match goal with |- context [for_each _ body tt ?w0] =>
    destruct (Hloop (yielded listing) w0) as [_ Hcs];
    set (r := for_each (yielded listing) body tt w0) in *
  end.
  cbn [calls] in Hcs. by destruct (broken listing); cbn; rewrite Hcs.
Qed.

(** X13.  A dry run of the cleanup pass only looks: it enumerates the content of
    every repository it is given, once each and in iteration order, and
    issues no other call. *)
Theorem cleanup_dry_run_only_lists (repositories : gset string)
    (w : World St) :
  calls (cleanup_unused_manifests repositories true w).2
  = calls w ++ (ListManifestProperties <$> elements repositories).
Proof.
  unfold cleanup_unused_manifests. rewrite bind_eq.
  change (calls w) with (calls (log (info [dry_run_prefix true;
            Txt "Starting cleanup of untagged manifests..."]) w).2).
  generalize ((log (info [dry_run_prefix true;
            Txt "Starting cleanup of untagged manifests..."]) w).2).
  cbn [fst log].
  induction (elements repositories) as [|R rs IH]; intros w'.
  - simpl. by rewrite app_nil_r.
  - rewrite for_each_cons.
    pose proof (cleanup_repository_dry_run_calls R w') as Hstep.
    destruct (cleanup_repository R true w') as [[] w''].
    cbn [fst snd] in *. by rewrite IH, Hstep, <-app_assoc.
Qed.
End cleanup_dry.

(** ** [print_summary]: the sections of the repositories *)

Lemma omap_concat {A B C} (f : B → option C) (g : A → list B) (l : list A) :
  omap f (concat (g <$> l)) = concat ((λ x, omap f (g x)) <$> l).
Proof.
  induction l as [|x l IH]; [done|]. cbn. by rewrite omap_app, IH.
Qed.

Lemma concat_singletons {A B} (f : A → B) (l : list A) :
  concat ((λ x, [f x]) <$> l) = f <$> l.
Proof. induction l as [|x l IH]; [done|]. cbn. by rewrite IH. Qed.

Section summary_sections.
Variables (self : Reaper) (deletion_results : Dict.t Deletion).
Variables (protected_images repositories_cleaned : gset string).

Let out := print_summary self deletion_results protected_images
             repositories_cleaned.

Lemma summary_listed_repository :
  omap listed_repository out = Dict.keys deletion_results.
Proof.
  unfold out, print_summary.
  rewrite ?omap_app, ?omap_unless, ?omap_app, omap_concat.
  repeat rewrite omap_fmap_None by done.
  rewrite (list_fmap_ext _ (λ it : string * Deletion, [it.1])).
  2: { intros _ [R d] _. rewrite !omap_app.
       destruct (errors d); [done|]. cbn. by rewrite omap_fmap_None. }
  rewrite concat_singletons. cbn.
  by repeat destruct (decide _); rewrite ?app_nil_r.
Qed.

Lemma summary_listed_error :
  omap listed_error out = concat (errors <$> Dict.values deletion_results).
Proof.
  unfold out, print_summary.
  rewrite ?omap_app, ?omap_unless, ?omap_app, omap_concat.
  repeat rewrite omap_fmap_None by done.
  rewrite (list_fmap_ext _ (λ it : string * Deletion, errors it.2)).
  2: { intros _ [R d] _. rewrite !omap_app. cbn [fst snd].
       destruct (errors d) as [|e es]; [done|]. cbn -[fmap].
       rewrite (omap_fmap_Some _ _ id) by done.
       by rewrite list_fmap_id, app_nil_r. }
  unfold Dict.values. rewrite <-list_fmap_compose. cbn.
  by repeat destruct (decide _); rewrite ?app_nil_r.
Qed.
End summary_sections.

(** X14.  The summary has one section for every entry of the deletion results,
    in the order of the entries, and shows every error message recorded in
    them, entry by entry and in the order in which the failures
    happened. *)
Theorem summary_shows_every_outcome (self : Reaper)
    (deletion_results : Dict.t Deletion)
    (protected_images repositories_cleaned : gset string) :
  let out := print_summary self deletion_results protected_images
               repositories_cleaned in
  omap listed_repository out = Dict.keys deletion_results
  ∧ omap listed_error out = concat (errors <$> Dict.values deletion_results).
Proof.
  split; [apply summary_listed_repository|apply summary_listed_error].
Qed.

(** ** [main]: a dry run *)

Section dry.
Context {St : Type} {clients : Provider St}.
Variable str_of_json : json → string.

Lemma delete_dry_run_sends P unused_images :
  sends P (delete_unused_images (St:=St) unused_images true).
Proof. unfold delete_unused_images. solve_sends. Qed.

Lemma cleanup_dry_run_sends repositories :
  sends keeps (cleanup_unused_manifests (St:=St) repositories true).
Proof. unfold cleanup_unused_manifests, cleanup_repository. solve_sends. Qed.

Lemma main_dry_run_sends args environ files :
  args_execute args = false →
  sends keeps (main (St:=St) str_of_json args environ files).
Proof.
  intros Hdry. unfold main. rewrite Hdry. cbn [negb].
  destruct (decide _); [apply sends_ret|].
  destruct (Reaper_init _ _ _ _) as [reaper|e]; [|unfold main_failed; solve_sends].
  apply sends_bind; [apply sends_logged|]. intros [[|web_app web_apps]|e];
    [solve_sends| |unfold main_failed; solve_sends].
  repeat (apply sends_bind; [apply sends_log|]; intros _).
  apply sends_bind.
  { unfold get_all_web_apps_data, get_webapps_slots_images. solve_sends. }
  intros found. destruct (decide _); [solve_sends|].
  apply sends_bind.
  { unfold identify_unused_images, get_acr_repository_tags. solve_sends. }
  intros unused. apply sends_bind; [|intros; solve_sends].
  destruct unused as [|u us]; [solve_sends|].
  apply sends_bind; [apply sends_log|]. intros _.
  apply sends_bind; [apply delete_dry_run_sends|]. intros deletion_results.
  apply sends_bind; [|intros; apply sends_ret].
  destruct (args_cleanup_manifests args); [apply cleanup_dry_run_sends|apply sends_ret].
Qed.
End dry.

(** ** [main]: the calls, stage by stage *)

Section pipeline.
Context {St : Type} {clients : Provider St}.
Variable str_of_json : json → string.

Lemma collect_sends self web_apps :
  sends web_call (get_all_web_apps_data (St:=St) self web_apps).
Proof. unfold get_all_web_apps_data, get_webapps_slots_images. solve_sends. Qed.

Lemma identify_sends self repositories protected_images :
  sends tag_listing
    (identify_unused_images (St:=St) self repositories protected_images).
Proof. unfold identify_unused_images, get_acr_repository_tags. solve_sends. Qed.

Lemma delete_sends unused_images dry_run :
  sends tag_deletion (delete_unused_images (St:=St) unused_images dry_run).
Proof. unfold delete_unused_images. solve_sends. Qed.

Lemma cleanup_sends repositories dry_run :
  sends manifest_call (cleanup_unused_manifests (St:=St) repositories dry_run).
Proof. unfold cleanup_unused_manifests, cleanup_repository. solve_sends. Qed.

Lemma main_calls args environ files st reaper web_apps :
  ¬ identity_missing args →
  Reaper_init environ (args_subscription_id args) (args_resource_group args)
    (args_registry_name args) = Ok reaper →
  (load_configs str_of_json (args_config_path args)
     (files (args_config_path args))).1 = Ok web_apps →
  let dry_run := negb (args_execute args) in
  let collected := get_all_web_apps_data reaper web_apps (start st) in
  let identified :=
    identify_unused_images reaper collected.1.2 collected.1.1
      (start (cloud collected.2)) in
  let deleted :=
    delete_unused_images identified.1 dry_run (start (cloud identified.2)) in
  let cleaned :=
    cleanup_unused_manifests collected.1.2 dry_run (start (cloud deleted.2)) in
  calls (main str_of_json args environ files (start st)).2
  = calls collected.2
    ++ calls identified.2
    ++ match identified.1 with
       | [] => []
       | _ :: _ =>
           calls deleted.2
           ++ (if args_cleanup_manifests args then calls cleaned.2 else [])
       end.
Proof.
  intros Hid Hinit Hload dry_run collected identified deleted cleaned.
  unfold main. fold (identity_missing args).
  rewrite decide_False by done. rewrite Hinit, bind_eq.
  cbn [logged fst snd]. rewrite Hload.
  destruct web_apps as [|web_app web_apps'].
  { unfold deleted, identified, collected. cbn. rewrite elements_empty. done. }
  set (web_apps := web_app :: web_apps') in *.
  rewrite !bind_eq. cbn [log fst snd cloud calls output start].
  match goal with |- context [get_all_web_apps_data reaper web_apps ?w0] =>
    destruct (collect_sends reaper web_apps w0) as [-> _]
  end.
  cbn [cloud calls output start fst snd] in *. fold collected.
  destruct (decide (collected.1.2 = ∅)) as [Hempty|Hne].
  { rewrite !bind_eq. cbn [log ret fst snd calls].
    unfold deleted, identified. rewrite Hempty.
    unfold identify_unused_images. rewrite elements_empty. cbn.
    by rewrite app_nil_r. }
  rewrite !bind_eq.
  match goal with |- context [identify_unused_images reaper ?d ?p ?w0] =>
    destruct (identify_sends reaper d p w0) as [Heq _];
    rewrite !Heq; clear Heq
  end.
  cbn [cloud calls output start fst snd] in *. fold identified.
  destruct (identified.1) as [|u us] eqn:Hunused.
  { rewrite !bind_eq. cbn [log logged ret fst snd calls].
    by rewrite !app_nil_r. }
  rewrite !bind_eq. cbn [log fst snd cloud calls output].
  match goal with |- context [delete_unused_images ?u ?d ?w0] =>
    destruct (delete_sends u d w0) as [Heq _];
    rewrite !Heq; clear Heq
  end.
  cbn [cloud calls output start fst snd] in *.
  fold dry_run deleted.
  destruct (args_cleanup_manifests args).
  - rewrite ?bind_eq. cbn [log logged ret fst snd calls].
    match goal with |- context [cleanup_unused_manifests ?u ?d ?w0] =>
      destruct (cleanup_sends u d w0) as [Heq _];
      rewrite !Heq; clear Heq
    end.
    cbn [cloud calls output start fst snd].
    fold cleaned. by rewrite <-!app_assoc.
  - rewrite ?bind_eq. cbn [log logged ret fst snd calls].
    by rewrite app_nil_r, <-!app_assoc.
Qed.
End pipeline.

(** ** [main]: what is deleted *)

Lemma tag_deletions_app cs cs' :
  tag_deletions (cs ++ cs') = tag_deletions cs ++ tag_deletions cs'.
Proof. apply omap_app. Qed.

Lemma tag_deletions_none (P : Call → Prop) cs :
  (∀ R t, ¬ P (DeleteTag R t)) → Forall P cs → tag_deletions cs = [].
Proof.
  intros HP. unfold tag_deletions. induction 1 as [|c cs Hc _ IH]; [done|].
  cbn. rewrite IH. destruct c; try done. by apply HP in Hc.
Qed.

Lemma tag_deletions_delete (unused_images : Dict.t (list string)) :
  tag_deletions
    (concat ((λ it : string * list string, DeleteTag it.1 <$> it.2)
               <$> unused_images))
  = to_delete unused_images.
Proof.
  unfold to_delete. induction unused_images as [|[R ts] its IH]; [done|].
  rewrite !fmap_cons. cbn [concat fst snd]. rewrite tag_deletions_app, IH.
  f_equal. unfold tag_deletions. clear. induction ts as [|t ts IH]; [done|].
  cbn. by rewrite IH.
Qed.

Lemma elem_of_tag_deletions cs R t :
  (R, t) ∈ tag_deletions cs ↔ DeleteTag R t ∈ cs.
Proof.
  unfold tag_deletions. rewrite list_elem_of_omap. split.
  - intros (c & Hc & Heq). destruct c; simplify_eq. done.
  - intros Hc. by exists (DeleteTag R t).
Qed.

Lemma elem_of_to_delete (unused_images : Dict.t (list string)) R t :
  (R, t) ∈ to_delete unused_images ↔ ∃ l, (R, l) ∈ unused_images ∧ t ∈ l.
Proof.
  unfold to_delete. induction unused_images as [|[R' l'] its IH].
  { split; [by intros ?%elem_of_nil|by intros (? & ?%elem_of_nil & _)]. }
  rewrite fmap_cons. cbn [concat fst snd]. rewrite elem_of_app, IH.
  rewrite list_elem_of_fmap. split.
  - intros [(t' & [= -> ->] & Ht')|(l & Hl & Ht)].
    + exists l'. split; [by left|done].
    + exists l. split; [by right|done].
  - intros (l & [[= -> ->]|Hl]%elem_of_cons & Ht).
    + left. by exists t.
    + right. by exists l.
Qed.

Section main_properties.
Context {St : Type} {clients : Provider St}.
Variable str_of_json : json → string.

Lemma delete_unused_images_requests unused_images dry_run (w : World St) :
  tag_deletions (calls (delete_unused_images unused_images dry_run w).2)
  = tag_deletions (calls w)
    ++ (if dry_run then [] else to_delete unused_images).
Proof.
  destruct dry_run.
  - destruct (delete_dry_run_silent unused_images w) as [_ ->].
    by rewrite app_nil_r.
  - destruct (delete_unused_images_shape unused_images false w)
      as (errss & _ & _ & _ & ->); [|done].
    by rewrite tag_deletions_app, tag_deletions_delete.
Qed.

Lemma cleanup_no_tag_deletions repositories dry_run (st : St) :
  tag_deletions
    (calls (cleanup_unused_manifests repositories dry_run (start st)).2) = [].
Proof.
  destruct (cleanup_sends repositories dry_run (start st)) as [_ Hc].
  apply (tag_deletions_none manifest_call); [intros R t []|exact Hc].
Qed.

Lemma main_tag_deletions args environ files st reaper web_apps :
  ¬ identity_missing args →
  Reaper_init environ (args_subscription_id args) (args_resource_group args)
    (args_registry_name args) = Ok reaper →
  (load_configs str_of_json (args_config_path args)
     (files (args_config_path args))).1 = Ok web_apps →
  let collected := get_all_web_apps_data reaper web_apps (start st) in
  let unused_images :=
    (identify_unused_images reaper collected.1.2 collected.1.1
       (start (cloud collected.2))).1 in
  tag_deletions (calls (main str_of_json args environ files (start st)).2)
  = if args_execute args then to_delete unused_images else [].
Proof.
  intros Hid Hinit Hload collected unused_images.
  rewrite (main_calls str_of_json args environ files st reaper web_apps) by done.
  fold collected.
  destruct (collect_sends reaper web_apps (start st)) as [_ Hc1].
  destruct (identify_sends reaper collected.1.2 collected.1.1
              (start (cloud collected.2))) as [_ Hc2].
  cbn [start cloud] in Hc1, Hc2. fold collected in Hc1.
  rewrite !tag_deletions_app.
  rewrite (tag_deletions_none web_call), (tag_deletions_none tag_listing);
    [|intros ? ? []|exact Hc2|intros ? ? []|exact Hc1].
  cbn [app]. fold unused_images.
  destruct unused_images as [|u us] eqn:Hunused.
  { by destruct (args_execute args). }
  rewrite tag_deletions_app, delete_unused_images_requests.
  cbn [start calls tag_deletions omap app].
  destruct (args_cleanup_manifests args).
  - rewrite cleanup_no_tag_deletions, app_nil_r. by destruct (args_execute args).
  - rewrite app_nil_r. by destruct (args_execute args).
Qed.

(** X18.  What [main] deletes.  In a run that gets past setup, the tags whose
    deletion is requested are, in execute mode, exactly the tags of the map
    returned by [identify_unused_images], entry by entry and in order; in a
    dry run no deletion is requested. *)
Theorem main_deletes_exactly_unused args environ files (st : St)
    reaper web_apps :
  ¬ identity_missing args →
  Reaper_init environ (args_subscription_id args) (args_resource_group args)
    (args_registry_name args) = Ok reaper →
  (load_configs str_of_json (args_config_path args)
     (files (args_config_path args))).1 = Ok web_apps →
  let collected := get_all_web_apps_data reaper web_apps (start st) in
  let unused_images :=
    (identify_unused_images reaper collected.1.2 collected.1.1
       (start (cloud collected.2))).1 in
  tag_deletions (calls (main str_of_json args environ files (start st)).2)
  = if args_execute args then to_delete unused_images else [].
Proof. apply main_tag_deletions. Qed.

(** X19.  [main] never asks for the deletion of an image in use: every tag
    deletion it requests is for a repository discovered from the web apps
    and for a tag whose full name is not among the protected images. *)
Theorem main_spares_protected_images args environ files (st : St)
    reaper web_apps :
  ¬ identity_missing args →
  Reaper_init environ (args_subscription_id args) (args_resource_group args)
    (args_registry_name args) = Ok reaper →
  (load_configs str_of_json (args_config_path args)
     (files (args_config_path args))).1 = Ok web_apps →
  let collected := get_all_web_apps_data reaper web_apps (start st) in
  ∀ R t,
    DeleteTag R t ∈ calls (main str_of_json args environ files (start st)).2 →
    R ∈ collected.1.2 ∧ R +:+ ":" +:+ t ∉ collected.1.1.
Proof.
  intros Hid Hinit Hload collected R t Hcall.
  apply elem_of_tag_deletions in Hcall.
  rewrite (main_tag_deletions args environ files st reaper web_apps) in Hcall
    by done.
  destruct (args_execute args); [|by apply elem_of_nil in Hcall].
  apply elem_of_to_delete in Hcall as (l & Hl & Ht).
  fold collected in Hl.
  destruct (identify_unused_images_shape reaper collected.1.2 collected.1.1
              (start (cloud collected.2))) as (Hsub & Hall & _).
  rewrite Forall_forall in Hall. destruct (Hall _ Hl) as [_ Hfree].
  split; [|by apply Hfree].
  apply elem_of_elements. eapply elem_of_sublist; [|exact Hsub].
  unfold Dict.keys. apply list_elem_of_fmap. by exists (R, l).
Qed.
End main_properties.

Lemma main_deletes_exactly_unused_witness :
  tag_deletions
    (calls (main (clients := Fake.provider []) Fake.str_of_json
              (Fake.args true false) Fake.environ (Fake.files Fake.config0)
              (start Fake.cloud0)).2)
  = [("myrepo", "v3")].
Proof.
  rewrite (main_deletes_exactly_unused (clients := Fake.provider [])
             Fake.str_of_json (Fake.args true false) Fake.environ
             (Fake.files Fake.config0) Fake.cloud0 Fake.self ["app-a"]).
  - by vm_compute.
  - unfold identity_missing. simpl. intros [H|[H|[H|H]]]; discriminate H.
  - reflexivity.
  - reflexivity.
Defined.

Lemma main_spares_protected_images_witness :
  DeleteTag "myrepo" "v3"
    ∈ calls (main (clients := Fake.provider []) Fake.str_of_json
               (Fake.args true false) Fake.environ (Fake.files Fake.config0)
               (start Fake.cloud0)).2
  ∧ "myrepo" ∈ ({[ "myrepo" ]} : gset string)
  ∧ "myrepo:v3" ∉ ({[ "myrepo:v1"; "myrepo:v2" ]} : gset string).
Proof.
  assert (DeleteTag "myrepo" "v3"
    ∈ calls (main (clients := Fake.provider []) Fake.str_of_json
               (Fake.args true false) Fake.environ (Fake.files Fake.config0)
               (start Fake.cloud0)).2) as Hcall.
  { vm_compute. do 4 right. left. }
  split; [exact Hcall|].
  assert (¬ identity_missing (Fake.args true false)) as Hid.
  { unfold identity_missing. simpl. intros [H|[H|[H|H]]]; discriminate H. }
  exact (main_spares_protected_images (clients := Fake.provider [])
           Fake.str_of_json (Fake.args true false) Fake.environ
           (Fake.files Fake.config0) Fake.cloud0 Fake.self ["app-a"]
           Hid eq_refl eq_refl "myrepo" "v3" Hcall).
Defined.

(** ** [main]: the repositories it touches *)

Section scope.
Context {St : Type} {clients : Provider St}.
Variable str_of_json : json → string.

Lemma sends_for_each_in P {A B} xs (body : A → B → M St B) acc :
  (∀ x b, x ∈ xs → sends P (body x b)) → sends P (for_each xs body acc).
Proof.
  revert acc. induction xs as [|x xs IH]; intros acc Hbody.
  - apply sends_ret.
  - apply sends_bind; [apply Hbody; by left|].
    intros b. apply IH. intros y b' Hy. apply Hbody. by right.
Qed.

Lemma cleanup_repository_within repositories R dry_run :
  R ∈ repositories →
  sends (within repositories) (cleanup_repository (St:=St) R dry_run).
Proof.
  intros HR. unfold cleanup_repository.
  repeat first
    [ apply sends_ret | apply sends_log | apply sends_logged
    | apply sends_sdk; exact HR
    | apply sends_for_each; intros
    | apply sends_bind; [|intros]
    | match goal with
      | |- sends _ (match ?x with _ => _ end) => destruct x
      end ].
Qed.

Lemma cleanup_unused_manifests_within repositories dry_run :
  sends (within repositories)
    (cleanup_unused_manifests (St:=St) repositories dry_run).
Proof.
  unfold cleanup_unused_manifests.
  apply sends_bind; [apply sends_log|]. intros _.
  apply sends_for_each_in. intros R [] HR.
  apply cleanup_repository_within. by apply elem_of_elements.
Qed.

(** X22.  [main] stays within the repositories it discovered: every call
    it makes to the registry, whether it lists tags, deletes a tag, lists
    manifests or deletes a manifest, is about a repository that a slot of
    one of the web apps runs an image of. *)
Theorem main_stays_within_discovered args environ files (st : St)
    reaper web_apps :
  ¬ identity_missing args →
  Reaper_init environ (args_subscription_id args) (args_resource_group args)
    (args_registry_name args) = Ok reaper →
  (load_configs str_of_json (args_config_path args)
     (files (args_config_path args))).1 = Ok web_apps →
  let discovered := (get_all_web_apps_data reaper web_apps (start st)).1.2 in
  ∀ c R,
    c ∈ calls (main str_of_json args environ files (start st)).2 →
    repo_of c = Some R → R ∈ discovered.
Proof.
  intros Hid Hinit Hload discovered c R.
  rewrite (main_calls str_of_json args environ files st reaper web_apps) by done.
  set (collected := get_all_web_apps_data reaper web_apps (start st)).
  set (identified := identify_unused_images reaper collected.1.2 collected.1.1
                       (start (cloud collected.2))).
  assert (∀ cs, Forall (within discovered) cs → c ∈ cs → repo_of c = Some R →
                R ∈ discovered) as Hwithin.
  { intros cs Hcs Hc HR. rewrite Forall_forall in Hcs.
    specialize (Hcs c Hc). unfold within in Hcs. by rewrite HR in Hcs. }
  rewrite !elem_of_app. intros [Hc|[Hc|Hc]] HR.
  - destruct (collect_sends reaper web_apps (start st)) as [_ Hweb].
    rewrite Forall_forall in Hweb. specialize (Hweb c Hc). by destruct c.
  - destruct (identify_unused_images_shape reaper collected.1.2 collected.1.1
                (start (cloud collected.2))) as (_ & _ & Hcs).
    fold identified in Hcs. cbn [start calls app] in Hcs. rewrite Hcs in Hc.
    apply list_elem_of_fmap in Hc as (R' & -> & HR'). injection HR as <-.
    by apply elem_of_elements.
  - destruct (identify_unused_images_shape reaper collected.1.2 collected.1.1
                (start (cloud collected.2))) as (Hsub & _ & _).
    fold identified in Hsub.
    destruct identified.1 as [|u us] eqn:Hunused;
      [by apply elem_of_nil in Hc|].
    rewrite <-Hunused in *. apply elem_of_app in Hc as [Hc|Hc].
    + match type of Hc with c ∈ calls (delete_unused_images ?u ?d ?w0).2 =>
        destruct (delete_sends u d w0) as [_ Hdel];
        pose proof (delete_unused_images_requests u d w0) as Hreq
      end.
      rewrite Forall_forall in Hdel. specialize (Hdel c Hc).
      destruct c as [| | | |R' t| |]; try done. injection HR as ->.
      apply elem_of_tag_deletions in Hc. rewrite Hreq in Hc.
      cbn [start calls tag_deletions omap list_omap app] in Hc.
      destruct (negb (args_execute args)); [by apply elem_of_nil in Hc|].
      apply elem_of_to_delete in Hc as (l & Hl & _).
      apply elem_of_elements. eapply elem_of_sublist; [|exact Hsub].
      unfold Dict.keys. apply list_elem_of_fmap. by exists (R, l).
    + destruct (args_cleanup_manifests args); [|by apply elem_of_nil in Hc].
      match type of Hc with c ∈ calls (cleanup_unused_manifests ?u ?d ?w0).2 =>
        destruct (cleanup_unused_manifests_within u d w0) as [_ Hcl]
      end.
      by apply (Hwithin _ Hcl).
Qed.
End scope.

Lemma main_stays_within_discovered_witness :
  ListManifestProperties "myrepo"
    ∈ calls (main (clients := Fake.provider []) Fake.str_of_json
               (Fake.args true true) Fake.environ (Fake.files Fake.config0)
               (start Fake.cloud0)).2
  ∧ "myrepo" ∈ (get_all_web_apps_data (clients := Fake.provider []) Fake.self
                  ["app-a"] (start Fake.cloud0)).1.2.
Proof.
  assert (ListManifestProperties "myrepo"
    ∈ calls (main (clients := Fake.provider []) Fake.str_of_json
               (Fake.args true true) Fake.environ (Fake.files Fake.config0)
               (start Fake.cloud0)).2) as Hcall.
  { vm_compute. do 5 right. left. }
  split; [exact Hcall|].
  assert (¬ identity_missing (Fake.args true true)) as Hid.
  { unfold identity_missing. simpl. intros [H|[H|[H|H]]]; discriminate H. }
  exact (main_stays_within_discovered (clients := Fake.provider [])
           Fake.str_of_json (Fake.args true true) Fake.environ
           (Fake.files Fake.config0) Fake.cloud0 Fake.self ["app-a"]
           Hid eq_refl eq_refl (ListManifestProperties "myrepo") "myrepo"
           Hcall eq_refl).
Defined.

(** ** [main]: setup, dry runs and the order of the stages *)

Lemma tag_deletions_keeps cs : Forall keeps cs → tag_deletions cs = [].
Proof. apply (tag_deletions_none keeps). by intros R t []. Qed.

Lemma manifest_deletions_keeps cs : Forall keeps cs → manifest_deletions cs = [].
Proof.
  unfold manifest_deletions. induction 1 as [|c cs Hc _ IH]; [done|].
  cbn. rewrite IH. by destruct c.
Qed.

Section setup.
Context {St : Type} {clients : Provider St}.
Variable str_of_json : json → string.

(** How far [main] gets before it reaches the provider. *)
Lemma main_setup_cases args environ files :
  (identity_missing args
   ∨ (∃ e, Reaper_init environ (args_subscription_id args)
             (args_resource_group args) (args_registry_name args) = Raise e)
   ∨ (∃ e, (load_configs str_of_json (args_config_path args)
              (files (args_config_path args))).1 = Raise e))
  ∨ ∃ reaper web_apps,
      ¬ identity_missing args
      ∧ Reaper_init environ (args_subscription_id args)
          (args_resource_group args) (args_registry_name args) = Ok reaper
      ∧ (load_configs str_of_json (args_config_path args)
           (files (args_config_path args))).1 = Ok web_apps.
Proof.
  destruct (decide (identity_missing args)) as [|Hid]; [by left; left|].
  destruct (Reaper_init _ _ _ _) as [reaper|e] eqn:Hinit;
    [|left; right; left; by exists e].
  destruct (load_configs _ _ _).1 as [web_apps|e] eqn:Hload;
    [|left; right; right; by exists e].
  right. by exists reaper, web_apps.
Qed.

Lemma main_aborts args environ files (w : World St) :
  identity_missing args
  ∨ (∃ e, Reaper_init environ (args_subscription_id args)
            (args_resource_group args) (args_registry_name args) = Raise e)
  ∨ (∃ e, (load_configs str_of_json (args_config_path args)
             (files (args_config_path args))).1 = Raise e)
  ∨ (load_configs str_of_json (args_config_path args)
       (files (args_config_path args))).1 = Ok [] →
  let r := main str_of_json args environ files w in
  cloud r.2 = cloud w ∧ calls r.2 = calls w.
Proof.
  intros Hcase. cbn zeta. unfold main. fold (identity_missing args).
  destruct (decide (identity_missing args)) as [|Hid]; [done|].
  destruct Hcase as [?|Hcase]; [done|].
  destruct (Reaper_init _ _ _ _) as [reaper|e];
    [|unfold main_failed; by rewrite !bind_eq].
  destruct Hcase as [[e [=]]|Hcase].
  rewrite bind_eq. cbn [logged fst snd].
  destruct Hcase as [[e ->]| ->]; unfold main_failed; by rewrite !bind_eq.
Qed.

Lemma main_returns_0 args environ files (w : World St) reaper web_apps :
  ¬ identity_missing args →
  Reaper_init environ (args_subscription_id args) (args_resource_group args)
    (args_registry_name args) = Ok reaper →
  (load_configs str_of_json (args_config_path args)
     (files (args_config_path args))).1 = Ok web_apps →
  (main str_of_json args environ files w).1 = 0.
Proof.
  intros Hid Hinit Hload. unfold main. fold (identity_missing args).
  rewrite decide_False by done. rewrite Hinit, bind_eq.
  cbn [logged fst snd]. rewrite Hload.
  destruct web_apps as [|web_app web_apps]; [done|].
  match goal with |- (?m ?w0).1 = 0 => generalize w0; change (returns 0 m) end.
  solve_returns.
Qed.

(** X15.  A run that ends with a non-zero status, or whose configuration lists
    no web app, never reaches the provider: no SDK call is issued and the
    cloud is left as it was. *)
Theorem main_failure_calls_nothing args environ files (w : World St) :
  (main str_of_json args environ files w).1 ≠ 0
  ∨ (load_configs str_of_json (args_config_path args)
       (files (args_config_path args))).1 = Ok [] →
  let r := main str_of_json args environ files w in
  cloud r.2 = cloud w ∧ calls r.2 = calls w.
Proof.
  intros Hcase. apply main_aborts.
  destruct (main_setup_cases args environ files)
    as [[?|[?|?]]|(reaper & web_apps & Hid & Hinit & Hload)]; auto.
  destruct Hcase as [Hstatus|Hempty]; [|auto].
  by rewrite (main_returns_0 _ _ _ _ reaper web_apps) in Hstatus.
Qed.

(** X16.  A dry run removes nothing: whatever the arguments, the environment and
    the configuration, [main] without [--execute] requests the deletion of
    no tag and of no manifest. *)
Theorem dry_run_removes_nothing args environ files (w : World St) :
  args_execute args = false →
  let r := main str_of_json args environ files w in
  tag_deletions (calls r.2) = tag_deletions (calls w)
  ∧ manifest_deletions (calls r.2) = manifest_deletions (calls w).
Proof.
  intros Hdry r.
  destruct (main_dry_run_sends str_of_json args environ files Hdry w)
    as [Heq Hkeeps].
  unfold r. rewrite Heq. cbn [snd calls].
  unfold manifest_deletions at 1. rewrite tag_deletions_app, omap_app.
  fold (manifest_deletions (calls w)).
  fold (manifest_deletions
          (calls (main str_of_json args environ files (start (cloud w))).2)).
  rewrite (tag_deletions_keeps _ Hkeeps), (manifest_deletions_keeps _ Hkeeps).
  by rewrite !app_nil_r.
Qed.

(** X17.  [main] works in stages that do not interleave: it first reads the web
    apps, then lists the tags of the discovered repositories, then
    requests deletions of tags, and only then touches manifests. *)
Theorem main_runs_in_stages args environ files (st : St) :
  ∃ ws ls ds ms,
    calls (main str_of_json args environ files (start st)).2
    = ws ++ ls ++ ds ++ ms
    ∧ Forall web_call ws ∧ Forall tag_listing ls
    ∧ Forall tag_deletion ds ∧ Forall manifest_call ms.
Proof.
  destruct (main_setup_cases args environ files)
    as [Hfail|(reaper & web_apps & Hid & Hinit & Hload)].
  { destruct (main_aborts args environ files (start st)) as [_ ->].
    { destruct Hfail as [?|[?|?]]; auto. }
    by exists [], [], [], []. }
  rewrite (main_calls str_of_json args environ files st reaper web_apps) by done.
  set (collected := get_all_web_apps_data reaper web_apps (start st)).
  set (identified := identify_unused_images reaper collected.1.2 collected.1.1
                       (start (cloud collected.2))).
  destruct (collect_sends reaper web_apps (start st)) as [_ Hc1].
  destruct (identify_sends reaper collected.1.2 collected.1.1
              (start (cloud collected.2))) as [_ Hc2].
  cbn [start cloud] in Hc1, Hc2.
  exists (calls collected.2), (calls identified.2).
  destruct identified.1 as [|u us].
  { exists [], []. by rewrite !app_nil_r. }
  match goal with |- context [delete_unused_images ?u ?d ?w0] =>
    destruct (delete_sends u d w0) as [_ Hc3];
    set (deleted := delete_unused_images u d w0) in *
  end.
  exists (calls deleted.2).
  destruct (args_cleanup_manifests args).
  - match goal with |- context [cleanup_unused_manifests ?u ?d ?w0] =>
      destruct (cleanup_sends u d w0) as [_ Hc4] end.
    eexists. split; [reflexivity|done].
  - exists []. done.
Qed.
End setup.

Lemma main_failure_calls_nothing_witness :
  let r := main (clients := Fake.provider []) Fake.str_of_json
             (Fake.args true true) Fake.environ (Fake.files (JArray []))
             (start Fake.cloud0) in
  r.1 = 1 ∧ cloud r.2 = Fake.cloud0 ∧ calls r.2 = [].
Proof.
  split; [reflexivity|].
  apply (main_failure_calls_nothing (clients := Fake.provider [])
           Fake.str_of_json (Fake.args true true) Fake.environ
           (Fake.files (JArray [])) (start Fake.cloud0)).
  left. vm_compute. discriminate.
Defined.

Lemma dry_run_removes_nothing_witness :
  let r := main (clients := Fake.provider []) Fake.str_of_json
             (Fake.args false true) Fake.environ (Fake.files Fake.config0)
             (start Fake.cloud0) in
  tag_deletions (calls r.2) = [] ∧ manifest_deletions (calls r.2) = [].
Proof.
  apply (dry_run_removes_nothing (clients := Fake.provider [])
           Fake.str_of_json (Fake.args false true) Fake.environ
           (Fake.files Fake.config0) (start Fake.cloud0)).
  reflexivity.
Defined.

(** ** [main]: from the descriptors to the deletions *)

Section end_to_end.
Context {St : Type} {clients : Provider St}.
Variable str_of_json : json → string.

Hypothesis get_reads : ∀ rg a st, (web_apps_get rg a st).2 = st.
Hypothesis list_reads : ∀ rg a st, (web_apps_list_slots rg a st).2 = st.
Hypothesis slot_reads :
  ∀ rg a s st, (web_apps_get_configuration_slot rg a s st).2 = st.
Hypothesis tag_reads : ∀ r st, (list_tag_properties r st).2 = st.

(** X20.  The tool from end to end.  With a provider whose read operations
    leave the cloud as it is, a run that gets past setup requests the
    deletion of a tag exactly when it runs in execute mode, the tag's
    repository is named by a readable descriptor of one of the web apps,
    the registry lists the tag for that repository, and no readable
    descriptor names that repository and tag. *)
Theorem main_deletes_iff args environ files (st : St) reaper web_apps :
  ¬ identity_missing args →
  Reaper_init environ (args_subscription_id args) (args_resource_group args)
    (args_registry_name args) = Ok reaper →
  (load_configs str_of_json (args_config_path args)
     (files (args_config_path args))).1 = Ok web_apps →
  let in_use :=
    gathered (concat ((λ web_app,
      readable_descriptors (resource_group_name reaper) web_app st)
        <$> web_apps)) in
  ∀ R t,
    DeleteTag R t ∈ calls (main str_of_json args environ files (start st)).2
    ↔ args_execute args = true
      ∧ R ∈ in_use.2
      ∧ t ∈ enumerated st R
      ∧ R +:+ ":" +:+ t ∉ in_use.1.
Proof.
  intros Hid Hinit Hload in_use R t.
  rewrite <-elem_of_tag_deletions.
  rewrite (main_tag_deletions str_of_json args environ files st reaper web_apps)
    by done.
  destruct (get_all_web_apps_data_runs reaper get_reads list_reads slot_reads
              web_apps st (start st) eq_refl) as (Hv & _ & Hst).
  fold in_use in Hv. rewrite Hv, Hst. clear Hv Hst.
  destruct (args_execute args).
  2: { split; [by intros ?%elem_of_nil|by intros [? _]]. }
  rewrite elem_of_to_delete.
  destruct (identify_unused_images_get reaper in_use.2 in_use.1 (start st)
              tag_reads) as [_ Hget].
  destruct (identify_unused_images_shape reaper in_use.2 in_use.1 (start st))
    as (Hsub & _ & _).
  assert (Dict.wf (identify_unused_images reaper in_use.2 in_use.1 (start st)).1)
    as Hwf.
  { unfold Dict.wf. eapply sublist_NoDup; [|exact Hsub]. apply NoDup_elements. }
  cbn [start cloud] in Hget. unfold unused_of in Hget. split.
  - intros (l & Hl & Ht). apply (elem_of_get _ _ _ Hwf) in Hl.
    rewrite Hget in Hl. destruct (decide _) as [[HR _]|]; [|done].
    injection Hl as <-. apply list_elem_of_filter in Ht as [? ?]. done.
  - intros (_ & HR & Ht & Hfree).
    exists (filter (λ t, R +:+ ":" +:+ t ∉ in_use.1) (enumerated st R)).
    assert (t ∈ filter (λ t, R +:+ ":" +:+ t ∉ in_use.1) (enumerated st R))
      as Hin by by apply list_elem_of_filter.
    split; [|done]. apply get_elem_of. rewrite Hget, decide_True; [done|].
    split; [done|]. intros Hnil. rewrite Hnil in Hin. by apply elem_of_nil in Hin.
Qed.
End end_to_end.

Lemma main_deletes_iff_witness :
  DeleteTag "myrepo" "v3"
    ∈ calls (main (clients := Fake.provider []) Fake.str_of_json
               (Fake.args true false) Fake.environ (Fake.files Fake.config0)
               (start Fake.cloud0)).2.
Proof.
  assert (¬ identity_missing (Fake.args true false)) as Hid.
  { unfold identity_missing. simpl. intros [H|[H|[H|H]]]; discriminate H. }
  apply (main_deletes_iff (clients := Fake.provider []) Fake.str_of_json
           (λ _ _ _, eq_refl) (λ _ _ _, eq_refl) (λ _ _ _ _, eq_refl)
           (λ _ _, eq_refl)
           (Fake.args true false) Fake.environ (Fake.files Fake.config0)
           Fake.cloud0 Fake.self ["app-a"] Hid eq_refl eq_refl "myrepo" "v3").
  split; [reflexivity|]. vm_compute. split_and!.
  - by apply (bool_decide_unpack _).
  - do 2 right. left.
  - apply (bool_decide_unpack _). by vm_compute.
Defined.
